(** * CSV cleaning engine: a shallow embedding of [CsvEngineService] and of
      the parts of [CsvService] that feed it.

    Embedded from [csv-engine.service.ts] (class [CsvEngineService]):
    [buildSample], [parseCsv], [serializeCsv], [mapToCleaningActions] and
    [applyActions]; from [csv.service.ts] (class [CsvService]):
    [analyzeCsv], [cleanCsv], [extractJsonBlock] and [isValidAiResponse].
    The built-ins they call ([trim], [slice], [split], [join], [indexOf],
    [replace], [Number], [String]) are embedded from the ECMAScript
    specification.  The call to the advisor ([AiService.analyzeCsvPrompt])
    and [JSON.parse] are parameters of [analyzeCsv] and [cleanCsv].

    Conventions.
    - A JavaScript string is the list of its UTF-16 code units ([list N]).
    - A table ([string[][]]) is a list of rows, a row a list of cells.
      COERCE_NUMERIC writes cells in place: [coerceLoopInPlace] is its loop
      over a heap of row arrays, and [coerceLoop] is the same loop over
      the table as a value, which is what the heap holds afterwards when
      the row arrays are pairwise distinct ([coerceLoopInPlace_frame]), as
      they are in every table the service builds ([parseCsv] and every
      [map] allocate fresh arrays).  When one array is two rows of the
      table the two loops differ ([coerceLoopInPlace_shared_row]).
    - A JavaScript number is an IEEE-754 binary64 value, kept as sign,
      mantissa and binary exponent.  [Number] rounds to nearest, ties to
      even, with every digit of the literal taken into account.
    - Code that can raise a [TypeError] returns a [Completion]; a method
      of the service returns a [ServiceResult]. *)

From Equations Require Import Equations.
From Stdlib Require Import ZArith NArith Lia String Ascii Bool Decimal DecimalPos.
From stdpp Require Import base option list numbers.

Set Default Proof Using "Type".

(** ** JavaScript strings *)

Abbreviation JsString := (list N).

(** An ASCII literal as a JavaScript string. *)
Definition lit (s : string) : JsString :=
  map N_of_ascii (list_ascii_of_string s).
Arguments lit : simpl never.

Module Ch.
Definition LF : N := 10.
Definition CR : N := 13.
Definition DQUOTE : N := 34.
Definition PLUS : N := 43.
Definition COMMA : N := 44.
End Ch.

(** ECMAScript [WhiteSpace] and [LineTerminator] code points: the characters
    removed by [String.prototype.trim] and skipped by [Number(string)]. *)
Definition isWhiteSpace (c : N) : bool :=
  ((c =? 9) || (c =? 10) || (c =? 11) || (c =? 12) || (c =? 13) || (c =? 32)
   || (c =? 160) || (c =? 5760) || ((8192 <=? c) && (c <=? 8202))
   || (c =? 8232) || (c =? 8233) || (c =? 8239) || (c =? 8287)
   || (c =? 12288) || (c =? 65279))%N.

Fixpoint trimStart (s : JsString) : JsString :=
  match s with
  | [] => []
  | c :: s' => if isWhiteSpace c then trimStart s' else s
  end.

Definition trimEnd (s : JsString) : JsString := rev (trimStart (rev s)).

(** [String.prototype.trim]. *)
Definition trim (s : JsString) : JsString := trimEnd (trimStart s).

(** Relative index of [slice]: a negative index counts from the end, and
    the result is clamped to [0 .. len]. *)
Definition relIndex (len : nat) (k : Z) : nat :=
  if (k <? 0)%Z then Z.to_nat (Z.max (Z.of_nat len + k) 0)
  else Nat.min (Z.to_nat k) len.

(** [x.slice(start, end)], for strings and arrays alike. *)
Definition slice {A} (l : list A) (start end_ : Z) : list A :=
  let from := relIndex (length l) start in
  let to := relIndex (length l) end_ in
  take (to - from) (drop from l).

(** [x.slice(start)]: the end defaults to the length. *)
Definition sliceFrom {A} (l : list A) (start : Z) : list A :=
  drop (relIndex (length l) start) l.

Definition startsWith (s : JsString) (c : N) : bool :=
  match s with
  | [] => false
  | d :: _ => (d =? c)%N
  end.

Definition endsWith (s : JsString) (c : N) : bool := startsWith (rev s) c.

(** [s.split(/\r?\n/)]: the text is cut at every line feed, together with
    the carriage return just before it when there is one.  The result has
    at least one element. *)
Fixpoint splitLines (s : JsString) : list JsString :=
  match s with
  | [] => [[]]
  | c :: rest =>
      if (c =? Ch.LF)%N then [] :: splitLines rest
      else
        match rest with
        | d :: rest' =>
            if ((c =? Ch.CR) && (d =? Ch.LF))%N then [] :: splitLines rest'
            else
              match splitLines rest with
              | l :: ls => (c :: l) :: ls
              | [] => [[c]]
              end
        | [] => [[c]]
        end
  end.

(** [lines.join(sep)]. *)
Fixpoint join (sep : JsString) (parts : list JsString) : JsString :=
  match parts with
  | [] => []
  | [p] => p
  | p :: ps => p ++ sep ++ join sep ps
  end.

(** ** JavaScript numbers *)

(** A binary64 value.  [Finite neg m e] stands for [(-1)^neg * m * 2^e]. *)
Inductive JsNumber :=
| NaN
| Infinity (neg : bool)
| Zero (neg : bool)
| Finite (neg : bool) (m : positive) (e : Z).

(** ** [Number(string)]: the StringNumericLiteral grammar *)

Definition isDigit (c : N) : bool := ((48 <=? c) && (c <=? 57))%N.

(** The value of a digit in radix up to 16; [None] for other characters. *)
Definition hexValue (c : N) : option Z :=
  if isDigit c then Some (Z.of_N c - 48)%Z
  else if ((97 <=? c) && (c <=? 102))%N then Some (Z.of_N c - 87)%Z
  else if ((65 <=? c) && (c <=? 70))%N then Some (Z.of_N c - 55)%Z
  else None.

(** The longest prefix of decimal digits, and what follows it. *)
Fixpoint spanDigits (s : JsString) : JsString * JsString :=
  match s with
  | c :: s' =>
      if isDigit c then let '(ds, rest) := spanDigits s' in (c :: ds, rest)
      else ([], s)
  | [] => ([], [])
  end.

(** The integer written by a list of digits of the given radix; [None] when
    a character is not a digit of that radix. *)
Fixpoint digitsValue (radix : Z) (acc : Z) (s : JsString) : option Z :=
  match s with
  | [] => Some acc
  | c :: s' =>
      match hexValue c with
      | Some v =>
          if (v <? radix)%Z then digitsValue radix (radix * acc + v) s'
          else None
      | None => None
      end
  end.

(** The integer written by a list of decimal digits. *)
Definition decimalValue (ds : JsString) : Z :=
  fold_left (λ acc c, 10 * acc + (Z.of_N c - 48))%Z ds 0%Z.

(** The mathematical value of a literal: an infinity, or
    [(-1)^neg * mant * 10^exp10]. *)
Inductive MathValue :=
| MVInfinity (neg : bool)
| MVDecimal (neg : bool) (mant : Z) (exp10 : Z).

(** Code units named in the grammar: 43 [+], 45 [-], 46 [.], 48 [0],
    69 [E], 101 [e], 120 [x], 88 [X], 111 [o], 79 [O], 98 [b], 66 [B]. *)

(** An optional sign [+] or [-]: whether it is [-], and the rest. *)
Definition takeSign (s : JsString) : bool * JsString :=
  match s with
  | c :: s' =>
      if (c =? 43)%N then (false, s')
      else if (c =? 45)%N then (true, s')
      else (false, s)
  | [] => (false, [])
  end.

(** ExponentPart (opt), which must end the literal. *)
Definition parseExponentPart (s : JsString) : option Z :=
  match s with
  | [] => Some 0%Z
  | c :: s1 =>
      if ((c =? 101) || (c =? 69))%N then
        let '(neg, s2) := takeSign s1 in
        match spanDigits s2 with
        | ((_ :: _) as ds, []) =>
            Some (if neg then - decimalValue ds else decimalValue ds)%Z
        | _ => None
        end
      else None
  end.

(** StrUnsignedDecimalLiteral without [Infinity]: mantissa and decimal
    exponent. *)
Definition parseUnsignedDecimal (s : JsString) : option (Z * Z) :=
  let '(ip, r1) := spanDigits s in
  let '(fp, r2) :=
    match r1 with
    | c :: r => if (c =? 46)%N then spanDigits r else ([], r1)
    | [] => ([], [])
    end in
  match ip ++ fp with
  | [] => None
  | (_ :: _) as ds =>
      match parseExponentPart r2 with
      | Some e => Some (decimalValue ds, e - Z.of_nat (length fp))%Z
      | None => None
      end
  end.

(** StrDecimalLiteral. *)
Definition parseStrDecimalLiteral (s : JsString) : option MathValue :=
  let '(neg, u) := takeSign s in
  if bool_decide (u = lit "Infinity") then Some (MVInfinity neg)
  else
    match parseUnsignedDecimal u with
    | Some (m, e) => Some (MVDecimal neg m e)
    | None => None
    end.

(** NonDecimalIntegerLiteral: [0x], [0o] and [0b] literals, unsigned. *)
Definition parseNonDecimalIntegerLiteral (s : JsString) : option MathValue :=
  match s with
  | z :: x :: ((_ :: _) as ds) =>
      if (z =? 48)%N then
        let radix :=
          if ((x =? 120) || (x =? 88))%N then Some 16%Z
          else if ((x =? 111) || (x =? 79))%N then Some 8%Z
          else if ((x =? 98) || (x =? 66))%N then Some 2%Z
          else None in
        match radix with
        | Some r =>
            match digitsValue r 0 ds with
            | Some v => Some (MVDecimal false v 0)
            | None => None
            end
        | None => None
        end
      else None
  | _ => None
  end.

(** StrNumericLiteral. *)
Definition parseStrNumericLiteral (s : JsString) : option MathValue :=
  match parseStrDecimalLiteral s with
  | Some v => Some v
  | None => parseNonDecimalIntegerLiteral s
  end.

(** ** Rounding to binary64 *)

(** The binary64 value nearest to [n / d] (ties to even), for positive [n]
    and [d]: the exponent [e] is chosen so that the quotient by [2^e] has 53
    bits, or is [-1074] for a subnormal result; the quotient is rounded on
    its remainder; a result beyond the largest finite value is an infinity,
    one that rounds to nothing a zero. *)
Definition roundRatio (neg : bool) (n d : Z) : JsNumber :=
  let e1 := (Z.log2 n - Z.log2 d - 52)%Z in
  let q1 := (if e1 <? 0 then (n * 2 ^ (- e1)) / d else n / (d * 2 ^ e1))%Z in
  let e2 := (if q1 <? 2 ^ 52 then e1 - 1 else e1)%Z in
  let e := Z.max e2 (-1074) in
  let '(num, den) := (if e <? 0 then (n * 2 ^ (- e), d) else (n, d * 2 ^ e))%Z in
  let q := (num / den)%Z in
  let r := (num mod den)%Z in
  let q' := (if (den <? 2 * r) || ((den =? 2 * r) && Z.odd q)
             then q + 1 else q)%Z in
  let '(m, e') := (if q' =? 2 ^ 53 then (2 ^ 52, e + 1) else (q', e))%Z in
  if (971 <? e')%Z then Infinity neg
  else
    match m with
    | Zpos p => Finite neg p e'
    | _ => Zero neg
    end.

(** The binary64 value of [mant * 10^exp10], for positive [mant]. *)
Definition roundDecimal (neg : bool) (mant exp10 : Z) : JsNumber :=
  if (exp10 <? 0)%Z then roundRatio neg mant (10 ^ (- exp10))
  else roundRatio neg (mant * 10 ^ exp10) 1.

Definition toNumber (v : MathValue) : JsNumber :=
  match v with
  | MVInfinity neg => Infinity neg
  | MVDecimal neg mant exp10 =>
      if (mant =? 0)%Z then Zero neg else roundDecimal neg mant exp10
  end.

(** [Number(s)] for a string [s]: the abstract operation StringToNumber. *)
Definition StringToNumber (s : JsString) : JsNumber :=
  match trim s with
  | [] => Zero false
  | (_ :: _) as t =>
      match parseStrNumericLiteral t with
      | Some v => toNumber v
      | None => NaN
      end
  end.

Definition isNaN (x : JsNumber) : bool :=
  match x with
  | NaN => true
  | _ => false
  end.

(** ** [String(number)] *)

Fixpoint uintDigits (u : Decimal.uint) : JsString :=
  match u with
  | Nil => []
  | D0 u => 48%N :: uintDigits u
  | D1 u => 49%N :: uintDigits u
  | D2 u => 50%N :: uintDigits u
  | D3 u => 51%N :: uintDigits u
  | D4 u => 52%N :: uintDigits u
  | D5 u => 53%N :: uintDigits u
  | D6 u => 54%N :: uintDigits u
  | D7 u => 55%N :: uintDigits u
  | D8 u => 56%N :: uintDigits u
  | D9 u => 57%N :: uintDigits u
  end.

(** The decimal digits of a positive integer. *)
Definition decimalDigits (p : positive) : JsString := uintDigits (Pos.to_uint p).

Global Instance JsNumber_eq_dec : EqDecision JsNumber.
Proof. solve_decision. Defined.

(** The search for the shortest digit string that reads back as the
    binary64 value [x].  [rest] holds the digits of the exact decimal
    expansion of [x] that are still to be read, [pre] the integer written by
    the [k] digits read so far, and [n0] the position of the decimal point:
    [x] lies between [0.1 * 10^n0] and [10^n0].  With one more digit there are
    two candidates, the expansion cut there and the next integer; of those
    that read back as [x] the nearer to [x] is taken, and the even one when
    both are equally near.  The result [(s, n)] stands for [0.s * 10^n]. *)
Fixpoint shortestDigits (x : JsNumber) (n0 pre k : Z) (rest : JsString)
  : Z * Z :=
  match rest with
  | [] => (pre, n0)
  | d :: rest' =>
      let lo := (10 * pre + (Z.of_N d - 48))%Z in
      let k' := (k + 1)%Z in
      match rest' with
      | [] => (lo, n0)
      | _ :: _ =>
          let hi := (lo + 1)%Z in
          let okLo := bool_decide (roundDecimal false lo (n0 - k') = x) in
          let okHi := bool_decide (roundDecimal false hi (n0 - k') = x) in
          let unit := (10 ^ Z.of_nat (length rest'))%Z in
          let twice := (2 * decimalValue rest')%Z in
          let preferHi :=
            (unit <? twice)%Z || ((unit =? twice)%Z && Z.odd lo) in
          if okLo && (negb okHi || negb preferHi) then (lo, n0)
          else if okHi then
            if (hi =? 10 ^ k')%Z then (1, n0 + 1)%Z else (hi, n0)
          else shortestDigits x n0 lo k' rest'
      end
  end.

(** The canonical term of a binary64 value.  [Finite neg m e] stands for
    [m * 2^e] however it is written ([Finite false 2 (-1)] and
    [Finite false 1 0] are both the number 1); [canonical] gives the term
    in which [roundRatio] writes that value, so that equal values are equal
    terms.  The values [Number] returns are of that form already. *)
Definition canonical (x : JsNumber) : JsNumber :=
  match x with
  | Finite neg m e =>
      if (e <? 0)%Z then roundRatio neg (Zpos m) (2 ^ (- e))
      else roundRatio neg (Zpos m * 2 ^ e) 1
  | _ => x
  end.

(** The digits [s] and the exponent [n] that Number::toString picks for the
    positive value [m * 2^e], given in canonical form. *)
Definition shortest (m : positive) (e : Z) : Z * Z :=
  let '(M, E) := (if e <? 0 then (Zpos m * 5 ^ (- e), e)
                  else (Zpos m * 2 ^ e, 0))%Z in
  let ds := decimalDigits (Z.to_pos M) in
  let n0 := (Z.of_nat (length ds) + E)%Z in
  shortestDigits (Finite false m e) n0 0 0 ds.

(** The text of [0.ds * 10^n] as Number::toString lays it out. *)
Definition formatDecimal (ds : JsString) (n : Z) : JsString :=
  let k := Z.of_nat (length ds) in
  if ((k <=? n) && (n <=? 21))%Z then
    ds ++ replicate (Z.to_nat (n - k)) 48%N
  else if ((0 <? n) && (n <=? 21))%Z then
    take (Z.to_nat n) ds ++ [46%N] ++ drop (Z.to_nat n) ds
  else if ((-6 <? n) && (n <=? 0))%Z then
    [48%N; 46%N] ++ replicate (Z.to_nat (- n)) 48%N ++ ds
  else
    let ex := (n - 1)%Z in
    let signCh := if (ex <? 0)%Z then 45%N else 43%N in
    let exDigits := decimalDigits (Z.to_pos (Z.abs ex)) in
    match ds with
    | [] => []
    | [d] => [d; 101%N; signCh] ++ exDigits
    | d :: more => d :: 46%N :: more ++ [101%N; signCh] ++ exDigits
    end.

(** [String(x)] for a number [x]: Number::toString in radix 10. *)
Definition NumberToString (x : JsNumber) : JsString :=
  match canonical x with
  | NaN => lit "NaN"
  | Zero _ => lit "0"
  | Infinity neg => if neg then lit "-Infinity" else lit "Infinity"
  | Finite neg m e =>
      let '(s, n) := shortest m e in
      (if neg then [45%N] else []) ++ formatDecimal (decimalDigits (Z.to_pos s)) n
  end.


(** ** The engine's data *)

Abbreviation Row := (list JsString).
Abbreviation Table := (list (list JsString)).

Inductive CleaningMode := DropRowMode | PadWithEmpty.
Inductive CoerceOnError := DropRow | SetNull | SetZero.

Global Instance CleaningMode_eq_dec : EqDecision CleaningMode.
Proof. solve_decision. Defined.
Global Instance CoerceOnError_eq_dec : EqDecision CoerceOnError.
Proof. solve_decision. Defined.

(** The tagged union [CleaningAction]. *)
Inductive CleaningAction :=
| TRIM_WHITESPACE
| STRIP_WRAPPING_QUOTES
| ENSURE_EQUAL_COLUMNS (mode : CleaningMode)
| REMOVE_EMPTY_ROWS
| COERCE_NUMERIC (columnIndex : JsNumber) (onError : CoerceOnError).

Record ApplyActionsResult := mkResult {
  rows : Table;
  rowsChanged : nat;
  rowsDropped : nat
}.

(** ** [CsvEngineService.buildSample] *)

Definition buildSample (csv : JsString) (maxLines : Z) : JsString :=
  let lines := splitLines csv in
  let sliced := slice lines 0 maxLines in
  join [Ch.LF] sliced.

(** The default value of the [maxLines] parameter. *)
Definition defaultMaxLines : Z := 50.

(** ** The cell-wise actions of [applyActions] *)

(** The callback of TRIM_WHITESPACE: the new cell, and whether
    [changedHere] was incremented. *)
Definition trimCell (cell : JsString) : JsString * bool :=
  let trimmed := trim cell in
  (trimmed, bool_decide (trimmed ≠ cell)).

(** The callback of STRIP_WRAPPING_QUOTES. *)
Definition stripCell (cell : JsString) : JsString * bool :=
  let trimmed := trim cell in
  if (2 <=? length trimmed) && startsWith trimmed Ch.DQUOTE
     && endsWith trimmed Ch.DQUOTE
  then (slice trimmed 1 (-1), true)
  else (cell, false).

(** [workingRows.map(row => row.map(f))] with the counter [changedHere]. *)
Definition mapCells (f : JsString → JsString * bool) (t : Table) : Table * nat :=
  (map (map (λ cell, fst (f cell))) t,
   sum_list (map (λ row, length (filter (λ cell, snd (f cell) = true) row)) t)).

(** ** Completions and untyped values *)

Inductive JsError := TypeError.

(** The outcome of code that may throw. *)
Inductive Completion (A : Type) :=
| Normal (a : A)
| Throw (err : JsError).
Arguments Normal {A} a.
Arguments Throw {A} err.

Global Instance Completion_ret : MRet Completion := λ A a, Normal a.
Global Instance Completion_bind : MBind Completion := λ A B k c,
  match c with
  | Normal a => k a
  | Throw err => Throw err
  end.

(** A value of type [unknown], as [JSON.parse] can build it ([undefined]
    added).  An object is the list of its own properties. *)
#[warnings="-register-all"]
Inductive JsValue :=
| JUndefined
| JNull
| JBool (b : bool)
| JNum (x : JsNumber)
| JStr (s : JsString)
| JArray (items : list JsValue)
| JObject (props : list (JsString * JsValue)).

Fixpoint assoc (key : JsString) (props : list (JsString * JsValue)) : JsValue :=
  match props with
  | [] => JUndefined
  | (k, v) :: props' => if bool_decide (k = key) then v else assoc key props'
  end.

(** The property read [v.key], for the keys this program reads ([type],
    [mode], [onError], [columnIndex], [column_index]): reading a property of
    [null] or [undefined] throws a TypeError; primitives and arrays have no
    property of these names. *)
Definition getProp (v : JsValue) (key : string) : Completion JsValue :=
  match v with
  | JUndefined | JNull => Throw TypeError
  | JObject props => Normal (assoc (lit key) props)
  | _ => Normal JUndefined
  end.

(** [v === 'text'] for a string literal. *)
Definition strictEqualsString (v : JsValue) (text : string) : bool :=
  match v with
  | JStr s => bool_decide (s = lit text)
  | _ => false
  end.

(** ** [CsvEngineService.mapToCleaningActions] *)

(** The [onError] of a COERCE_NUMERIC action: the raw value when it is one
    of the three modes, ['drop-row'] otherwise. *)
Definition normalizeOnError (rawOnError : JsValue) : CoerceOnError :=
  if strictEqualsString rawOnError "set-null" then SetNull
  else if strictEqualsString rawOnError "set-zero" then SetZero
  else if strictEqualsString rawOnError "drop-row" then DropRow
  else DropRow.

(** One turn of the loop over [rawActions]: the action pushed, if any. *)
Definition normalizeCandidate (a : JsValue)
  : Completion (option CleaningAction) :=
  ty ← getProp a "type";
  match ty with
  | JStr t =>
      if bool_decide (t = lit "TRIM_WHITESPACE") then
        Normal (Some TRIM_WHITESPACE)
      else if bool_decide (t = lit "STRIP_WRAPPING_QUOTES") then
        Normal (Some STRIP_WRAPPING_QUOTES)
      else if bool_decide (t = lit "ENSURE_EQUAL_COLUMNS") then
        rawMode ← getProp a "mode";
        let mode :=
          if strictEqualsString rawMode "pad-with-empty"
          then PadWithEmpty else DropRowMode in
        Normal (Some (ENSURE_EQUAL_COLUMNS mode))
      else if bool_decide (t = lit "REMOVE_EMPTY_ROWS") then
        Normal (Some REMOVE_EMPTY_ROWS)
      else if bool_decide (t = lit "COERCE_NUMERIC") then
        ci ← getProp a "columnIndex";
        match ci with
        | JNum columnIndex =>
            rawOnError ← getProp a "onError";
            let onError := normalizeOnError rawOnError in
            Normal (Some (COERCE_NUMERIC columnIndex onError))
        | _ => Normal None
        end
      else Normal None
  | _ => Normal None
  end.

Fixpoint mapToCleaningActions (rawActions : list JsValue)
  : Completion (list CleaningAction) :=
  match rawActions with
  | [] => Normal []
  | a :: rest =>
      pushed ← normalizeCandidate a;
      actions ← mapToCleaningActions rest;
      Normal (match pushed with
              | Some action => action :: actions
              | None => actions
              end)
  end.

(** ** [CsvEngineService.applyActions] *)

(** What a row-wise action does with one row: pushed as it is, pushed after
    a change ([rowsChanged++]), or left out ([rowsDropped++]). *)
Inductive RowOutcome :=
| Kept (row : Row)
| Changed (row : Row)
| Dropped.

(** [newRows] and the two increments, from the outcomes row by row. *)
Fixpoint collect (outcomes : list RowOutcome) : Table * nat * nat :=
  match outcomes with
  | [] => ([], 0, 0)
  | o :: rest =>
      let '(newRows, changed, dropped) := collect rest in
      match o with
      | Kept row => (row :: newRows, changed, dropped)
      | Changed row => (row :: newRows, S changed, dropped)
      | Dropped => (newRows, changed, S dropped)
      end
  end.

(** [workingRows.length > 0 ? workingRows[0].length : 0]. *)
Definition expectedColumnsOf (workingRows : Table) : nat :=
  match workingRows with
  | [] => 0
  | row0 :: _ => length row0
  end.

(** The body of the loop of ENSURE_EQUAL_COLUMNS. *)
Definition ensureRow (mode : CleaningMode) (expectedColumns : nat) (row : Row)
  : RowOutcome :=
  if length row =? expectedColumns then Kept row
  else if bool_decide (mode = PadWithEmpty) && (length row <? expectedColumns)
  then Changed (row ++ replicate (expectedColumns - length row) [])
  else if bool_decide (mode = DropRowMode) then Dropped
  else Changed (slice row 0 (Z.of_nat expectedColumns)).

(** The "all cells after the ID are blank" test of REMOVE_EMPTY_ROWS. *)
Definition allEmpty (row : Row) : bool :=
  let startCol := if 1 <? length row then 1%Z else 0%Z in
  let cellsToCheck := sliceFrom row startCol in
  forallb (λ cell, length (trim cell) =? 0) cellsToCheck.

(** The body of the loop of REMOVE_EMPTY_ROWS. *)
Definition removeEmptyRow (hasHeader : bool) (rowIndex : nat) (row : Row)
  : RowOutcome :=
  if hasHeader && (rowIndex =? 0) then Kept row
  else if allEmpty row then Dropped
  else Kept row.

(** [c < 0] for a number [c]. *)
Definition ltZero (c : JsNumber) : bool :=
  match c with
  | Infinity true | Finite true _ _ => true
  | _ => false
  end.

(** [c >= len] for a number [c] and an array length [len]. *)
Definition geLength (c : JsNumber) (len : nat) : bool :=
  match c with
  | NaN => false
  | Infinity neg => negb neg
  | Zero _ => len =? 0
  | Finite true _ _ => false
  | Finite false m e =>
      (if e <? 0 then Z.of_nat len * 2 ^ (- e) <=? Zpos m
       else Z.of_nat len <=? Zpos m * 2 ^ e)%Z
  end.

(** The array index a number denotes as a property key, if any: a
    non-negative integer ([-0] is [0]). *)
Definition arrayIndex (c : JsNumber) : option nat :=
  match c with
  | Zero _ => Some 0
  | Finite false m e =>
      if (e <? 0)%Z then
        if (Zpos m mod 2 ^ (- e) =? 0)%Z
        then Some (Z.to_nat (Zpos m / 2 ^ (- e))) else None
      else Some (Z.to_nat (Zpos m * 2 ^ e))
  | _ => None
  end.

(** [row[c]]: [None] stands for [undefined]. *)
Definition arrayGet (row : Row) (c : JsNumber) : option JsString :=
  k ← arrayIndex c; row !! k.

(** What COERCE_NUMERIC decides from the text of one cell. *)
Inductive CellVerdict :=
| Skip
| Rewrite (text : JsString)
| Splice.

(** The branch taken when the parse fails. *)
Definition onErrorVerdict (onError : CoerceOnError) : CellVerdict :=
  match onError with
  | DropRow => Splice
  | SetNull => Rewrite []
  | SetZero => Rewrite (lit "0")
  end.

Definition coerceCell (onError : CoerceOnError) (value : JsString)
  : CellVerdict :=
  let trimmed := trim value in
  if length trimmed =? 0 then Skip
  else
    let num := StringToNumber trimmed in
    if isNaN num then onErrorVerdict onError
    else if bool_decide (NumberToString num ≠ value)
    then Rewrite (NumberToString num)
    else Skip.

(** The body of the loop of COERCE_NUMERIC on the row at index [i]:
    [value.trim()] throws when [row[columnIndex]] is [undefined]. *)
Definition coerceRow (columnIndex : JsNumber) (onError : CoerceOnError)
  (row : Row) : Completion RowOutcome :=
  if ltZero columnIndex || geLength columnIndex (length row)
  then Normal (Kept row)
  else
    match arrayIndex columnIndex with
    | Some k =>
        match row !! k with
        | Some value =>
            match coerceCell onError value with
            | Skip => Normal (Kept row)
            | Rewrite text => Normal (Changed (<[k:=text]> row))
            | Splice => Normal Dropped
            end
        | None => Throw TypeError
        end
    | None => Throw TypeError
    end.

(** A value together with the equation that names it. *)
Definition inspect {A} (a : A) : {b : A | a = b} := exist _ a eq_refl.

(** The [for] loop of COERCE_NUMERIC over [newRows], from index [i]: a
    dropped row is spliced out and the index stays where it is.  The cell
    write [row[columnIndex] = ...] is rendered as the replacement of row
    [i], which is its effect on the table when no other row is the same
    array; [coerceLoopInPlace] below keeps the arrays apart from the
    table. *)
Equations? coerceLoop (columnIndex : JsNumber) (onError : CoerceOnError)
  (newRows : Table) (i changed dropped : nat)
  : Completion (Table * nat * nat) by wf (length newRows - i) lt :=
  coerceLoop columnIndex onError newRows i changed dropped
    with inspect (newRows !! i) := {
    | exist _ None Hend => Normal (newRows, changed, dropped)
    | exist _ (Some row) Hrow =>
        match coerceRow columnIndex onError row with
        | Throw err => Throw err
        | Normal (Kept _) =>
            coerceLoop columnIndex onError newRows (S i) changed dropped
        | Normal (Changed row') =>
            coerceLoop columnIndex onError (<[i:=row']> newRows) (S i)
              (S changed) dropped
        | Normal Dropped =>
            coerceLoop columnIndex onError (delete i newRows) i
              changed (S dropped)
        end }.
Proof.
  all: apply lookup_lt_Some in Hrow.
  - lia.
  - rewrite length_insert. lia.
  - rewrite length_delete by eauto using lookup_lt_is_Some_2. lia.
Qed.

(** The loop of ENSURE_EQUAL_COLUMNS once [expectedColumns] is known. *)
Definition ensureEqualColumns (mode : CleaningMode) (expectedColumns : nat)
  (st : ApplyActionsResult) : ApplyActionsResult :=
  let '(newRows, changed, dropped) :=
    collect (map (ensureRow mode expectedColumns) (rows st)) in
  mkResult newRows (rowsChanged st + changed) (rowsDropped st + dropped).

(** [hasHeader ? 1 : 0]: the index of the first data row. *)
Definition startIndexOf (hasHeader : bool) : nat :=
  if hasHeader then 1 else 0.

(** One turn of the loop over [actions]. *)
Definition applyAction (hasHeader : bool) (st : ApplyActionsResult)
  (action : CleaningAction) : Completion ApplyActionsResult :=
  match action with
  | TRIM_WHITESPACE =>
      let '(newRows, changedHere) := mapCells trimCell (rows st) in
      Normal (mkResult newRows (rowsChanged st + changedHere) (rowsDropped st))
  | STRIP_WRAPPING_QUOTES =>
      let '(newRows, changedHere) := mapCells stripCell (rows st) in
      Normal (mkResult newRows (rowsChanged st + changedHere) (rowsDropped st))
  | ENSURE_EQUAL_COLUMNS mode =>
      let expectedColumns := expectedColumnsOf (rows st) in
      Normal (ensureEqualColumns mode expectedColumns st)
  | REMOVE_EMPTY_ROWS =>
      let '(newRows, _, dropped) :=
        collect (imap (removeEmptyRow hasHeader) (rows st)) in
      Normal (mkResult newRows (rowsChanged st) (rowsDropped st + dropped))
  | COERCE_NUMERIC columnIndex onError =>
      let startIndex := startIndexOf hasHeader in
      '(newRows, changed, dropped) ←
        coerceLoop columnIndex onError (rows st) startIndex
          (rowsChanged st) (rowsDropped st);
      Normal (mkResult newRows changed dropped)
  end.

Fixpoint applyLoop (hasHeader : bool) (st : ApplyActionsResult)
  (actions : list CleaningAction) : Completion ApplyActionsResult :=
  match actions with
  | [] => Normal st
  | action :: rest =>
      st' ← applyAction hasHeader st action;
      applyLoop hasHeader st' rest
  end.

Definition applyActions (rows : Table) (actions : list CleaningAction)
  (hasHeader : bool) : Completion ApplyActionsResult :=
  applyLoop hasHeader (mkResult rows 0 0) actions.

(** ** [CsvService] *)

(** [preCleanActions] of [cleanCsv]. *)
Definition preCleanActions : list CleaningAction :=
  [STRIP_WRAPPING_QUOTES; TRIM_WHITESPACE; REMOVE_EMPTY_ROWS;
   ENSURE_EQUAL_COLUMNS PadWithEmpty].

(** The action objects [analyzeCsv] returns ([AnalyzeCsvAction]). *)
Record AnalyzeCsvAction := mkAnalyzeCsvAction {
  action_type : JsString;
  action_columnIndex : option JsNumber
}.

(** The callback of [parsed.actions.map] in [analyzeCsv]: the type is kept
    when it is a string, and the column index is read under the snake_case
    spelling first, then under the camelCase one. *)
Definition analyzeAction (a : JsValue) : Completion AnalyzeCsvAction :=
  ty ← getProp a "type";
  let type :=
    match ty with
    | JStr s => s
    | JNum x => NumberToString x
    | JBool b => if b then lit "true" else lit "false"
    | _ => lit "unknown"
    end in
  snake ← getProp a "column_index";
  match snake with
  | JNum x => Normal (mkAnalyzeCsvAction type (Some x))
  | _ =>
      camel ← getProp a "columnIndex";
      match camel with
      | JNum x => Normal (mkAnalyzeCsvAction type (Some x))
      | _ => Normal (mkAnalyzeCsvAction type None)
      end
  end.

(** An [AnalyzeCsvAction] seen as a value of type [unknown], as [cleanCsv]
    hands [plan.actions] to [mapToCleaningActions]. *)
Definition actionValue (a : AnalyzeCsvAction) : JsValue :=
  JObject
    [(lit "type", JStr (action_type a));
     (lit "columnIndex",
      match action_columnIndex a with
      | Some x => JNum x
      | None => JUndefined
      end)].

(** Steps 3 to 5 of [cleanCsv] on the advisor's raw actions: [analyzeCsv]
    maps each of them to an [AnalyzeCsvAction], and [mapToCleaningActions]
    reads the resulting [plan.actions]. *)
Definition planCleaningActions (rawActions : list JsValue)
  : Completion (list CleaningAction) :=
  plan ← mapM analyzeAction rawActions;
  mapToCleaningActions (actionValue <$> plan).

(** The value is [null] or [undefined]. *)
Definition isNullish (v : JsValue) : bool :=
  match v with
  | JUndefined | JNull => true
  | _ => false
  end.

(** ** COERCE_NUMERIC on the store of row arrays

    The loop as it runs on the heap: [store] holds the row arrays, [newRows]
    is the array of references to them, a cell is written in place
    ([row[columnIndex] = ...]) and a dropped row is spliced out of
    [newRows] only. *)

Equations? coerceLoopInPlace (columnIndex : JsNumber) (onError : CoerceOnError)
  (store : list Row) (newRows : list nat) (i changed dropped : nat)
  : Completion (list Row * list nat * nat * nat)
  by wf (length newRows - i) lt :=
  coerceLoopInPlace columnIndex onError store newRows i changed dropped
    with inspect (newRows !! i) := {
    | exist _ None Hend => Normal (store, newRows, changed, dropped)
    | exist _ (Some ref) Href =>
        match store !! ref with
        | None => Throw TypeError
        | Some row =>
            match coerceRow columnIndex onError row with
            | Throw err => Throw err
            | Normal (Kept _) =>
                coerceLoopInPlace columnIndex onError store newRows (S i)
                  changed dropped
            | Normal (Changed row') =>
                coerceLoopInPlace columnIndex onError (<[ref:=row']> store)
                  newRows (S i) (S changed) dropped
            | Normal Dropped =>
                coerceLoopInPlace columnIndex onError store (delete i newRows)
                  i changed (S dropped)
            end
        end }.
Proof.
  all: apply lookup_lt_Some in Href.
  - lia.
  - lia.
  - rewrite length_delete by eauto using lookup_lt_is_Some_2. lia.
Qed.

(** The table an array of references stands for. *)
Definition denotes (store : list Row) (refs : list nat) (t : Table) : Prop :=
  Forall2 (λ ref row, store !! ref = Some row) refs t.

(** The COERCE_NUMERIC case of [applyActions] on the heap: [workingRows] is
    the array of references to the row arrays held in [store], [newRows] a
    copy of it, and the loop runs from the data-start index. *)
Definition coerceNumericInPlace (hasHeader : bool) (store : list Row)
  (workingRows : list nat) (changed dropped : nat)
  (columnIndex : JsNumber) (onError : CoerceOnError)
  : Completion (list Row * list nat * nat * nat) :=
  let startIndex := startIndexOf hasHeader in
  let newRows := workingRows in
  coerceLoopInPlace columnIndex onError store newRows startIndex
    changed dropped.

(** ** [CsvEngineService.parseCsv] and [serializeCsv] *)

(** The text [s] begins with the text [p]. *)
Fixpoint isPrefix (p s : JsString) : bool :=
  match p, s with
  | [], _ => true
  | _ :: _, [] => false
  | c :: p', d :: s' => (c =? d)%N && isPrefix p' s'
  end.

(** [s.indexOf(sep)]: the first position at which [sep] occurs in [s];
    [None] stands for -1. *)
Fixpoint indexOf (sep s : JsString) : option nat :=
  if isPrefix sep s then Some 0
  else
    match s with
    | [] => None
    | _ :: s' => S <$> indexOf sep s'
    end.

(** [s.split(sep)] for a separator [c :: sep'] that is not empty: the text
    is cut at the first occurrence of the separator, and the search goes on
    after it. *)
Equations? splitNonEmpty (c : N) (sep' : JsString) (s : JsString)
  : list JsString by wf (length s) lt :=
  splitNonEmpty c sep' s with inspect (indexOf (c :: sep') s) := {
    | exist _ None Hnone => [s]
    | exist _ (Some j) Hfound =>
        take j s :: splitNonEmpty c sep' (drop (j + S (length sep')) s) }.
Proof.
  destruct s as [|d s]; [discriminate|].
  rewrite length_drop. simpl. lia.
Qed.

(** [s.split(sep)] with a string separator: the empty separator cuts the
    text into its code units. *)
Definition splitBy (s sep : JsString) : list JsString :=
  match sep with
  | [] => (λ c, [c]) <$> s
  | c :: sep' => splitNonEmpty c sep' s
  end.

Definition parseCsv (csv delimiter : JsString) : Table :=
  let lines := filter (λ line, 0 < length line) (splitLines csv) in
  map (λ line, splitBy line delimiter) lines.

Definition serializeCsv (rows : Table) (delimiter : JsString) : JsString :=
  join [Ch.LF] (map (λ row, join delimiter row) rows).

(** ** [CsvService]: reading the advisor's reply *)

(** What a method of the service throws: a [BadRequestException] with its
    message, an error raised by the code of the service itself, or the
    error with which the call to the advisor failed. *)
Inductive Exception :=
| BadRequestException (message : string)
| Thrown (err : JsError)
| AgentError.

(** The outcome of a method of the service. *)
Inductive ServiceResult (A : Type) :=
| Returned (a : A)
| Raised (e : Exception).
Arguments Returned {A} a.
Arguments Raised {A} e.

Global Instance ServiceResult_ret : MRet ServiceResult := λ A a, Returned a.
Global Instance ServiceResult_bind : MBind ServiceResult := λ A B k r,
  match r with
  | Returned a => k a
  | Raised e => Raised e
  end.

(** A completion of engine code seen from the service: a TypeError is not
    caught. *)
Definition uncaught {A} (c : Completion A) : ServiceResult A :=
  match c with
  | Normal a => Returned a
  | Throw err => Raised (Thrown err)
  end.

Definition openBrace : N := 123.
Definition closeBrace : N := 125.

(** [s.lastIndexOf(sep)]: the last position at which [sep] occurs in [s];
    [None] stands for -1. *)
Fixpoint lastIndexOf (sep s : JsString) : option nat :=
  match s with
  | [] => if isPrefix sep [] then Some 0 else None
  | _ :: s' =>
      match lastIndexOf sep s' with
      | Some j => Some (S j)
      | None => if isPrefix sep s then Some 0 else None
      end
  end.

(** [CsvService.extractJsonBlock]. *)
Definition extractJsonBlock (raw : JsString) : ServiceResult JsString :=
  let trimmed := trim raw in
  if startsWith trimmed openBrace && endsWith trimmed closeBrace
  then Returned trimmed
  else
    let firstBrace := indexOf [openBrace] raw in
    let lastBrace := lastIndexOf [closeBrace] raw in
    match firstBrace, lastBrace with
    | Some first, Some last =>
        if last <=? first then
          Raised (BadRequestException
                    "AI response does not contain a JSON object.")
        else
          let jsonCandidate :=
            trim (slice raw (Z.of_nat first) (Z.of_nat last + 1)) in
          Returned jsonCandidate
    | _, _ =>
        Raised (BadRequestException
                  "AI response does not contain a JSON object.")
    end.

(** [jsonString.replace(/\\'/g, "'")]: every backslash (92) followed by an
    apostrophe (39) is replaced by the apostrophe, from left to right. *)
Fixpoint unescapeApostrophes (s : JsString) : JsString :=
  match s with
  | [] => []
  | c :: rest =>
      match rest with
      | d :: rest' =>
          if ((c =? 92) && (d =? 39))%N then d :: unescapeApostrophes rest'
          else c :: unescapeApostrophes rest
      | [] => [c]
      end
  end.

(** The result of [typeof]. *)
Inductive JsType :=
| TypeUndefined
| TypeObject
| TypeBoolean
| TypeNumber
| TypeString.

Global Instance JsType_eq_dec : EqDecision JsType.
Proof. solve_decision. Defined.

Definition typeOf (v : JsValue) : JsType :=
  match v with
  | JUndefined => TypeUndefined
  | JNull => TypeObject
  | JBool _ => TypeBoolean
  | JNum _ => TypeNumber
  | JStr _ => TypeString
  | JArray _ | JObject _ => TypeObject
  end.

Definition isArray (v : JsValue) : bool :=
  match v with
  | JArray _ => true
  | _ => false
  end.

(** The property read [obj.key] on a value that is neither [null] nor
    [undefined], for the keys [explanation], [issues] and [actions]: only
    an object can have them. *)
Definition field (obj : JsValue) (key : string) : JsValue :=
  match obj with
  | JObject props => assoc (lit key) props
  | _ => JUndefined
  end.

(** [CsvService.isValidAiResponse]. *)
Definition isValidAiResponse (value : JsValue) : bool :=
  if negb (bool_decide (typeOf value = TypeObject)) || isNullish value
  then false
  else if negb (bool_decide (typeOf (field value "explanation") = TypeString))
  then false
  else if negb (isArray (field value "issues")) then false
  else if negb (isArray (field value "actions")) then false
  else true.

(** An object has an own property of this name. *)
Definition hasOwn (key : JsString) (props : list (JsString * JsValue)) : bool :=
  existsb (λ p, bool_decide (p.1 = key)) props.

(** [String(v)].  An array is the comma-separated list of its elements,
    [null] and [undefined] counting as empty.  An object is
    [[object Object]], unless it has an own property [toString]: a value
    read by [JSON.parse] is never a function, so the conversion finds no
    method that yields a primitive and throws. *)
Fixpoint ToString (v : JsValue) : Completion JsString :=
  match v with
  | JUndefined => Normal (lit "undefined")
  | JNull => Normal (lit "null")
  | JBool b => Normal (if b then lit "true" else lit "false")
  | JNum x => Normal (NumberToString x)
  | JStr s => Normal s
  | JArray items =>
      parts ←
        (fix elements (items : list JsValue) : Completion (list JsString) :=
           match items with
           | [] => Normal []
           | item :: rest =>
               part ← match item with
                      | JUndefined | JNull => Normal []
                      | _ => ToString item
                      end;
               parts ← elements rest;
               Normal (part :: parts)
           end) items;
      Normal (join [Ch.COMMA] parts)
  | JObject props =>
      if hasOwn (lit "toString") props then Throw TypeError
      else Normal (lit "[object Object]")
  end.

(** The elements of [v] as [v.map] walks them; calling [map] on a value
    that is not an array throws. *)
Definition elementsOf (v : JsValue) : Completion (list JsValue) :=
  match v with
  | JArray items => Normal items
  | _ => Throw TypeError
  end.

Record AnalyzeCsvDto := mkAnalyzeCsvDto {
  analyze_csvSample : JsString;
  analyze_delimiter : option JsString;
  analyze_hasHeader : option bool
}.

(** [AnalyzeCsvResponse].  The explanation is the value read from the
    reply, which the type guard has shown to be a string. *)
Record AnalyzeCsvResponse := mkAnalyzeCsvResponse {
  response_explanation : JsValue;
  response_issues : list JsString;
  response_actions : list AnalyzeCsvAction
}.

Record AiReview := mkAiReview {
  review_explanation : JsValue;
  review_issues : list JsString;
  review_actions : list AnalyzeCsvAction
}.

Record CleanStats := mkCleanStats {
  stats_rowsBefore : nat;
  stats_rowsAfter : nat;
  stats_columns : nat;
  stats_rowsChanged : nat;
  stats_rowsDropped : nat
}.

Record CleanCsvResponse := mkCleanCsvResponse {
  aiReview : AiReview;
  stats : CleanStats;
  cleanedCsv : JsString
}.

Record CleanCsvDto := mkCleanCsvDto {
  clean_csv : JsString;
  clean_delimiter : option JsString;
  clean_hasHeader : option bool
}.

Section CsvService.

(** The call [aiService.analyzeCsvPrompt(dto)]: the text of the reply, or
    the error it throws. *)
Variable analyzeCsvPrompt : AnalyzeCsvDto → ServiceResult JsString.

(** [JSON.parse]: [None] when it throws a SyntaxError. *)
Variable JSON_parse : JsString → option JsValue.

(** [CsvService.analyzeCsv]. *)
Definition analyzeCsv (dto : AnalyzeCsvDto) : ServiceResult AnalyzeCsvResponse :=
  raw ← analyzeCsvPrompt dto;
  jsonString ← extractJsonBlock raw;
  let sanitizedJsonString := unescapeApostrophes jsonString in
  match JSON_parse sanitizedJsonString with
  | None =>
      Raised (BadRequestException
                "AI did not return valid JSON. Try again or adjust the prompt.")
  | Some parsed =>
      if negb (isValidAiResponse parsed) then
        Raised (BadRequestException
                  "AI response missing required fields (explanation, issues, actions).")
      else
        rawIssues ← uncaught (elementsOf (field parsed "issues"));
        issues ← uncaught (mapM ToString rawIssues);
        rawActions ← uncaught (elementsOf (field parsed "actions"));
        actions ← uncaught (mapM analyzeAction rawActions);
        Returned (mkAnalyzeCsvResponse (field parsed "explanation")
                    issues actions)
  end.

(** [CsvService.cleanCsv]. *)
Definition cleanCsv (dto : CleanCsvDto) : ServiceResult CleanCsvResponse :=
  let delimiter := default [Ch.COMMA] (clean_delimiter dto) in
  let hasHeader := default true (clean_hasHeader dto) in
  let originalRows := parseCsv (clean_csv dto) delimiter in
  let rowsBefore := length originalRows in
  let columns :=
    match originalRows with
    | row0 :: _ => length row0
    | [] => 0
    end in
  pre ← uncaught (applyActions originalRows preCleanActions hasHeader);
  let preCleanedCsv := serializeCsv (rows pre) delimiter in
  let sample := buildSample preCleanedCsv defaultMaxLines in
  let analyzeDto := mkAnalyzeCsvDto sample (Some delimiter) (Some hasHeader) in
  plan ← analyzeCsv analyzeDto;
  let aiReview :=
    mkAiReview (response_explanation plan) (response_issues plan)
      (response_actions plan) in
  aiCleaningActions ←
    uncaught (mapToCleaningActions (actionValue <$> response_actions plan));
  ai ← uncaught (applyActions (rows pre) aiCleaningActions hasHeader);
  let rowsAfter := length (rows ai) in
  let stats :=
    mkCleanStats rowsBefore rowsAfter columns
      (rowsChanged pre + rowsChanged ai) (rowsDropped pre + rowsDropped ai) in
  let cleanedCsv := serializeCsv (rows ai) delimiter in
  Returned (mkCleanCsvResponse aiReview stats cleanedCsv).

End CsvService.

(** ** Stand-ins for the advisor and for [JSON.parse]

    Used where a property of [analyzeCsv] or [cleanCsv] is instantiated: an
    advisor that gives the same reply to every request, and a parse result
    fixed in advance. *)

Definition fixedReply (raw : JsString)
  : AnalyzeCsvDto → ServiceResult JsString :=
  λ _, Returned raw.

Definition fixedParse (parsed : JsValue) : JsString → option JsValue :=
  λ _, Some parsed.

(** The object
    [{explanation: 'ok', issues: ['age'], actions: [{type:
    'COERCE_NUMERIC', column_index: 1}]}]. *)
Definition sampleReply : JsValue :=
  JObject
    [(lit "explanation", JStr (lit "ok"));
     (lit "issues", JArray [JStr (lit "age")]);
     (lit "actions",
      JArray [JObject [(lit "type", JStr (lit "COERCE_NUMERIC"));
                       (lit "column_index", JNum (Finite false 1 0))]])].

(** The same reply with [null] for its only action. *)
Definition sampleReplyNull : JsValue :=
  JObject
    [(lit "explanation", JStr (lit "ok"));
     (lit "issues", JArray []);
     (lit "actions", JArray [JNull])].

(** The request [{csv: 'id,age\n1, 7\n2,n/a\n3,,'}]. *)
Definition sampleDto : CleanCsvDto :=
  mkCleanCsvDto
    (lit "id,age" ++ [Ch.LF] ++ lit "1, 7" ++ [Ch.LF] ++ lit "2,n/a"
     ++ [Ch.LF] ++ lit "3,,")
    None None.

(** ** Predicates used in the statements *)

(** The text has a carriage return right before a line feed. *)
Fixpoint hasCRLF (s : JsString) : bool :=
  match s with
  | c :: rest =>
      match rest with
      | d :: _ => ((c =? Ch.CR) && (d =? Ch.LF))%N || hasCRLF rest
      | [] => false
      end
  | [] => false
  end.

(** How one row is fitted to [n] columns by padding or truncation. *)
Definition fitRow (n : nat) (row : Row) : Row :=
  if length row <? n then row ++ replicate (n - length row) []
  else take n row.

(** The text is empty or begins with a character that is not white space. *)
Definition startsClean (s : JsString) : Prop :=
  match s with
  | [] => True
  | c :: _ => isWhiteSpace c = false
  end.

(** The characters that occur in the text [String(x)] of a number. *)
Definition isNumberChar (c : N) : bool :=
  isDigit c || existsb (N.eqb c) (lit "+-.eNaInfity").

(** The text is empty or begins with a character that is not a digit. *)
Definition startsNoDigit (s : JsString) : Prop :=
  match s with
  | [] => True
  | c :: _ => isDigit c = false
  end.

(** An ExponentPart as [String(x)] writes it, or nothing. *)
Definition writtenExponent (ex : JsString) : Prop :=
  ex = [] ∨
  ∃ signCh exDigits,
    ex = 101%N :: signCh :: exDigits
    ∧ (signCh = 43%N ∨ signCh = 45%N)
    ∧ exDigits ≠ [] ∧ Forall (λ c, isDigit c = true) exDigits.

(** The text begins with a digit. *)
Definition startsWithDigit (s : JsString) : Prop :=
  match s with
  | [] => False
  | c :: _ => isDigit c = true
  end.

(** The test that sends a cell of the target column to the [onError]
    branch of COERCE_NUMERIC: its trimmed text is not empty and is not read
    as a number. *)
Definition nonEmptyNonNumeric (value : JsString) : bool :=
  let trimmed := trim value in
  negb (length trimmed =? 0) && isNaN (StringToNumber trimmed).

(** What an action does to the cells of the header row. *)
Definition headerEdit (row : Row) (action : CleaningAction) : Row :=
  match action with
  | TRIM_WHITESPACE => (λ cell, (trimCell cell).1) <$> row
  | STRIP_WRAPPING_QUOTES => (λ cell, (stripCell cell).1) <$> row
  | _ => row
  end.

(** The characters that occur in the texts [Number] reads as numbers:
    digits, signs, the point, the exponent letters, the letters of
    [Infinity], the radix prefixes and the hexadecimal digits. *)
Definition isLiteralChar (c : N) : bool :=
  isDigit c || existsb (N.eqb c) (lit "+-.eEInfityxXoObBabcdfACDF").

(** The first three steps of a pre-clean pass find nothing to do on the
    table: STRIP_WRAPPING_QUOTES counts no cell, and REMOVE_EMPTY_ROWS drops
    no row. *)
Definition findsNothing (hasHeader : bool) (t : Table) : bool :=
  forallb (forallb (λ cell, negb (stripCell cell).2)) t
  && forallb (λ o, match o with
                   | Dropped => false
                   | _ => true
                   end) (imap (removeEmptyRow hasHeader) t).

(** A cell is blank: each of its characters is white space. *)
Definition isBlank (cell : JsString) : bool := forallb isWhiteSpace cell.

(** A data row counts as empty: it has no cell, or its only cell is blank,
    or all its cells after the first are blank. *)
Definition emptyDataRow (row : Row) : bool :=
  match row with
  | [] => true
  | [cell] => isBlank cell
  | _ :: others => forallb isBlank others
  end.

(** A cell is wrapped in double quotes: leading and trailing white space
    apart, its text begins with one double quote and ends with another. *)
Definition wrappedInQuotes (cell : JsString) : bool :=
  match trim cell with
  | first :: rest =>
      match rev rest with
      | last :: _ => (first =? Ch.DQUOTE)%N && (last =? Ch.DQUOTE)%N
      | [] => false
      end
  | [] => false
  end.

(** The data rows of a table: all of them, but for the header row when
    there is one. *)
Definition dataRows (hasHeader : bool) (t : Table) : Table :=
  if hasHeader then drop 1 t else t.

(** A settled table: no cell is wrapped in double quotes, and no data row
    counts as empty. *)
Definition settled (hasHeader : bool) (t : Table) : bool :=
  forallb (forallb (λ cell, negb (wrappedInQuotes cell))) t
  && forallb (λ row, negb (emptyDataRow row)) (dataRows hasHeader t).

(** A state with the counters of an earlier pass added to its own. *)
Definition addCounters (changed dropped : nat) (st : ApplyActionsResult)
  : ApplyActionsResult :=
  mkResult (rows st) (changed + rowsChanged st) (dropped + rowsDropped st).

(** *** The StrNumericLiteral grammar of ECMAScript

    The texts that [Number] reads as numbers, production by production.
    Code units: 43 [+], 45 [-], 46 [.], 48 [0], 69 [E], 101 [e], 120 [x],
    88 [X], 111 [o], 79 [O], 98 [b], 66 [B]. *)

(** DecimalDigits: one decimal digit or more. *)
Definition DecimalDigits (ds : JsString) : Prop :=
  ds ≠ [] ∧ Forall (λ c, isDigit c = true) ds.

(** SignedInteger: decimal digits after an optional sign. *)
Inductive SignedInteger : JsString → Prop :=
| SignedInteger_plain (ds : JsString) :
    DecimalDigits ds → SignedInteger ds
| SignedInteger_plus (ds : JsString) :
    DecimalDigits ds → SignedInteger (43%N :: ds)
| SignedInteger_minus (ds : JsString) :
    DecimalDigits ds → SignedInteger (45%N :: ds).

(** ExponentPart (opt): nothing, or [e] or [E] before a signed integer. *)
Inductive ExponentPartOpt : JsString → Prop :=
| ExponentPart_none : ExponentPartOpt []
| ExponentPart_lower (s : JsString) :
    SignedInteger s → ExponentPartOpt (101%N :: s)
| ExponentPart_upper (s : JsString) :
    SignedInteger s → ExponentPartOpt (69%N :: s).

(** StrUnsignedDecimalLiteral: [Infinity]; digits, a point, digits (opt)
    and an exponent (opt); a point, digits and an exponent (opt); digits
    and an exponent (opt). *)
Inductive StrUnsignedDecimalLiteral : JsString → Prop :=
| Unsigned_Infinity : StrUnsignedDecimalLiteral (lit "Infinity")
| Unsigned_point (ip fp ex : JsString) :
    DecimalDigits ip → Forall (λ c, isDigit c = true) fp →
    ExponentPartOpt ex →
    StrUnsignedDecimalLiteral (ip ++ 46%N :: fp ++ ex)
| Unsigned_fraction (fp ex : JsString) :
    DecimalDigits fp → ExponentPartOpt ex →
    StrUnsignedDecimalLiteral (46%N :: fp ++ ex)
| Unsigned_integer (ip ex : JsString) :
    DecimalDigits ip → ExponentPartOpt ex →
    StrUnsignedDecimalLiteral (ip ++ ex).

(** StrDecimalLiteral: an unsigned decimal literal after an optional
    sign. *)
Inductive StrDecimalLiteral : JsString → Prop :=
| Decimal_plain (u : JsString) :
    StrUnsignedDecimalLiteral u → StrDecimalLiteral u
| Decimal_plus (u : JsString) :
    StrUnsignedDecimalLiteral u → StrDecimalLiteral (43%N :: u)
| Decimal_minus (u : JsString) :
    StrUnsignedDecimalLiteral u → StrDecimalLiteral (45%N :: u).

(** HexDigit: [0-9], [a-f], [A-F]. *)
Definition isHexDigit (c : N) : bool :=
  (((48 <=? c) && (c <=? 57)) || ((97 <=? c) && (c <=? 102))
   || ((65 <=? c) && (c <=? 70)))%N.

(** OctalDigit: [0-7]. *)
Definition isOctalDigit (c : N) : bool := ((48 <=? c) && (c <=? 55))%N.

(** BinaryDigit: [0] and [1]. *)
Definition isBinaryDigit (c : N) : bool := ((c =? 48) || (c =? 49))%N.

(** NonDecimalIntegerLiteral: [0x] or [0X] and hexadecimal digits, [0o] or
    [0O] and octal digits, [0b] or [0B] and binary digits; no sign. *)
Inductive NonDecimalIntegerLiteral : JsString → Prop :=
| NonDecimal_hex (x : N) (ds : JsString) :
    x = 120%N ∨ x = 88%N → ds ≠ [] →
    Forall (λ c, isHexDigit c = true) ds →
    NonDecimalIntegerLiteral (48%N :: x :: ds)
| NonDecimal_octal (x : N) (ds : JsString) :
    x = 111%N ∨ x = 79%N → ds ≠ [] →
    Forall (λ c, isOctalDigit c = true) ds →
    NonDecimalIntegerLiteral (48%N :: x :: ds)
| NonDecimal_binary (x : N) (ds : JsString) :
    x = 98%N ∨ x = 66%N → ds ≠ [] →
    Forall (λ c, isBinaryDigit c = true) ds →
    NonDecimalIntegerLiteral (48%N :: x :: ds).

(** StrNumericLiteral. *)
Definition StrNumericLiteral (s : JsString) : Prop :=
  StrDecimalLiteral s ∨ NonDecimalIntegerLiteral s.

(* ================================================================= *)
(** * Properties *)

(** ** Lists, slices and outcomes *)

Lemma slice_0_take {A} (l : list A) (n : nat) :
  slice l 0 (Z.of_nat n) = take n l.
Proof.
  unfold slice, relIndex. simpl.
  destruct (Z.ltb_spec (Z.of_nat n) 0) as [H|H]; [lia|].
  rewrite Nat2Z.id, Nat.sub_0_r, drop_0.
  destruct (Nat.le_gt_cases n (length l)) as [Hle|Hgt].
  - by rewrite Nat.min_l.
  - rewrite Nat.min_r by lia. rewrite !take_ge; [done|lia..].
Qed.

Lemma ensureRow_pad (n : nat) (row : Row) :
  ensureRow PadWithEmpty n row =
    if length row =? n then Kept row else Changed (fitRow n row).
Proof.
  unfold ensureRow, fitRow.
  destruct (length row =? n); [done|].
  simpl. destruct (length row <? n); [done|].
  by rewrite slice_0_take.
Qed.

Lemma fitRow_length (n : nat) (row : Row) : length (fitRow n row) = n.
Proof.
  unfold fitRow. destruct (Nat.ltb_spec (length row) n).
  - rewrite length_app, length_replicate. lia.
  - rewrite length_take. lia.
Qed.

Lemma fitRow_same (n : nat) (row : Row) : length row = n → fitRow n row = row.
Proof.
  intros <-. unfold fitRow. rewrite Nat.ltb_irrefl. by rewrite firstn_all.
Qed.

Lemma collect_ensure_pad_rows (n : nat) (t : Table) :
  (collect (map (ensureRow PadWithEmpty n) t)).1.1 = map (fitRow n) t.
Proof.
  induction t as [|row t IH]; [done|].
  simpl. destruct (collect _) as [[newRows changed] dropped]. simpl in *.
  rewrite ensureRow_pad.
  destruct (Nat.eqb_spec (length row) n) as [Heq|Hne]; simpl.
  - by rewrite fitRow_same, IH.
  - by rewrite IH.
Qed.

(** What the loop of ENSURE_EQUAL_COLUMNS collects in mode pad-with-empty:
    every row fitted, one change counted per row that did not fit, and no
    row dropped. *)
Lemma collect_ensure_pad (n : nat) (t : Table) :
  collect (map (ensureRow PadWithEmpty n) t)
  = (map (fitRow n) t, length (filter (λ row, length row ≠ n) t), 0).
Proof.
  induction t as [|row t IH]; [done|].
  cbn [map collect]. rewrite IH, ensureRow_pad, filter_cons.
  destruct (Nat.eqb_spec (length row) n) as [Heq|Hne].
  - rewrite decide_False by (by intros ?). by rewrite fitRow_same.
  - by rewrite decide_True.
Qed.

(** In mode drop-row the loop keeps the rows of the expected length. *)
Lemma collect_ensure_drop (n : nat) (t : Table) :
  collect (map (ensureRow DropRowMode n) t)
  = (filter (λ row, length row = n) t, 0,
     length (filter (λ row, length row ≠ n) t)).
Proof.
  induction t as [|row t IH]; [done|].
  cbn [map collect]. rewrite IH, !filter_cons. unfold ensureRow.
  destruct (Nat.eqb_spec (length row) n) as [Heq|Hne].
  - rewrite decide_True by done. by rewrite decide_False by (by intros ?).
  - rewrite decide_False by done. by rewrite decide_True.
Qed.

(** C7: right after ENSURE_EQUAL_COLUMNS in mode pad-with-empty, the action
    has returned and every row of the new table has as many cells as the
    first row of the table (the header row, when there is one) had when the
    action started: row by row, a row of that length is kept as it is, a
    shorter one has empty cells appended, a longer one is cut.  No row is
    dropped, and one change is counted per row that was not of that
    length.  On the table without rows the action does nothing. *)
Theorem ensure_pad_equal_columns (hasHeader : bool) (st : ApplyActionsResult) :
  (rows st = [] →
   applyAction hasHeader st (ENSURE_EQUAL_COLUMNS PadWithEmpty) = Normal st)
  ∧ ∀ header rest,
      rows st = header :: rest →
      ∃ st',
        applyAction hasHeader st (ENSURE_EQUAL_COLUMNS PadWithEmpty)
        = Normal st'
        ∧ Forall (λ row, length row = length header) (rows st')
        ∧ Forall2
            (λ row row',
               (length row = length header → row' = row)
               ∧ (length row < length header →
                  row' = row ++ replicate (length header - length row) [])
               ∧ (length header < length row → row' = take (length header) row))
            (rows st) (rows st')
        ∧ rowsDropped st' = rowsDropped st
        ∧ rowsChanged st'
          = rowsChanged st
            + length (filter (λ row, length row ≠ length header) (rows st)).
Proof.
  unfold applyAction, ensureEqualColumns. rewrite collect_ensure_pad. split.
  - intros Hrows. rewrite Hrows. cbn. rewrite !Nat.add_0_r.
    destruct st as [t ch dr]. simpl in Hrows. by subst t.
  - intros header rest Hrows.
    assert (expectedColumnsOf (rows st) = length header) as Hcount
      by by rewrite Hrows.
    rewrite Hcount. eexists. split; [done|].
    cbn [rows rowsChanged rowsDropped]. split_and!.
    + apply Forall_fmap, Forall_true. intros row. apply fitRow_length.
    + apply Forall2_fmap_r, Forall_Forall2_diag, Forall_true.
      intros row. unfold fitRow. repeat split; intros H.
      * rewrite <- H, Nat.ltb_irrefl. by rewrite firstn_all.
      * by apply Nat.ltb_lt in H as ->.
      * destruct (Nat.ltb_spec (length row) (length header)); [lia|done].
    + lia.
    + done.
Qed.

Lemma ensure_pad_equal_columns_witness :
  let st := mkResult [[lit "id"; lit "name"]; [lit "1"];
                      [lit "2"; lit "Bo"; lit "x"]] 0 0 in
  ∃ st',
    applyAction false st (ENSURE_EQUAL_COLUMNS PadWithEmpty) = Normal st'
    ∧ Forall (λ row, length row = 2) (rows st')
    ∧ rows st' = [[lit "id"; lit "name"]; [lit "1"; []]; [lit "2"; lit "Bo"]]
    ∧ rowsChanged st' = 2.
Proof.
  intros st.
  destruct (proj2 (ensure_pad_equal_columns false st)
              [lit "id"; lit "name"]
              [[lit "1"]; [lit "2"; lit "Bo"; lit "x"]] eq_refl)
    as (st' & Hrun & Hlen & _ & _ & Hchanged).
  exists st'. split; [exact Hrun|]. split; [exact Hlen|].
  assert (st' = mkResult [[lit "id"; lit "name"]; [lit "1"; []];
                          [lit "2"; lit "Bo"]] 2 0) as ->.
  { assert (applyAction false st (ENSURE_EQUAL_COLUMNS PadWithEmpty)
            = Normal (mkResult [[lit "id"; lit "name"]; [lit "1"; []];
                                [lit "2"; lit "Bo"]] 2 0)) as Hrun'
      by (vm_compute; reflexivity).
    congruence. }
  split; reflexivity.
Defined.


(** ** Lines and samples *)

Lemma splitLines_nonempty (s : JsString) : splitLines s ≠ [].
Proof.
  destruct s as [|c rest]; simpl; [done|].
  destruct (c =? Ch.LF)%N; [done|].
  destruct rest as [|d rest']; [done|].
  destruct ((c =? Ch.CR) && (d =? Ch.LF))%N; [done|].
  by destruct (splitLines (d :: rest')).
Qed.

Lemma join_cons_head (sep : JsString) (c : N) (l : JsString)
  (ls : list JsString) :
  join sep ((c :: l) :: ls) = c :: join sep (l :: ls).
Proof. by destruct ls. Qed.

(** Joining the lines with a line feed gives the text back when no line
    ended in a carriage return and a line feed. *)
Lemma join_splitLines (s : JsString) :
  hasCRLF s = false → join [Ch.LF] (splitLines s) = s.
Proof.
  induction s as [|c rest IH]; [done|].
  intros Hcrlf. simpl.
  destruct (N.eqb_spec c Ch.LF) as [->|Hlf].
  - assert (hasCRLF rest = false) as Hrest.
    { destruct rest; [done|]. cbn [hasCRLF] in Hcrlf.
      by apply orb_false_elim in Hcrlf as [_ ?]. }
    pose proof (splitLines_nonempty rest).
    destruct (splitLines rest) as [|l ls] eqn:Hsplit; [done|].
    simpl. f_equal. by apply IH.
  - destruct rest as [|d rest']; [done|].
    cbn [hasCRLF] in Hcrlf. apply orb_false_elim in Hcrlf as [Hhere Hrest].
    rewrite Hhere.
    pose proof (splitLines_nonempty (d :: rest')).
    destruct (splitLines (d :: rest')) as [|l ls] eqn:Hsplit; [done|].
    rewrite join_cons_head. f_equal. by apply IH.
Qed.

Lemma buildSample_take (csv : JsString) (maxLines : nat) :
  buildSample csv (Z.of_nat maxLines)
  = join [Ch.LF] (take maxLines (splitLines csv)).
Proof. unfold buildSample. by rewrite slice_0_take. Qed.

(** C9, as the specification states it, fails: a two-line text whose first
    line ends in CR LF has at most 50 lines, yet [buildSample] does not
    return it unchanged (the line ending comes back as a single LF). *)
Lemma buildSample_changes_crlf :
  let text := lit "a" ++ [Ch.CR; Ch.LF] ++ lit "b" in
  length (splitLines text) ≤ 50
  ∧ buildSample text defaultMaxLines = lit "a" ++ [Ch.LF] ++ lit "b"
  ∧ buildSample text defaultMaxLines ≠ text.
Proof. vm_compute. split; [lia|]. split; [done|]. discriminate. Qed.

(** C9, amended: with [maxLines = 50], [buildSample] returns the first 50
    lines of the text, cut at LF or CR LF, joined by single line feeds; for
    a text of at most 50 lines in which no line ends in CR LF the result is
    the text itself. *)
Theorem buildSample_first_lines (text : JsString) :
  buildSample text defaultMaxLines
  = join [Ch.LF] (take 50 (splitLines text))
  ∧ (length (splitLines text) ≤ 50 → hasCRLF text = false →
     buildSample text defaultMaxLines = text).
Proof.
  change defaultMaxLines with (Z.of_nat 50). rewrite buildSample_take.
  split; [done|]. intros Hlen Hcrlf.
  rewrite take_ge by done. by apply join_splitLines.
Qed.

Lemma buildSample_first_lines_witness :
  let text := lit "id,name" ++ [Ch.LF] ++ lit "1,Ann" in
  length (splitLines text) ≤ 50 ∧ hasCRLF text = false
  ∧ buildSample text defaultMaxLines = text.
Proof.
  intros text. split; [vm_compute; lia|]. split; [reflexivity|].
  apply (buildSample_first_lines text); [vm_compute; lia|reflexivity].
Defined.

(** ** Trimming *)

Lemma trimStart_clean (s : JsString) : startsClean (trimStart s).
Proof.
  induction s as [|c s IH]; simpl; [done|].
  destruct (isWhiteSpace c) eqn:Hc; [done|]. exact Hc.
Qed.

Lemma trimStart_id (s : JsString) : startsClean s → trimStart s = s.
Proof. destruct s as [|c s]; simpl; [done|]. by intros ->. Qed.

Lemma trimStart_snoc (s : JsString) (c : N) :
  isWhiteSpace c = false → trimStart (s ++ [c]) = trimStart s ++ [c].
Proof.
  intros Hc. induction s as [|d s IH]; simpl.
  - by rewrite Hc.
  - by destruct (isWhiteSpace d).
Qed.

Lemma trimEnd_cons (s : JsString) (c : N) :
  isWhiteSpace c = false → trimEnd (c :: s) = c :: trimEnd s.
Proof.
  intros Hc. unfold trimEnd. simpl.
  by rewrite trimStart_snoc, rev_app_distr.
Qed.

Lemma trimEnd_clean (s : JsString) : startsClean s → startsClean (trimEnd s).
Proof.
  destruct s as [|c s]; [done|]. simpl. intros Hc.
  by rewrite trimEnd_cons.
Qed.

Lemma trimEnd_idem (s : JsString) : trimEnd (trimEnd s) = trimEnd s.
Proof.
  unfold trimEnd. rewrite rev_involutive.
  by rewrite (trimStart_id (trimStart _)) by apply trimStart_clean.
Qed.

(** [trim] is idempotent. *)
Lemma trim_idem (s : JsString) : trim (trim s) = trim s.
Proof.
  unfold trim.
  rewrite (trimStart_id (trimEnd _)).
  - apply trimEnd_idem.
  - apply trimEnd_clean, trimStart_clean.
Qed.

Lemma trimEnd_no_whitespace (s : JsString) :
  Forall (λ c, isWhiteSpace c = false) s → trimEnd s = s.
Proof.
  induction 1 as [|c s Hc _ IH]; [done|]. by rewrite trimEnd_cons, IH.
Qed.

(** A text without white space is left alone. *)
Lemma trim_no_whitespace (s : JsString) :
  Forall (λ c, isWhiteSpace c = false) s → trim s = s.
Proof.
  intros Hs. unfold trim. rewrite trimStart_id.
  - by apply trimEnd_no_whitespace.
  - by destruct Hs.
Qed.

Lemma trimStart_keeps (s : JsString) (c : N) :
  isWhiteSpace c = false → c ∈ s → c ∈ trimStart s.
Proof.
  intros Hc. induction s as [|d s IH]; simpl; [done|].
  intros Hin. destruct (isWhiteSpace d) eqn:Hd; [|done].
  apply IH. apply elem_of_cons in Hin as [->|Hin]; [congruence|done].
Qed.

(** Trimming never removes a character that is not white space. *)
Lemma trim_keeps (s : JsString) (c : N) :
  isWhiteSpace c = false → c ∈ s → c ∈ trim s.
Proof.
  intros Hc Hin. unfold trim, trimEnd.
  rewrite list_elem_of_In, <- in_rev, <- list_elem_of_In.
  apply trimStart_keeps; [done|].
  rewrite list_elem_of_In, <- in_rev, <- list_elem_of_In.
  by apply trimStart_keeps.
Qed.

(** ** Numbers and their text *)

Lemma uintDigits_digits (u : Decimal.uint) :
  Forall (λ c, isDigit c = true) (uintDigits u).
Proof. induction u; simpl; by constructor. Qed.

Lemma decimalDigits_digits (p : positive) :
  Forall (λ c, isDigit c = true) (decimalDigits p).
Proof. apply uintDigits_digits. Qed.

Lemma decimalDigits_nonempty (p : positive) : decimalDigits p ≠ [].
Proof.
  unfold decimalDigits. pose proof (Unsigned.to_uint_nonnil p) as Hnil.
  by destruct (Pos.to_uint p).
Qed.

Lemma isDigit_isNumberChar (c : N) : isDigit c = true → isNumberChar c = true.
Proof. unfold isNumberChar. by intros ->. Qed.

Lemma digits_numberChars (ds : JsString) :
  Forall (λ c, isDigit c = true) ds → Forall (λ c, isNumberChar c = true) ds.
Proof. induction 1; constructor; auto using isDigit_isNumberChar. Qed.

Lemma formatDecimal_chars (ds : JsString) (n : Z) :
  Forall (λ c, isDigit c = true) ds →
  Forall (λ c, isNumberChar c = true) (formatDecimal ds n).
Proof.
  intros Hds. pose proof (digits_numberChars ds Hds) as Hnum.
  unfold formatDecimal.
  destruct (_ && _).
  { apply Forall_app. split; [done|]. by apply Forall_replicate. }
  destruct (_ && _).
  { rewrite !Forall_app. split_and!;
      [by apply Forall_take|by repeat constructor|by apply Forall_drop]. }
  destruct (_ && _).
  { rewrite !Forall_app. split_and!;
      [by repeat constructor|by apply Forall_replicate|done]. }
  assert (Forall (λ c, isNumberChar c = true)
            (decimalDigits (Z.to_pos (Z.abs (n - 1))))) as Hex
    by apply digits_numberChars, decimalDigits_digits.
  assert (isNumberChar (if (n - 1 <? 0)%Z then 45%N else 43%N) = true) as Hsign
    by by destruct (n - 1 <? 0)%Z.
  destruct Hnum as [|d more Hd Hmore]; [done|].
  destruct more as [|d' more'].
  - repeat (constructor; [done|]). done.
  - constructor; [done|]. constructor; [done|].
    rewrite Forall_app. split; [done|].
    repeat (constructor; [done|]). done.
Qed.

Lemma NumberToString_chars (x : JsNumber) :
  Forall (λ c, isNumberChar c = true) (NumberToString x).
Proof.
  unfold NumberToString. destruct (canonical x) as [|neg|neg|neg m e].
  - by repeat constructor.
  - destruct neg; by repeat constructor.
  - by repeat constructor.
  - destruct (shortest m e) as [s n]. apply Forall_app. split.
    + destruct neg; by repeat constructor.
    + apply formatDecimal_chars, decimalDigits_digits.
Qed.

Lemma numberChar_not_whitespace (c : N) :
  isNumberChar c = true → isWhiteSpace c = false.
Proof.
  unfold isNumberChar, isDigit. intros H.
  apply orb_true_iff in H as [H|H].
  - apply andb_true_iff in H as [H1 H2].
    apply N.leb_le in H1, H2. unfold isWhiteSpace.
    repeat (apply orb_false_intro);
      try (apply N.eqb_neq; lia); apply andb_false_iff; left; apply N.leb_gt; lia.
  - apply existsb_exists in H as (d & Hd & Heq). apply N.eqb_eq in Heq as ->.
    simpl in Hd. repeat (destruct Hd as [<-|Hd]; [done|]). done.
Qed.

Lemma trim_NumberToString (x : JsNumber) :
  trim (NumberToString x) = NumberToString x.
Proof.
  apply trim_no_whitespace.
  induction (NumberToString_chars x); constructor;
    auto using numberChar_not_whitespace.
Qed.

(** *** The grammar accepts what [String(x)] writes *)

Lemma spanDigits_app (ds rest : JsString) :
  Forall (λ c, isDigit c = true) ds → startsNoDigit rest →
  spanDigits (ds ++ rest) = (ds, rest).
Proof.
  intros Hds Hrest. induction Hds as [|c ds Hc _ IH]; cbn [spanDigits app].
  - destruct rest as [|c rest]; [done|]. cbn [spanDigits].
    unfold startsNoDigit in Hrest. by rewrite Hrest.
  - by rewrite Hc, IH.
Qed.

Lemma spanDigits_all (ds : JsString) :
  Forall (λ c, isDigit c = true) ds → spanDigits ds = (ds, []).
Proof.
  intros Hds. rewrite <- (app_nil_r ds) at 1. by apply spanDigits_app.
Qed.

Lemma writtenExponent_startsNoDigit (ex : JsString) :
  writtenExponent ex → startsNoDigit ex.
Proof. intros [->|(signCh & exDigits & -> & _)]; done. Qed.

Lemma parseExponentPart_written (ex : JsString) :
  writtenExponent ex → is_Some (parseExponentPart ex).
Proof.
  intros [->|(signCh & exDigits & -> & Hsign & Hne & Hds)]; [by eexists|].
  destruct Hsign as [->| ->]; cbn -[spanDigits decimalValue];
    rewrite spanDigits_all by done; (destruct exDigits; [done|]); by eexists.
Qed.

Lemma parseUnsignedDecimal_plain (ip ex : JsString) :
  Forall (λ c, isDigit c = true) ip → ip ≠ [] → writtenExponent ex →
  is_Some (parseUnsignedDecimal (ip ++ ex)).
Proof.
  intros Hip Hne Hex. unfold parseUnsignedDecimal.
  rewrite spanDigits_app by auto using writtenExponent_startsNoDigit.
  destruct (parseExponentPart_written ex Hex) as [e He].
  assert ((match ex with
           | [] => ([], [])
           | c :: r => if (c =? 46)%N then spanDigits r else ([], ex)
           end) = ([], ex)) as ->.
  { destruct Hex as [->|(signCh & exDigits & -> & _)]; done. }
  rewrite app_nil_r, He. destruct ip; [done|]. by eexists.
Qed.

Lemma parseUnsignedDecimal_dotted (ip fp ex : JsString) :
  Forall (λ c, isDigit c = true) ip → Forall (λ c, isDigit c = true) fp →
  ip ++ fp ≠ [] → writtenExponent ex →
  is_Some (parseUnsignedDecimal (ip ++ 46%N :: fp ++ ex)).
Proof.
  intros Hip Hfp Hne Hex. unfold parseUnsignedDecimal.
  rewrite spanDigits_app by done. cbn -[spanDigits].
  rewrite spanDigits_app by auto using writtenExponent_startsNoDigit.
  destruct (parseExponentPart_written ex Hex) as [e ->].
  destruct (ip ++ fp); [done|]. by eexists.
Qed.

Lemma parseUnsignedDecimal_digits (ip : JsString) :
  Forall (λ c, isDigit c = true) ip → ip ≠ [] →
  is_Some (parseUnsignedDecimal ip).
Proof.
  intros Hip Hne. rewrite <- (app_nil_r ip).
  apply parseUnsignedDecimal_plain; [done|done|by left].
Qed.

Lemma parseUnsignedDecimal_fraction (ip fp : JsString) :
  Forall (λ c, isDigit c = true) ip → Forall (λ c, isDigit c = true) fp →
  ip ++ fp ≠ [] → is_Some (parseUnsignedDecimal (ip ++ 46%N :: fp)).
Proof.
  intros Hip Hfp Hne. rewrite <- (app_nil_r fp).
  apply parseUnsignedDecimal_dotted; [done|done|done|by left].
Qed.

Lemma formatDecimal_parses (ds : JsString) (n : Z) :
  ds ≠ [] → Forall (λ c, isDigit c = true) ds →
  is_Some (parseUnsignedDecimal (formatDecimal ds n))
  ∧ startsWithDigit (formatDecimal ds n).
Proof.
  intros Hne Hds. unfold formatDecimal.
  destruct ds as [|d more]; [done|].
  pose proof Hds as Hds'. apply list.Forall_cons in Hds' as [Hd Hmore].
  destruct ((_ <=? n)%Z && (n <=? 21)%Z).
  { split; [|done].
    apply parseUnsignedDecimal_digits; [|done].
    apply Forall_app. split; [done|]. by apply Forall_replicate. }
  destruct ((0 <? n)%Z && (n <=? 21)%Z) eqn:Hn.
  { apply andb_true_iff in Hn as [Hn _]. apply Z.ltb_lt in Hn.
    destruct (Z.to_nat n) as [|k] eqn:Hk; [lia|].
    split; [|done].
    apply parseUnsignedDecimal_fraction;
      [by apply Forall_take|by apply Forall_drop|].
    by rewrite take_drop. }
  destruct ((-6 <? n)%Z && (n <=? 0)%Z).
  { split; [|done].
    apply (parseUnsignedDecimal_fraction [48%N]);
      [by repeat constructor| |done].
    apply Forall_app. split; [by apply Forall_replicate|done]. }
  assert (writtenExponent
            ([101%N; if (n - 1 <? 0)%Z then 45%N else 43%N]
             ++ decimalDigits (Z.to_pos (Z.abs (n - 1))))) as Hex.
  { right. eexists _, _. split; [done|].
    split; [destruct (n - 1 <? 0)%Z; auto|].
    split; [apply decimalDigits_nonempty|apply decimalDigits_digits]. }
  destruct more as [|d' more'].
  - split; [|done].
    by apply (parseUnsignedDecimal_plain [d]); [by constructor| |].
  - split; [|done].
    by apply (parseUnsignedDecimal_dotted [d]); [by constructor| | |].
Qed.

Lemma roundRatio_not_NaN (neg : bool) (n d : Z) :
  isNaN (roundRatio neg n d) = false.
Proof.
  unfold roundRatio.
  repeat match goal with
         | |- context [let '(_, _) := ?p in _] => destruct p
         | |- context [if ?b then _ else _] => destruct b
         | |- context [match ?z with Z0 => _ | Zpos _ => _ | Zneg _ => _ end] =>
             destruct z
         end; done.
Qed.

Lemma toNumber_not_NaN (v : MathValue) : isNaN (toNumber v) = false.
Proof.
  destruct v as [neg|neg mant exp10]; simpl; [done|].
  destruct (mant =? 0)%Z; [done|]. unfold roundDecimal.
  destruct (exp10 <? 0)%Z; apply roundRatio_not_NaN.
Qed.

(** A text the grammar accepts is not read as NaN. *)
Lemma StringToNumber_parsed (s : JsString) :
  is_Some (parseStrNumericLiteral (trim s)) → isNaN (StringToNumber s) = false.
Proof.
  intros [v Hv]. unfold StringToNumber.
  destruct (trim s) as [|c t]; [done|]. rewrite Hv. apply toNumber_not_NaN.
Qed.

Lemma parseStrDecimalLiteral_unsigned (u : JsString) :
  startsWithDigit u → is_Some (parseUnsignedDecimal u) →
  is_Some (parseStrDecimalLiteral u)
  ∧ is_Some (parseStrDecimalLiteral (45%N :: u))
  ∧ is_Some (parseStrDecimalLiteral (43%N :: u)).
Proof.
  intros Hhead [[m e] Hu]. unfold parseStrDecimalLiteral.
  assert (takeSign u = (false, u)) as ->.
  { destruct u as [|c u]; [done|]. simpl in Hhead. unfold takeSign.
    destruct (N.eqb_spec c 43) as [->|_]; [done|].
    by destruct (N.eqb_spec c 45) as [->|_]. }
  cbn [takeSign N.eqb Pos.eqb]. rewrite Hu.
  by destruct (bool_decide (u = lit "Infinity")).
Qed.

Lemma parseStrNumericLiteral_decimal (s : JsString) :
  is_Some (parseStrDecimalLiteral s) → is_Some (parseStrNumericLiteral s).
Proof. intros [v Hv]. unfold parseStrNumericLiteral. rewrite Hv. by eexists. Qed.

(** The text [String(x)] of a number other than NaN reads back as a number:
    [Number(String(x))] is not NaN. *)
Lemma canonical_not_NaN (x : JsNumber) :
  isNaN x = false → isNaN (canonical x) = false.
Proof.
  destruct x as [|neg|neg|neg m e]; try done. intros _. unfold canonical.
  destruct (e <? 0)%Z; apply roundRatio_not_NaN.
Qed.

Lemma NumberToString_numeric (x : JsNumber) :
  isNaN x = false → isNaN (StringToNumber (NumberToString x)) = false.
Proof.
  intros Hx%canonical_not_NaN.
  apply StringToNumber_parsed. rewrite trim_NumberToString.
  unfold NumberToString.
  destruct (canonical x) as [|neg|neg|neg m e]; [done| | |].
  - by destruct neg.
  - done.
  - apply parseStrNumericLiteral_decimal.
    destruct (shortest m e) as [s n].
    destruct (formatDecimal_parses (decimalDigits (Z.to_pos s)) n)
      as [Hparse Hhead];
      [apply decimalDigits_nonempty|apply decimalDigits_digits|].
    destruct (parseStrDecimalLiteral_unsigned _ Hhead Hparse) as (H0 & H1 & _).
    by destruct neg.
Qed.

(** ** The normalizer *)

Lemma getProp_nullish (a : JsValue) (key : string) :
  isNullish a = true → getProp a key = Throw TypeError.
Proof. by destruct a. Qed.

Lemma getProp_normal (a : JsValue) (key : string) :
  isNullish a = false → ∃ v, getProp a key = Normal v.
Proof. destruct a; intros; try done; by eexists. Qed.

Lemma normalizeCandidate_nullish (a : JsValue) :
  isNullish a = true → normalizeCandidate a = Throw TypeError.
Proof. by destruct a. Qed.

Lemma normalizeCandidate_normal (a : JsValue) :
  isNullish a = false → ∃ pushed, normalizeCandidate a = Normal pushed.
Proof.
  intros Ha. unfold normalizeCandidate.
  destruct (getProp_normal a "type" Ha) as [ty ->].
  destruct (getProp_normal a "mode" Ha) as [mode ->].
  destruct (getProp_normal a "columnIndex" Ha) as [ci ->].
  destruct (getProp_normal a "onError" Ha) as [oe ->].
  cbn [mbind Completion_bind].
  destruct ty; try by eexists.
  repeat (case_bool_decide; [by eexists|]).
  case_bool_decide; [|by eexists].
  destruct ci; by eexists.
Qed.

(** On a list without [null] and [undefined] the normalizer returns, with at
    most one action per candidate. *)
Lemma mapToCleaningActions_total (rawActions : list JsValue) :
  Forall (λ a, isNullish a = false) rawActions →
  ∃ actions,
    mapToCleaningActions rawActions = Normal actions
    ∧ length actions ≤ length rawActions.
Proof.
  induction 1 as [|a rest Ha _ (actions & IH & Hlen)]; [by exists []|].
  destruct (normalizeCandidate_normal a Ha) as [pushed Hpushed].
  cbn [mapToCleaningActions]. rewrite Hpushed, IH. cbn [mbind Completion_bind].
  eexists. split; [done|]. destruct pushed; simpl; lia.
Qed.

(** C2, at the failing input: a [null] among the candidates makes
    [mapToCleaningActions] throw a TypeError (the read of [obj.type]),
    whatever stands before and after it. *)
Theorem mapToCleaningActions_null_throws (before after : list JsValue) :
  mapToCleaningActions (before ++ JNull :: after) = Throw TypeError.
Proof.
  induction before as [|a before IH]; [done|].
  cbn [mapToCleaningActions app]. rewrite IH.
  destruct (normalizeCandidate a) as [pushed|[]]; done.
Qed.

Lemma mapToCleaningActions_single (a : JsValue) :
  mapToCleaningActions [a]
  = pushed ← normalizeCandidate a;
    Normal (match pushed with
            | Some action => [action]
            | None => []
            end).
Proof. cbn. by destruct (normalizeCandidate a) as [[action|]|]. Qed.

Lemma normalizeCandidate_coerce (a : JsValue) (x : JsNumber)
  (oe : CoerceOnError) :
  normalizeCandidate a = Normal (Some (COERCE_NUMERIC x oe))
  ↔ getProp a "type" = Normal (JStr (lit "COERCE_NUMERIC"))
    ∧ getProp a "columnIndex" = Normal (JNum x)
    ∧ ∃ raw, getProp a "onError" = Normal raw ∧ oe = normalizeOnError raw.
Proof.
  destruct (isNullish a) eqn:Ha.
  { rewrite normalizeCandidate_nullish, getProp_nullish by done.
    split; [done|]. by intros [? _]. }
  unfold normalizeCandidate.
  destruct (getProp_normal a "type" Ha) as [ty ->].
  destruct (getProp_normal a "mode" Ha) as [mode ->].
  destruct (getProp_normal a "columnIndex" Ha) as [ci ->].
  destruct (getProp_normal a "onError" Ha) as [raw ->].
  cbn [mbind Completion_bind]. split.
  - destruct ty as [| | | |t| |]; try done.
    repeat (case_bool_decide; [done|]).
    case_bool_decide as Ht; [rewrite Ht|done].
    destruct ci; try done. intros [= -> <-]. eauto.
  - intros ([= ->] & [= ->] & raw' & [= <-] & ->). done.
Qed.

Lemma NumberToString_not_COERCE_NUMERIC (x : JsNumber) :
  NumberToString x ≠ lit "COERCE_NUMERIC".
Proof.
  intros Heq. pose proof (NumberToString_chars x) as Hchars.
  rewrite Heq in Hchars. by inversion Hchars.
Qed.

(** What [analyzeAction] keeps of a candidate: its type when that is the
    string COERCE_NUMERIC, and the first numeric column index, snake_case
    before camelCase. *)
Lemma analyzeAction_spec (a : JsValue) (a' : AnalyzeCsvAction) :
  analyzeAction a = Normal a' →
  (action_type a' = lit "COERCE_NUMERIC"
   ↔ getProp a "type" = Normal (JStr (lit "COERCE_NUMERIC")))
  ∧ ∀ x, action_columnIndex a' = Some x
         ↔ getProp a "column_index" = Normal (JNum x)
           ∨ ((∀ y, getProp a "column_index" ≠ Normal (JNum y))
              ∧ getProp a "columnIndex" = Normal (JNum x)).
Proof.
  destruct (isNullish a) eqn:Ha.
  { unfold analyzeAction. rewrite (getProp_nullish a "type") by done.
    cbn [mbind Completion_bind]. discriminate. }
  unfold analyzeAction.
  destruct (getProp_normal a "type" Ha) as [ty ->].
  destruct (getProp_normal a "column_index" Ha) as [snake ->].
  destruct (getProp_normal a "columnIndex" Ha) as [camel ->].
  cbn [mbind Completion_bind]. intros Ha'. split.
  - assert (action_type a' =
              match ty with
              | JStr s => s
              | JNum x => NumberToString x
              | JBool b => if b then lit "true" else lit "false"
              | _ => lit "unknown"
              end) as ->.
    { destruct snake; try (destruct camel); by injection Ha' as <-. }
    destruct ty as [| |[]|y|s| |]; split; try done.
    + intros H. by apply NumberToString_not_COERCE_NUMERIC in H.
    + by intros ->.
    + by intros [= ->].
  - intros x.
    destruct snake; try (destruct camel); injection Ha' as <-; simpl;
      split; try (intros [= ->]); try (intros [[= ->]|[Hno [= ->]]]);
      try done; auto; try (right; split; [intros ?|]; congruence).
    by destruct (Hno x0).
Qed.

Lemma planCleaningActions_single (a : JsValue) :
  planCleaningActions [a]
  = a' ← analyzeAction a; mapToCleaningActions [actionValue a'].
Proof. unfold planCleaningActions. cbn. by destruct (analyzeAction a). Qed.

(** C4, as the specification states it, fails: a candidate of type
    COERCE_NUMERIC whose column index is numeric under the snake_case
    spelling is dropped by [mapToCleaningActions]. *)
Lemma mapToCleaningActions_ignores_snake_case :
  let a := JObject [(lit "type", JStr (lit "COERCE_NUMERIC"));
                    (lit "column_index", JNum (Finite false 1 1))] in
  getProp a "type" = Normal (JStr (lit "COERCE_NUMERIC"))
  ∧ getProp a "column_index" = Normal (JNum (Finite false 1 1))
  ∧ mapToCleaningActions [a] = Normal [].
Proof. by vm_compute. Qed.

Lemma normalizeCandidate_COERCE_NUMERIC (a : JsValue) :
  getProp a "type" = Normal (JStr (lit "COERCE_NUMERIC")) →
  normalizeCandidate a
  = ci ← getProp a "columnIndex";
    match ci with
    | JNum columnIndex =>
        rawOnError ← getProp a "onError";
        Normal (Some (COERCE_NUMERIC columnIndex (normalizeOnError rawOnError)))
    | _ => Normal None
    end.
Proof. intros Hty. unfold normalizeCandidate. by rewrite Hty. Qed.

Lemma getProp_normal_not_nullish (a : JsValue) (key : string) (v : JsValue) :
  getProp a key = Normal v → isNullish a = false.
Proof. by destruct a. Qed.

(** C4, amended: [mapToCleaningActions] emits a COERCE_NUMERIC action
    exactly when the candidate's [type] is the string COERCE_NUMERIC and its
    [columnIndex] field (camelCase) is a number; with any other
    [columnIndex] such a candidate is dropped, never defaulted.  The
    snake_case spelling [column_index] is read by [analyzeCsv] only, which
    stores it as [columnIndex]: a raw candidate that goes through
    [analyzeCsv] and then through [mapToCleaningActions] yields
    COERCE_NUMERIC exactly when its [type] is COERCE_NUMERIC and
    [column_index], or else [columnIndex], is a number (the action then has
    [onError = drop-row]). *)
Theorem coerce_numeric_emitted_iff (a : JsValue) (x : JsNumber)
  (oe : CoerceOnError) :
  (mapToCleaningActions [a] = Normal [COERCE_NUMERIC x oe]
   ↔ getProp a "type" = Normal (JStr (lit "COERCE_NUMERIC"))
     ∧ getProp a "columnIndex" = Normal (JNum x)
     ∧ ∃ raw, getProp a "onError" = Normal raw ∧ oe = normalizeOnError raw)
  ∧ (getProp a "type" = Normal (JStr (lit "COERCE_NUMERIC")) →
     (∀ y, getProp a "columnIndex" ≠ Normal (JNum y)) →
     mapToCleaningActions [a] = Normal [])
  ∧ (planCleaningActions [a] = Normal [COERCE_NUMERIC x oe]
     ↔ getProp a "type" = Normal (JStr (lit "COERCE_NUMERIC"))
       ∧ (getProp a "column_index" = Normal (JNum x)
          ∨ ((∀ y, getProp a "column_index" ≠ Normal (JNum y))
             ∧ getProp a "columnIndex" = Normal (JNum x)))
       ∧ oe = DropRow).
Proof.
  split_and!.
  - rewrite <- normalizeCandidate_coerce, mapToCleaningActions_single.
    destruct (normalizeCandidate a) as [[action|]|];
      cbn [mbind Completion_bind]; split; congruence.
  - intros Hty Hci. rewrite mapToCleaningActions_single.
    rewrite normalizeCandidate_COERCE_NUMERIC by done.
    pose proof (getProp_normal_not_nullish _ _ _ Hty) as Ha.
    destruct (getProp_normal a "columnIndex" Ha) as [ci Hci'].
    destruct (getProp_normal a "onError" Ha) as [raw ->].
    rewrite Hci' in Hci |- *. cbn [mbind Completion_bind].
    destruct ci as [| | |y| | |]; try done. by destruct (Hci y).
  - rewrite planCleaningActions_single.
    destruct (analyzeAction a) as [a'|err] eqn:Ha'.
    + destruct (analyzeAction_spec a a' Ha') as [Hty Hci].
      cbn [mbind Completion_bind].
      rewrite <- Hty, <- Hci.
      pose proof (normalizeCandidate_coerce (actionValue a') x oe) as Hn.
      rewrite mapToCleaningActions_single.
      assert (getProp (actionValue a') "type" = Normal (JStr (action_type a')))
        as Hty' by done.
      assert (getProp (actionValue a') "onError" = Normal JUndefined)
        as Hoe' by done.
      assert (getProp (actionValue a') "columnIndex" = Normal (JNum x)
              ↔ action_columnIndex a' = Some x) as Hci'.
      { destruct a' as [ty' [ci'|]]; split; (intros [= ->] || intros [=]);
          done. }
      rewrite Hty', Hoe', Hci' in Hn. split.
      * destruct (normalizeCandidate (actionValue a')) as [[action|]|];
          cbn [mbind Completion_bind]; intros [= ->].
        destruct Hn as [Hn _].
        by destruct (Hn eq_refl) as ([= ->] & -> & raw & [= <-] & ->).
      * intros (Hty'' & Hci'' & ->). destruct Hn as [_ Hn].
        rewrite Hn; [done|]. rewrite Hty''. by eauto.
    + cbn [mbind Completion_bind]. split; [done|].
      intros (Hty & _).
      pose proof (getProp_normal_not_nullish _ _ _ Hty) as Ha.
      unfold analyzeAction in Ha'.
      destruct (getProp_normal a "type" Ha) as [? Heq]. rewrite Heq in Ha'.
      destruct (getProp_normal a "column_index" Ha) as [snake Heq'].
      rewrite Heq' in Ha'.
      destruct (getProp_normal a "columnIndex" Ha) as [camel Heq''].
      rewrite Heq'' in Ha'. cbn [mbind Completion_bind] in Ha'.
      destruct snake; try done; by destruct camel.
Qed.

Lemma coerce_numeric_emitted_iff_witness :
  let a := JObject [(lit "type", JStr (lit "COERCE_NUMERIC"));
                    (lit "columnIndex", JNum (Finite false 1 1));
                    (lit "onError", JStr (lit "set-zero"))] in
  mapToCleaningActions [a] = Normal [COERCE_NUMERIC (Finite false 1 1) SetZero].
Proof.
  intros a.
  apply (proj1 (coerce_numeric_emitted_iff a (Finite false 1 1) SetZero)).
  split; [reflexivity|]. split; [reflexivity|].
  exists (JStr (lit "set-zero")). split; reflexivity.
Defined.

(** ** The loop of COERCE_NUMERIC *)

Lemma coerceLoop_unfold_clause (c : JsNumber) (oe : CoerceOnError)
  (newRows : Table) (i changed dropped : nat)
  (r : {b : option Row | newRows !! i = b}) :
  coerceLoop_unfold_clause_1 c oe newRows i r changed dropped
  = match proj1_sig r with
    | None => Normal (newRows, changed, dropped)
    | Some row =>
        match coerceRow c oe row with
        | Throw err => Throw err
        | Normal (Kept _) => coerceLoop c oe newRows (S i) changed dropped
        | Normal (Changed row') =>
            coerceLoop c oe (<[i:=row']> newRows) (S i) (S changed) dropped
        | Normal Dropped =>
            coerceLoop c oe (delete i newRows) i changed (S dropped)
        end
    end.
Proof. by destruct r as [[row|] Hr]. Qed.

(** One turn of the loop. *)
Lemma coerceLoop_step (c : JsNumber) (oe : CoerceOnError)
  (newRows : Table) (i changed dropped : nat) :
  coerceLoop c oe newRows i changed dropped
  = match newRows !! i with
    | None => Normal (newRows, changed, dropped)
    | Some row =>
        match coerceRow c oe row with
        | Throw err => Throw err
        | Normal (Kept _) => coerceLoop c oe newRows (S i) changed dropped
        | Normal (Changed row') =>
            coerceLoop c oe (<[i:=row']> newRows) (S i) (S changed) dropped
        | Normal Dropped =>
            coerceLoop c oe (delete i newRows) i changed (S dropped)
        end
    end.
Proof. by rewrite coerceLoop_equation_1, coerceLoop_unfold_clause. Qed.

Lemma coerceRow_Kept (c : JsNumber) (oe : CoerceOnError) (row row' : Row) :
  coerceRow c oe row = Normal (Kept row') → row' = row.
Proof.
  unfold coerceRow. destruct (_ || _); [by intros [= <-]|].
  destruct (arrayIndex c) as [k|]; [|done].
  destruct (row !! k) as [value|]; [|done].
  destruct (coerceCell oe value); by intros [= <-].
Qed.

(** The loop handles the rows from index [i] on one after the other, each
    by [coerceRow], and leaves the rows before [i] alone. *)
Lemma coerceLoop_rows (c : JsNumber) (oe : CoerceOnError) (newRows : Table)
  (i changed dropped : nat) :
  coerceLoop c oe newRows i changed dropped
  = outcomes ← mapM (coerceRow c oe) (drop i newRows);
    let '(t, changed', dropped') := collect outcomes in
    Normal (take i newRows ++ t, changed + changed', dropped + dropped').
Proof.
  remember (length newRows - i) as n eqn:Hn.
  revert newRows i changed dropped Hn.
  induction n as [n IH] using lt_wf_ind. intros newRows i changed dropped ->.
  rewrite coerceLoop_step.
  destruct (newRows !! i) as [row|] eqn:Hrow.
  - pose proof (lookup_lt_Some _ _ _ Hrow) as Hlt.
    rewrite (drop_S _ _ _ Hrow). cbn [mapM].
    destruct (coerceRow c oe row) as [[row'|row'|]|err] eqn:Hout;
      cbn [mbind Completion_bind]; [| | |done].
    + apply coerceRow_Kept in Hout as ->.
      rewrite (IH (length newRows - S i)) by lia.
      destruct (mapM _ _) as [outcomes|]; cbn; [|done].
      destruct (collect outcomes) as [[t ch] dr].
      by rewrite (take_S_r _ _ _ Hrow), <- app_assoc.
    + rewrite (IH (length newRows - S i)) by (rewrite ?length_insert; lia).
      rewrite insert_take_drop by done.
      rewrite (cons_middle row'), app_assoc.
      rewrite drop_app_length', take_app_length'
        by (rewrite length_app, length_take; simpl; lia).
      destruct (mapM _ _) as [outcomes|]; cbn; [|done].
      destruct (collect outcomes) as [[t ch] dr].
      rewrite <- app_assoc, Nat.add_succ_r. done.
    + rewrite delete_take_drop.
      rewrite (IH (length newRows - S i)); [|lia|].
      2:{ rewrite length_app, length_take, length_drop. lia. }
      rewrite drop_app_length', take_app_length'
        by (rewrite length_take; lia).
      destruct (mapM _ _) as [outcomes|]; cbn; [|done].
      destruct (collect outcomes) as [[t ch] dr].
      by rewrite Nat.add_succ_r.
  - apply lookup_ge_None in Hrow.
    rewrite drop_ge, take_ge by lia. cbn.
    by rewrite app_nil_r, !Nat.add_0_r.
Qed.

Lemma mapM_Normal {A B} (f : A → Completion B) (l : list A) (k : list B) :
  mapM f l = Normal k ↔ Forall2 (λ x y, f x = Normal y) l k.
Proof.
  revert k. induction l as [|x l IH]; intros k; cbn [mapM].
  - change (mret [] = Normal k) with (@Normal (list B) [] = Normal k).
    split; [intros [= <-]; constructor|by intros ->%Forall2_nil_inv_l].
  - destruct (f x) as [y|err] eqn:Hfx; cbn [mbind Completion_bind].
    + destruct (mapM f l) as [k'|err]; cbn [mbind Completion_bind].
      * change (mret (y :: k') = Normal k) with (Normal (y :: k') = Normal k).
        split.
        -- intros [= <-]. constructor; [done|]. by apply IH.
        -- inversion 1 as [|? y' ? k'' Hy Hrest]; subst.
           apply IH in Hrest. congruence.
      * split; [done|]. inversion 1 as [|? y' ? k'' _ Hrest]; subst.
        by apply IH in Hrest.
    + split; [done|]. inversion 1; congruence.
Qed.

(** COERCE_NUMERIC as a whole: the rows before the first data row are kept,
    the others go through [coerceRow] one by one. *)
Lemma applyAction_coerce (hasHeader : bool) (st : ApplyActionsResult)
  (c : JsNumber) (oe : CoerceOnError) :
  applyAction hasHeader st (COERCE_NUMERIC c oe)
  = outcomes ← mapM (coerceRow c oe) (drop (startIndexOf hasHeader) (rows st));
    Normal (mkResult
              (take (startIndexOf hasHeader) (rows st) ++ (collect outcomes).1.1)
              (rowsChanged st + (collect outcomes).1.2)
              (rowsDropped st + (collect outcomes).2)).
Proof.
  cbn [applyAction]. rewrite coerceLoop_rows.
  destruct (mapM _ _) as [outcomes|]; cbn [mbind Completion_bind]; [|done].
  by destruct (collect outcomes) as [[t ch] dr].
Qed.

(** A number that denotes the array index [k] is not negative, and is at
    least a length exactly when [k] is. *)
Lemma arrayIndex_bounds (c : JsNumber) (k len : nat) :
  arrayIndex c = Some k →
  ltZero c = false ∧ (geLength c len = true ↔ len ≤ k).
Proof.
  destruct c as [|neg|neg|[] m e]; try done; cbn [arrayIndex ltZero geLength].
  - intros [= <-]. split; [done|]. rewrite Nat.eqb_eq. lia.
  - destruct (Z.ltb_spec e 0) as [He|He].
    + destruct (Z.eqb_spec (Z.pos m mod 2 ^ (- e)) 0) as [Hmod|]; [|done].
      intros [= <-]. split; [done|].
      assert (0 < 2 ^ (- e))%Z as Hpow by (apply Z.pow_pos_nonneg; lia).
      pose proof (Z_div_mod_eq_full (Z.pos m) (2 ^ (- e))) as Hdiv.
      rewrite Hmod, Z.add_0_r in Hdiv.
      assert (0 ≤ Z.pos m / 2 ^ (- e))%Z as Hq by (apply Z.div_pos; lia).
      rewrite Z.leb_le. split; intros Hle.
      * apply Nat2Z.inj_le. rewrite Z2Nat.id by done. nia.
      * apply Nat2Z.inj_le in Hle. rewrite Z2Nat.id in Hle by done. nia.
    + intros [= <-]. split; [done|].
      assert (0 < 2 ^ e)%Z as Hpow by (apply Z.pow_pos_nonneg; lia).
      rewrite Z.leb_le. split; intros Hle.
      * apply Nat2Z.inj_le. rewrite Z2Nat.id by lia. done.
      * apply Nat2Z.inj_le in Hle. rewrite Z2Nat.id in Hle by lia. done.
Qed.

Lemma arrayGet_out_of_range (c : JsNumber) (row : Row) :
  ltZero c || geLength c (length row) = true → arrayGet row c = None.
Proof.
  intros Hguard. unfold arrayGet.
  destruct (arrayIndex c) as [k|] eqn:Hk; [|done]. cbn.
  destruct (arrayIndex_bounds c k (length row) Hk) as [Hlt Hge].
  rewrite Hlt in Hguard. apply lookup_ge_None_2. by apply Hge.
Qed.

(** COERCE_NUMERIC does not throw on a row when the column index is an
    array index. *)
Lemma coerceRow_total (c : JsNumber) (oe : CoerceOnError) (row : Row) :
  is_Some (arrayIndex c) → ∃ o, coerceRow c oe row = Normal o.
Proof.
  intros [k Hk]. unfold coerceRow.
  destruct (ltZero c || geLength c (length row)) eqn:Hguard; [by eexists|].
  rewrite Hk.
  destruct (arrayIndex_bounds c k (length row) Hk) as [Hlt Hge].
  rewrite Hlt in Hguard. cbn in Hguard.
  destruct (row !! k) as [value|] eqn:Hvalue.
  - destruct (coerceCell oe value); by eexists.
  - apply lookup_ge_None in Hvalue. apply Hge in Hvalue. congruence.
Qed.

(** The three things [coerceRow] can do with a row. *)
Lemma coerceRow_cases (c : JsNumber) (oe : CoerceOnError) (row : Row)
  (o : RowOutcome) :
  coerceRow c oe row = Normal o →
  (o = Kept row
   ∧ (arrayGet row c = None
      ∨ ∃ value, arrayGet row c = Some value ∧ coerceCell oe value = Skip))
  ∨ (o = Dropped
     ∧ ∃ value, arrayGet row c = Some value ∧ coerceCell oe value = Splice)
  ∨ (∃ k value text,
       arrayIndex c = Some k ∧ row !! k = Some value
       ∧ coerceCell oe value = Rewrite text ∧ o = Changed (<[k:=text]> row)).
Proof.
  unfold coerceRow.
  destruct (ltZero c || geLength c (length row)) eqn:Hguard.
  { intros [= <-]. left. split; [done|]. left. by apply arrayGet_out_of_range. }
  unfold arrayGet.
  destruct (arrayIndex c) as [k|] eqn:Hk; [|done]. cbn.
  destruct (row !! k) as [value|] eqn:Hvalue; [|done].
  destruct (coerceCell oe value) as [|text|] eqn:Hcell; intros [= <-].
  - left. eauto.
  - right. right. by eexists _, _, _.
  - right. left. eauto.
Qed.

Lemma coerceCell_blank (oe : CoerceOnError) (value : JsString) :
  trim value = [] → coerceCell oe value = Skip.
Proof. intros Hblank. unfold coerceCell. by rewrite Hblank. Qed.

Lemma applyAction_coerce_total (hasHeader : bool) (st : ApplyActionsResult)
  (c : JsNumber) (oe : CoerceOnError) :
  is_Some (arrayIndex c) →
  ∃ st', applyAction hasHeader st (COERCE_NUMERIC c oe) = Normal st'.
Proof.
  intros Hc. rewrite applyAction_coerce.
  assert (∃ outcomes,
            mapM (coerceRow c oe) (drop (startIndexOf hasHeader) (rows st))
            = Normal outcomes) as [outcomes ->].
  { induction (drop _ _) as [|row t [outcomes IH]]; [by exists []|].
    destruct (coerceRow_total c oe row Hc) as [o Ho].
    exists (o :: outcomes). cbn [mapM]. by rewrite Ho, IH. }
  by eexists.
Qed.

(** COERCE_NUMERIC on tables: when it returns, which it does whenever the
    column index is an array index, the rows before the data-start index
    are the old ones, and the rows from there on have gone one by one
    through an outcome: kept as they were, dropped, or changed; a changed
    row has its old length and its old cells everywhere outside the target
    column, and a row whose target cell is out of range, empty or blank
    after trimming is kept as it was.  The new table and the counters are
    those collected from the outcomes. *)
Lemma applyAction_coerce_frame (hasHeader : bool) (st : ApplyActionsResult)
  (c : JsNumber) (oe : CoerceOnError) :
  (is_Some (arrayIndex c) →
   ∃ st', applyAction hasHeader st (COERCE_NUMERIC c oe) = Normal st')
  ∧ ∀ st',
      applyAction hasHeader st (COERCE_NUMERIC c oe) = Normal st' →
      (∀ i, i < startIndexOf hasHeader → rows st' !! i = rows st !! i)
      ∧ ∃ outcomes,
          rows st' = take (startIndexOf hasHeader) (rows st)
                     ++ (collect outcomes).1.1
          ∧ rowsChanged st' = rowsChanged st + (collect outcomes).1.2
          ∧ rowsDropped st' = rowsDropped st + (collect outcomes).2
          ∧ Forall2
              (λ row o,
                 match o with
                 | Kept row' => row' = row
                 | Changed row' =>
                     length row' = length row
                     ∧ ∀ j, arrayIndex c ≠ Some j → row' !! j = row !! j
                 | Dropped => True
                 end
                 ∧ (arrayGet row c = None
                    ∨ (∃ value, arrayGet row c = Some value ∧ trim value = [])
                    → o = Kept row))
              (drop (startIndexOf hasHeader) (rows st)) outcomes.
Proof.
  split; [apply applyAction_coerce_total|].
  intros st'. rewrite applyAction_coerce.
  destruct (mapM _ _) as [outcomes|] eqn:Hout; [|done].
  cbn [mbind Completion_bind]. intros [= <-]. cbn [rows rowsChanged rowsDropped].
  split.
  - intros i Hi. destruct (rows st !! i) as [row|] eqn:Hrow.
    + by rewrite lookup_app_l, lookup_take_lt
        by (rewrite ?length_take; apply lookup_lt_Some in Hrow; lia).
    + apply lookup_ge_None in Hrow.
      rewrite drop_ge in Hout by lia. injection Hout as <-. cbn.
      rewrite app_nil_r. apply lookup_ge_None. rewrite length_take. lia.
  - exists outcomes. split_and!; try done.
    apply mapM_Normal in Hout.
    eapply list.Forall2_impl; [exact Hout|]. cbn. intros row o Ho. split.
    + destruct (coerceRow_cases _ _ _ _ Ho)
        as [[-> _]|[[-> _]|(k & value & text & Hk & Hvalue & _ & ->)]];
        [done|done|].
      split; [by rewrite length_insert|].
      intros j Hj. apply list_lookup_insert_ne. congruence.
    + intros Hblank.
      destruct (coerceRow_cases _ _ _ _ Ho)
        as [[-> _]|[(-> & value & Hget & Hcell)
                   |(k & value & text & Hk & Hvalue & Hcell & ->)]];
        [done| |].
      * destruct Hblank as [Hnone|(value' & Hget' & Htrim)]; [congruence|].
        rewrite Hget in Hget'. injection Hget' as <-.
        by rewrite coerceCell_blank in Hcell.
      * assert (arrayGet row c = Some value) as Hget
          by (unfold arrayGet; by rewrite Hk).
        destruct Hblank as [Hnone|(value' & Hget' & Htrim)]; [congruence|].
        rewrite Hget in Hget'. injection Hget' as <-.
        by rewrite coerceCell_blank in Hcell.
Qed.




(** ** COERCE_NUMERIC with [set-zero] *)

Lemma nonEmptyNonNumeric_NumberToString (x : JsNumber) :
  isNaN x = false → nonEmptyNonNumeric (NumberToString x) = false.
Proof.
  intros Hx. unfold nonEmptyNonNumeric.
  rewrite trim_NumberToString, NumberToString_numeric by done.
  apply andb_false_r.
Qed.

(** With [set-zero] a cell is never spliced out, and what stands in the
    cell afterwards is empty after trimming or reads as a number. *)
Lemma coerceCell_set_zero (value : JsString) :
  match coerceCell SetZero value with
  | Skip => nonEmptyNonNumeric value = false
  | Rewrite text => nonEmptyNonNumeric text = false
  | Splice => False
  end.
Proof.
  unfold coerceCell, nonEmptyNonNumeric.
  destruct (length (trim value) =? 0) eqn:Hlen; [done|].
  destruct (isNaN (StringToNumber (trim value))) eqn:Hnan; [done|].
  case_bool_decide; [|done].
  by apply nonEmptyNonNumeric_NumberToString.
Qed.

Lemma collect_rows_elem (outcomes : list RowOutcome) (row : Row) :
  row ∈ (collect outcomes).1.1 →
  Kept row ∈ outcomes ∨ Changed row ∈ outcomes.
Proof.
  induction outcomes as [|o outcomes IH]; cbn [collect]; [by intros ?%elem_of_nil|].
  destruct (collect outcomes) as [[t ch] dr]. cbn in IH.
  destruct o as [row'|row'|]; cbn; rewrite ?elem_of_cons.
  - intros [->|Hin]; [by left; left|].
    destruct (IH Hin); [left|right]; by right.
  - intros [->|Hin]; [by right; left|].
    destruct (IH Hin); [left|right]; by right.
  - intros Hin. destruct (IH Hin); [left|right]; by right.
Qed.

Lemma coerceRow_set_zero (c : JsNumber) (row row' : Row) (o : RowOutcome)
  (value : JsString) :
  coerceRow c SetZero row = Normal o →
  o = Kept row' ∨ o = Changed row' →
  arrayGet row' c = Some value → nonEmptyNonNumeric value = false.
Proof.
  intros Ho Hrow' Hget.
  destruct (coerceRow_cases _ _ _ _ Ho)
    as [[-> Hskip]|[(-> & v & _ & Hcell)
                   |(k & v & text & Hk & Hv & Hcell & ->)]].
  - destruct Hrow' as [[= <-]|[=]].
    destruct Hskip as [Hnone|(v & Hv & Hcell)]; [congruence|].
    rewrite Hget in Hv. injection Hv as <-.
    pose proof (coerceCell_set_zero value) as Hzero. by rewrite Hcell in Hzero.
  - pose proof (coerceCell_set_zero v) as Hzero. by rewrite Hcell in Hzero.
  - destruct Hrow' as [[=]|[= <-]].
    unfold arrayGet in Hget. rewrite Hk in Hget. cbn in Hget.
    rewrite list_lookup_insert_eq in Hget by by eapply lookup_lt_Some.
    injection Hget as <-.
    pose proof (coerceCell_set_zero v) as Hzero. by rewrite Hcell in Hzero.
Qed.

Lemma StringToNumber_trim (s : JsString) :
  StringToNumber (trim s) = StringToNumber s.
Proof. unfold StringToNumber. by rewrite trim_idem. Qed.

Lemma nonEmptyNonNumeric_false (value : JsString) :
  nonEmptyNonNumeric value = false → isNaN (StringToNumber value) = false.
Proof.
  unfold nonEmptyNonNumeric. rewrite StringToNumber_trim.
  intros [Hlen|Hnan]%andb_false_iff; [|done].
  unfold StringToNumber. by destruct (trim value).
Qed.

(** C8: COERCE_NUMERIC with [set-zero] returns whenever the column index is
    an array index, and when it has returned, no row at or after the
    data-start index (index 1 when [hasHeader] is true, index 0 otherwise)
    has, in the target column, a cell whose trimmed text is neither empty
    nor read as a number: every such cell is read by [Number] as a
    number. *)
Theorem coerce_set_zero_leaves_numeric (hasHeader : bool)
  (st : ApplyActionsResult) (c : JsNumber) :
  (is_Some (arrayIndex c) →
   ∃ st', applyAction hasHeader st (COERCE_NUMERIC c SetZero) = Normal st')
  ∧ ∀ st' i row value,
      applyAction hasHeader st (COERCE_NUMERIC c SetZero) = Normal st' →
      (if hasHeader then 1 else 0) ≤ i →
      rows st' !! i = Some row →
      arrayGet row c = Some value →
      nonEmptyNonNumeric value = false
      ∧ isNaN (StringToNumber value) = false.
Proof.
  split; [apply applyAction_coerce_total|].
  intros st' i row value Hrun Hi Hrow Hget.
  cut (nonEmptyNonNumeric value = false);
    [auto using nonEmptyNonNumeric_false|].
  revert st' i row value Hrun Hi Hrow Hget.
  intros st' i row value. rewrite applyAction_coerce.
  destruct (mapM _ _) as [outcomes|] eqn:Hout; [|done].
  cbn [mbind Completion_bind]. intros [= <-]. cbn [rows].
  intros Hi Hrow Hget. change (startIndexOf hasHeader ≤ i) in Hi.
  rewrite lookup_app_r in Hrow by (rewrite length_take; lia).
  apply list_elem_of_lookup_2, collect_rows_elem in Hrow.
  apply mapM_Normal in Hout.
  assert (∃ o row0, coerceRow c SetZero row0 = Normal o
                    ∧ (o = Kept row ∨ o = Changed row)) as (o & row0 & Ho & Hkind).
  { destruct Hrow as [Hin|Hin];
      apply list_elem_of_lookup in Hin as [j Hj];
      destruct (Forall2_lookup_r _ _ _ _ _ Hout Hj) as (row0 & _ & Ho);
      eauto. }
  by eapply coerceRow_set_zero.
Qed.

Lemma coerce_set_zero_leaves_numeric_witness :
  let st := mkResult [[lit "id"; lit "age"]; [lit "1"; lit " 7 "];
                      [lit "2"; lit "n/a"]] 0 0 in
  let st' := mkResult [[lit "id"; lit "age"]; [lit "1"; lit "7"];
                       [lit "2"; lit "0"]] 2 0 in
  let bare := mkResult [[lit "n/a"]; [lit "7"]] 0 0 in
  let bare' := mkResult [[lit "0"]; [lit "7"]] 1 0 in
  (applyAction true st (COERCE_NUMERIC (Finite false 1 0) SetZero) = Normal st'
   ∧ nonEmptyNonNumeric (lit "0") = false)
  ∧ (applyAction false bare (COERCE_NUMERIC (Zero false) SetZero)
     = Normal bare'
     ∧ nonEmptyNonNumeric (lit "0") = false).
Proof.
  intros st st' bare bare'.
  assert (applyAction true st (COERCE_NUMERIC (Finite false 1 0) SetZero)
          = Normal st') as Hrun by (vm_compute; reflexivity).
  assert (applyAction false bare (COERCE_NUMERIC (Zero false) SetZero)
          = Normal bare') as Hbare by (vm_compute; reflexivity).
  split; (split; [done|]).
  - apply (proj2 (coerce_set_zero_leaves_numeric true st (Finite false 1 0))
             st' 2 [lit "2"; lit "0"] (lit "0") Hrun);
      [simpl; lia|reflexivity|reflexivity].
  - apply (proj2 (coerce_set_zero_leaves_numeric false bare (Zero false))
             bare' 0 [lit "0"] (lit "0") Hbare);
      [simpl; lia|reflexivity|reflexivity].
Defined.

(** ** The header row *)

Lemma collect_Kept_head (row : Row) (outcomes : list RowOutcome) :
  (collect (Kept row :: outcomes)).1.1 = row :: (collect outcomes).1.1.
Proof. cbn [collect]. by destruct (collect outcomes) as [[t ch] dr]. Qed.

Lemma ensureRow_same_length (mode : CleaningMode) (row : Row) :
  ensureRow mode (length row) row = Kept row.
Proof. unfold ensureRow. by rewrite Nat.eqb_refl. Qed.

(** With a header, one action keeps row 0 in place: as it is, or for the two
    cell-wise actions with its cells edited. *)
Lemma applyAction_header (st st' : ApplyActionsResult)
  (action : CleaningAction) :
  applyAction true st action = Normal st' →
  take 1 (rows st') = (λ row, headerEdit row action) <$> take 1 (rows st).
Proof.
  destruct action as [| |mode| |c oe]; cbn [applyAction headerEdit].
  - unfold mapCells. intros [= <-]. cbn [rows]. by rewrite <- fmap_take.
  - unfold mapCells. intros [= <-]. cbn [rows]. by rewrite <- fmap_take.
  - intros [= <-]. unfold ensureEqualColumns.
    destruct (rows st) as [|row0 rest] eqn:Hrows; [done|].
    cbn [expectedColumnsOf map].
    rewrite ensureRow_same_length.
    pose proof (collect_Kept_head row0
                  (map (ensureRow mode (length row0)) rest)) as Hhead.
    destruct (collect (Kept row0 :: _)) as [[t ch] dr]. cbn in *.
    by rewrite Hhead.
  - destruct (rows st) as [|row0 rest] eqn:Hrows; [by intros [= <-]|].
    cbn [imap]. change (removeEmptyRow true 0 row0) with (Kept row0).
    pose proof (collect_Kept_head row0
                  (imap (removeEmptyRow true ∘ S) rest)) as Hhead.
    destruct (collect (Kept row0 :: _)) as [[t ch] dr]. cbn in *.
    intros [= <-]. cbn. by rewrite Hhead.
  - change (coerceLoop c oe (rows st) (startIndexOf true)
              (rowsChanged st) (rowsDropped st)
            ≫= (λ '(newRows, changed, dropped),
                  Normal (mkResult newRows changed dropped)))
      with (applyAction true st (COERCE_NUMERIC c oe)).
    rewrite applyAction_coerce.
    destruct (mapM _ _) as [outcomes|] eqn:Hout; [|done].
    cbn [mbind Completion_bind]. intros [= <-]. cbn [rows].
    destruct (rows st) as [|row0 rest]; cbn in *.
    + by injection Hout as <-.
    + by rewrite list_fmap_id.
Qed.

Lemma headerEdit_length (row : Row) (action : CleaningAction) :
  length (headerEdit row action) = length row.
Proof. destruct action; cbn [headerEdit]; by rewrite ?length_fmap. Qed.

Lemma applyLoop_header (actions : list CleaningAction)
  (st st' : ApplyActionsResult) :
  applyLoop true st actions = Normal st' →
  take 1 (rows st') = (λ row, foldl headerEdit row actions) <$> take 1 (rows st).
Proof.
  revert st. induction actions as [|action actions IH]; intros st;
    cbn [applyLoop foldl].
  - intros [= <-]. by rewrite list_fmap_id.
  - destruct (applyAction true st action) as [st1|] eqn:Hstep; [|done].
    cbn [mbind Completion_bind]. intros Hrest.
    rewrite (IH _ Hrest), (applyAction_header _ _ _ Hstep).
    by rewrite <- list_fmap_compose.
Qed.

Lemma applyLoop_app (hasHeader : bool) (st : ApplyActionsResult)
  (pre post : list CleaningAction) :
  applyLoop hasHeader st (pre ++ post)
  = st' ← applyLoop hasHeader st pre; applyLoop hasHeader st' post.
Proof.
  revert st. induction pre as [|action pre IH]; intros st; [done|].
  cbn [applyLoop app].
  destruct (applyAction hasHeader st action) as [st1|]; [|done].
  cbn [mbind Completion_bind]. apply IH.
Qed.

Lemma expectedColumnsOf_take (t : Table) :
  expectedColumnsOf t = expectedColumnsOf (take 1 t).
Proof. by destruct t. Qed.

Lemma foldl_headerEdit_length (actions : list CleaningAction) (row : Row) :
  length (foldl headerEdit row actions) = length row.
Proof.
  revert row. induction actions as [|action actions IH]; intros row; [done|].
  cbn [foldl]. by rewrite IH, headerEdit_length.
Qed.

Lemma foldl_headerEdit_id (actions : list CleaningAction) (row : Row) :
  Forall (λ a, a ≠ TRIM_WHITESPACE ∧ a ≠ STRIP_WRAPPING_QUOTES) actions →
  foldl headerEdit row actions = row.
Proof.
  induction 1 as [|action actions [Htrim Hstrip] _ IH]; [done|].
  cbn [foldl]. by destruct action.
Qed.

(** The interpreter returns when every COERCE_NUMERIC action of the plan
    has an array index as its column index. *)
Lemma applyLoop_total (hasHeader : bool) (actions : list CleaningAction)
  (st : ApplyActionsResult) :
  Forall (λ a, match a with
               | COERCE_NUMERIC c _ => is_Some (arrayIndex c)
               | _ => True
               end) actions →
  ∃ st', applyLoop hasHeader st actions = Normal st'.
Proof.
  intros Hactions. revert st.
  induction Hactions as [|action actions Haction _ IH]; intros st;
    [by eexists|].
  cbn [applyLoop].
  assert (∃ st1, applyAction hasHeader st action = Normal st1) as [st1 ->].
  { destruct action as [| |mode| |c oe];
      [| | | |by apply applyAction_coerce_total]; cbn [applyAction].
    - destruct (mapCells _ _). by eexists.
    - destruct (mapCells _ _). by eexists.
    - by eexists.
    - destruct (collect _) as [[? ?] ?]. by eexists. }
  apply IH.
Qed.

(** C5: with [hasHeader] true, a pass over any plan that returns leaves a
    row 0 in the table, and that row is row 0 of the input: untouched by
    REMOVE_EMPTY_ROWS, ENSURE_EQUAL_COLUMNS and COERCE_NUMERIC in every
    mode, with its cells trimmed or unquoted in place by TRIM_WHITESPACE and
    STRIP_WRAPPING_QUOTES.  This holds after each action, a single action
    being a plan of length one. *)
Theorem header_row_never_removed (row0 : Row) (rest : Table)
  (actions : list CleaningAction) (st : ApplyActionsResult) :
  applyActions (row0 :: rest) actions true = Normal st →
  (∃ rest', rows st = foldl headerEdit row0 actions :: rest')
  ∧ (Forall (λ a, a ≠ TRIM_WHITESPACE ∧ a ≠ STRIP_WRAPPING_QUOTES) actions →
     ∃ rest', rows st = row0 :: rest').
Proof.
  intros Hrun. apply applyLoop_header in Hrun. cbn in Hrun.
  assert (∃ rest', rows st = foldl headerEdit row0 actions :: rest')
    as [rest' Hrows].
  { destruct (rows st) as [|row rest']; [done|].
    injection Hrun as ->. by eexists. }
  split; [by eexists|]. intros Hkinds. exists rest'.
  by rewrite Hrows, foldl_headerEdit_id.
Qed.

Lemma header_row_never_removed_witness :
  let header := [lit "id"; lit "name"; lit "age"] in
  let table := [header; [lit "7"; []; []]; [lit "8"; lit "Bo"];
                [lit "9"; lit "Cy"; lit "n/a"]] in
  let plan := [REMOVE_EMPTY_ROWS; ENSURE_EQUAL_COLUMNS DropRowMode;
               COERCE_NUMERIC (Finite false 1 1) DropRow] in
  applyActions table plan true = Normal (mkResult [header] 0 3)
  ∧ ∃ rest', [header] = header :: rest'.
Proof.
  intros header table plan.
  assert (applyActions table plan true = Normal (mkResult [header] 0 3))
    as Hrun by (vm_compute; reflexivity).
  split; [exact Hrun|].
  apply (proj2 (header_row_never_removed header (tail table) plan _ Hrun)).
  repeat constructor; discriminate.
Defined.

(** Without a header row there is no row that is kept throughout the pass:
    REMOVE_EMPTY_ROWS drops the blank first row, and the
    ENSURE_EQUAL_COLUMNS action that follows in the same pass equalizes to
    the two cells of the new first row, not to the one cell the first row
    had when the pass began. *)
Example expected_columns_follow_first_row :
  let table := [[[]]; [lit "a"; lit "b"]; [lit "c"]] in
  let st := mkResult [[lit "a"; lit "b"]; [lit "c"]] 0 1 in
  applyActions table [REMOVE_EMPTY_ROWS] false = Normal st
  ∧ applyAction false st (ENSURE_EQUAL_COLUMNS PadWithEmpty)
    = Normal (mkResult [[lit "a"; lit "b"]; [lit "c"; []]] 1 1).
Proof. vm_compute. split_and!; done. Qed.


(** C3: in a pass over a table with a header row, every
    ENSURE_EQUAL_COLUMNS action equalizes to the number of cells the header
    row had when the pass began, whatever the actions before it in the pass
    did: when the action runs the header is still the first row and still
    has that many cells, every row the action returns has exactly that
    many cells, and the rows it returns are, in mode drop-row, the rows of
    that length and, in mode pad-with-empty, all rows fitted to that
    length. *)
Theorem header_column_count_authoritative (header : Row) (rest : Table)
  (pre : list CleaningAction) (mode : CleaningMode) (st : ApplyActionsResult) :
  applyActions (header :: rest) pre true = Normal st →
  (∃ header' rest',
     rows st = header' :: rest' ∧ length header' = length header)
  ∧ ∃ st',
      applyAction true st (ENSURE_EQUAL_COLUMNS mode) = Normal st'
      ∧ Forall (λ row, length row = length header) (rows st')
      ∧ rows st'
        = match mode with
          | DropRowMode =>
              filter (λ row, length row = length header) (rows st)
          | PadWithEmpty => map (fitRow (length header)) (rows st)
          end.
Proof.
  intros Hrun. apply applyLoop_header in Hrun. cbn [rows take] in Hrun.
  destruct (rows st) as [|header' rest'] eqn:Hrows; [done|].
  cbn in Hrun. injection Hrun as ->.
  pose proof (foldl_headerEdit_length pre header) as Hlen.
  split; [by eexists _, _|].
  unfold applyAction, ensureEqualColumns. rewrite Hrows.
  cbn [expectedColumnsOf]. rewrite Hlen. destruct mode.
  - rewrite collect_ensure_drop. eexists. split; [done|].
    cbn [rows]. split; [|done].
    apply list.Forall_forall. by intros row [? _]%list_elem_of_filter.
  - rewrite collect_ensure_pad. eexists. split; [done|].
    cbn [rows]. split; [|done].
    apply Forall_fmap, Forall_true. intros row. apply fitRow_length.
Qed.

Lemma header_column_count_authoritative_witness :
  let header := [lit " id "; lit "name"] in
  let rest := [[lit "x"; lit "y"; lit "z"]; [[]; []]; [lit "1"]] in
  let pre := [TRIM_WHITESPACE; REMOVE_EMPTY_ROWS] in
  let st := mkResult [[lit "id"; lit "name"]; [lit "x"; lit "y"; lit "z"];
                      [lit "1"]] 1 1 in
  applyActions (header :: rest) pre true = Normal st
  ∧ ∃ st',
      applyAction true st (ENSURE_EQUAL_COLUMNS DropRowMode) = Normal st'
      ∧ Forall (λ row, length row = 2) (rows st')
      ∧ rows st' = filter (λ row, length row = 2) (rows st).
Proof.
  intros header rest pre st.
  assert (applyActions (header :: rest) pre true = Normal st) as Hrun
    by (vm_compute; reflexivity).
  split; [exact Hrun|].
  exact (proj2 (header_column_count_authoritative header rest pre
                  DropRowMode st Hrun)).
Defined.





(** ** The numeric parse of COERCE_NUMERIC *)

Lemma isDigit_isLiteralChar (c : N) : isDigit c = true → isLiteralChar c = true.
Proof. unfold isLiteralChar. by intros ->. Qed.

Lemma hexValue_isLiteralChar (c : N) (v : Z) :
  hexValue c = Some v → isLiteralChar c = true.
Proof.
  unfold hexValue. destruct (isDigit c) eqn:Hd.
  { intros _. by apply isDigit_isLiteralChar. }
  destruct ((97 <=? c) && (c <=? 102))%N eqn:Hlow.
  { intros _. apply andb_true_iff in Hlow as [H1 H2].
    apply N.leb_le in H1, H2.
    assert (c = 97 ∨ c = 98 ∨ c = 99 ∨ c = 100 ∨ c = 101 ∨ c = 102)%N
      as Hc by lia.
    by repeat destruct Hc as [->|Hc]; try subst c. }
  destruct ((65 <=? c) && (c <=? 70))%N eqn:Hup; [|done].
  intros _. apply andb_true_iff in Hup as [H1 H2].
  apply N.leb_le in H1, H2.
  assert (c = 65 ∨ c = 66 ∨ c = 67 ∨ c = 68 ∨ c = 69 ∨ c = 70)%N
    as Hc by lia.
  by repeat destruct Hc as [->|Hc]; try subst c.
Qed.

(** [spanDigits] cuts the text in two, the first part made of digits. *)
Lemma spanDigits_spec (s ds rest : JsString) :
  spanDigits s = (ds, rest) →
  s = ds ++ rest ∧ Forall (λ c, isDigit c = true) ds.
Proof.
  revert ds rest. induction s as [|c s IH]; intros ds rest; cbn [spanDigits].
  - by intros [= <- <-].
  - destruct (isDigit c) eqn:Hc.
    + destruct (spanDigits s) as [ds' rest'].
      intros [= <- <-]. destruct (IH ds' rest' eq_refl) as [-> Hds].
      split; [done|]. by constructor.
    + by intros [= <- <-].
Qed.

Lemma digits_literalChars (ds : JsString) :
  Forall (λ c, isDigit c = true) ds →
  Forall (λ c, isLiteralChar c = true) ds.
Proof. induction 1; constructor; auto using isDigit_isLiteralChar. Qed.

Lemma takeSign_spec (s u : JsString) (neg : bool) :
  takeSign s = (neg, u) →
  s = u ∨ ∃ c, (c = 43 ∨ c = 45)%N ∧ s = c :: u.
Proof.
  destruct s as [|c s]; cbn [takeSign]; [intros [= <- <-]; by left|].
  destruct (N.eqb_spec c 43) as [->|_]; [intros [= <- <-]; right; eauto|].
  destruct (N.eqb_spec c 45) as [->|_]; [intros [= <- <-]; right; eauto|].
  intros [= <- <-]. by left.
Qed.

Lemma signed_literalChars (s u : JsString) (neg : bool) :
  takeSign s = (neg, u) →
  Forall (λ c, isLiteralChar c = true) u →
  Forall (λ c, isLiteralChar c = true) s.
Proof.
  intros Hsign Hu.
  destruct (takeSign_spec _ _ _ Hsign) as [->|(c & [-> | ->] & ->)];
    [done|by constructor..].
Qed.

Lemma parseExponentPart_chars (r : JsString) (e : Z) :
  parseExponentPart r = Some e → Forall (λ c, isLiteralChar c = true) r.
Proof.
  destruct r as [|c s1]; [by constructor|]. cbn [parseExponentPart].
  destruct ((c =? 101) || (c =? 69))%N eqn:Hc; [|done].
  destruct (takeSign s1) as [neg s2] eqn:Hsign.
  destruct (spanDigits s2) as [ds rest] eqn:Hspan.
  destruct ds as [|d ds]; [done|]. destruct rest; [|done]. intros _.
  destruct (spanDigits_spec _ _ _ Hspan) as [-> Hds].
  rewrite app_nil_r in Hsign. constructor.
  - apply orb_true_iff in Hc as [->%N.eqb_eq| ->%N.eqb_eq]; done.
  - eapply signed_literalChars; [done|]. by apply digits_literalChars.
Qed.

Lemma parseUnsignedDecimal_chars (u : JsString) (v : Z * Z) :
  parseUnsignedDecimal u = Some v → Forall (λ c, isLiteralChar c = true) u.
Proof.
  unfold parseUnsignedDecimal.
  destruct (spanDigits u) as [ip r1] eqn:Hip.
  destruct (spanDigits_spec _ _ _ Hip) as [-> Hipd].
  assert (∀ fp r2,
            match r1 with
            | [] => ([], [])
            | c :: r => if (c =? 46)%N then spanDigits r else ([], r1)
            end = (fp, r2) →
            is_Some (parseExponentPart r2) →
            Forall (λ c, isLiteralChar c = true) r1) as Hr1.
  { intros fp r2 Hfp [e He]. destruct r1 as [|c r]; [by constructor|].
    destruct (N.eqb_spec c 46) as [->|_].
    - destruct (spanDigits_spec _ _ _ Hfp) as [-> Hfpd].
      constructor; [done|]. apply Forall_app. split.
      + by apply digits_literalChars.
      + by eapply parseExponentPart_chars.
    - injection Hfp as <- <-. by eapply parseExponentPart_chars. }
  destruct (match r1 with
            | [] => _
            | _ :: _ => _
            end) as [fp r2].
  destruct (ip ++ fp); [done|].
  destruct (parseExponentPart r2) as [e|] eqn:He; [|done]. intros _.
  apply Forall_app. split; [by apply digits_literalChars|].
  by eapply Hr1.
Qed.

Lemma parseStrDecimalLiteral_chars (s : JsString) (v : MathValue) :
  parseStrDecimalLiteral s = Some v → Forall (λ c, isLiteralChar c = true) s.
Proof.
  unfold parseStrDecimalLiteral.
  destruct (takeSign s) as [neg u] eqn:Hsign.
  case_bool_decide as Hinf.
  - intros _. eapply signed_literalChars; [done|]. rewrite Hinf.
    by repeat constructor.
  - destruct (parseUnsignedDecimal u) as [[m e]|] eqn:Hu; [|done]. intros _.
    eapply signed_literalChars; [done|]. by eapply parseUnsignedDecimal_chars.
Qed.

Lemma digitsValue_chars (radix acc : Z) (ds : JsString) (v : Z) :
  digitsValue radix acc ds = Some v → Forall (λ c, isLiteralChar c = true) ds.
Proof.
  revert acc. induction ds as [|c ds IH]; intros acc; [by constructor|].
  cbn [digitsValue]. destruct (hexValue c) as [d|] eqn:Hc; [|done].
  destruct (d <? radix)%Z; [|done]. intros Hrest.
  constructor; [by eapply hexValue_isLiteralChar|by eapply IH].
Qed.

Lemma parseNonDecimalIntegerLiteral_chars (s : JsString) (v : MathValue) :
  parseNonDecimalIntegerLiteral s = Some v →
  Forall (λ c, isLiteralChar c = true) s.
Proof.
  destruct s as [|z [|x [|d ds]]]; try done. cbn [parseNonDecimalIntegerLiteral].
  destruct (N.eqb_spec z 48) as [->|_]; [|done].
  assert (isLiteralChar x = true ∨
          (if ((x =? 120) || (x =? 88))%N then Some 16%Z
           else if ((x =? 111) || (x =? 79))%N then Some 8%Z
           else if ((x =? 98) || (x =? 66))%N then Some 2%Z
           else None) = None) as [Hx| ->]; [| |done].
  { destruct (N.eqb_spec x 120) as [->|_]; [by left|].
    destruct (N.eqb_spec x 88) as [->|_]; [by left|].
    destruct (N.eqb_spec x 111) as [->|_]; [by left|].
    destruct (N.eqb_spec x 79) as [->|_]; [by left|].
    destruct (N.eqb_spec x 98) as [->|_]; [by left|].
    destruct (N.eqb_spec x 66) as [->|_]; [by left|].
    by right. }
  destruct (if (_ || _)%N then _ else _) as [r|]; [|done].
  destruct (digitsValue r 0 (d :: ds)) as [n|] eqn:Hds; [|done]. intros _.
  repeat (constructor; [done|]). by eapply digitsValue_chars.
Qed.

(** Every character of a text that the grammar accepts is a literal
    character. *)
Lemma parseStrNumericLiteral_chars (s : JsString) (v : MathValue) :
  parseStrNumericLiteral s = Some v → Forall (λ c, isLiteralChar c = true) s.
Proof.
  unfold parseStrNumericLiteral.
  destruct (parseStrDecimalLiteral s) as [v'|] eqn:Hdec.
  - intros _. by eapply parseStrDecimalLiteral_chars.
  - apply parseNonDecimalIntegerLiteral_chars.
Qed.

(** A text with another character left after trimming is read as NaN. *)
Lemma StringToNumber_NaN (value : JsString) (c : N) :
  c ∈ trim value → isLiteralChar c = false →
  isNaN (StringToNumber value) = true.
Proof.
  intros Hin Hc. unfold StringToNumber.
  destruct (trim value) as [|d t] eqn:Htrim; [by apply elem_of_nil in Hin|].
  destruct (parseStrNumericLiteral (d :: t)) as [v|] eqn:Hparse; [|done].
  apply parseStrNumericLiteral_chars in Hparse.
  rewrite list.Forall_forall in Hparse. apply Hparse in Hin. congruence.
Qed.

Lemma NumberToString_no_plus (x : JsNumber) (s : JsString) :
  NumberToString x ≠ Ch.PLUS :: s.
Proof.
  unfold NumberToString. destruct (canonical x) as [|neg|neg|neg m e].
  - by cbv.
  - destruct neg; by cbv.
  - by cbv.
  - destruct (shortest m e) as [d n].
    destruct (formatDecimal_parses (decimalDigits (Z.to_pos d)) n)
      as [_ Hhead];
      [apply decimalDigits_nonempty|apply decimalDigits_digits|].
    destruct neg; [by cbv|].
    destruct (formatDecimal _ n) as [|c t]; [done|].
    cbn in Hhead |- *. intros [= -> _]. done.
Qed.


(** *** The parser accepts the StrNumericLiteral grammar and nothing else *)

Lemma takeSign_digits (ds : JsString) :
  startsWithDigit ds → takeSign ds = (false, ds).
Proof.
  destruct ds as [|c ds]; [done|]. simpl. intros Hc. unfold takeSign.
  destruct (N.eqb_spec c 43) as [->|_]; [done|].
  by destruct (N.eqb_spec c 45) as [->|_].
Qed.

Lemma DecimalDigits_startsWithDigit (ds : JsString) :
  DecimalDigits ds → startsWithDigit ds.
Proof. intros [Hne Hds]. by destruct Hds. Qed.

Lemma SignedInteger_takeSign (s : JsString) :
  SignedInteger s → ∃ neg ds, takeSign s = (neg, ds) ∧ DecimalDigits ds.
Proof.
  intros [ds Hds|ds Hds|ds Hds].
  - exists false, ds. split; [|done].
    by apply takeSign_digits, DecimalDigits_startsWithDigit.
  - by exists false, ds.
  - by exists true, ds.
Qed.

Lemma ExponentPartOpt_parsed (ex : JsString) :
  ExponentPartOpt ex → is_Some (parseExponentPart ex).
Proof.
  intros [|s Hs|s Hs]; [by eexists|..];
    destruct (SignedInteger_takeSign s Hs) as (neg & ds & Hsign & Hne & Hds);
    cbn -[spanDigits decimalValue takeSign]; rewrite Hsign;
    rewrite spanDigits_all by done; (destruct ds; [done|]); by eexists.
Qed.

Lemma ExponentPartOpt_startsNoDigit (ex : JsString) :
  ExponentPartOpt ex → startsNoDigit ex.
Proof. by intros [|s Hs|s Hs]. Qed.

Lemma ExponentPartOpt_no_point (ex : JsString) :
  ExponentPartOpt ex →
  match ex with
  | [] => ([], [])
  | c :: r => if (c =? 46)%N then spanDigits r else ([], ex)
  end = ([], ex).
Proof. by intros [|s Hs|s Hs]. Qed.

Lemma parseUnsignedDecimal_integer (ip ex : JsString) :
  DecimalDigits ip → ExponentPartOpt ex →
  is_Some (parseUnsignedDecimal (ip ++ ex)).
Proof.
  intros [Hne Hip] Hex. unfold parseUnsignedDecimal.
  rewrite spanDigits_app by auto using ExponentPartOpt_startsNoDigit.
  rewrite ExponentPartOpt_no_point by done.
  destruct (ExponentPartOpt_parsed ex Hex) as [e He].
  rewrite app_nil_r, He. destruct ip; [done|]. by eexists.
Qed.

Lemma parseUnsignedDecimal_point (ip fp ex : JsString) :
  Forall (λ c, isDigit c = true) ip → Forall (λ c, isDigit c = true) fp →
  ip ++ fp ≠ [] → ExponentPartOpt ex →
  is_Some (parseUnsignedDecimal (ip ++ 46%N :: fp ++ ex)).
Proof.
  intros Hip Hfp Hne Hex. unfold parseUnsignedDecimal.
  rewrite spanDigits_app by done. cbn -[spanDigits].
  rewrite spanDigits_app by auto using ExponentPartOpt_startsNoDigit.
  destruct (ExponentPartOpt_parsed ex Hex) as [e ->].
  destruct (ip ++ fp); [done|]. by eexists.
Qed.

Lemma parseUnsignedDecimal_complete (u : JsString) :
  StrUnsignedDecimalLiteral u →
  u = lit "Infinity" ∨ is_Some (parseUnsignedDecimal u).
Proof.
  intros [|ip fp ex [Hne Hip] Hfp Hex|fp ex [Hne Hfp] Hex|ip ex Hip Hex].
  - by left.
  - right. apply parseUnsignedDecimal_point; [done..| |done].
    by destruct ip.
  - right. by apply (parseUnsignedDecimal_point []).
  - right. by apply parseUnsignedDecimal_integer.
Qed.

Lemma StrUnsignedDecimalLiteral_takeSign (u : JsString) :
  StrUnsignedDecimalLiteral u → takeSign u = (false, u).
Proof.
  intros [|ip fp ex [Hne Hip] Hfp Hex|fp ex [Hne Hfp] Hex|ip ex [Hne Hip] Hex];
    [done| |done|].
  all: destruct Hip as [|d ip' Hd _]; [done|].
  all: by apply takeSign_digits.
Qed.

Lemma parseStrDecimalLiteral_unsigned_literal (neg : bool) (u : JsString) :
  StrUnsignedDecimalLiteral u →
  is_Some (if bool_decide (u = lit "Infinity") then Some (MVInfinity neg)
           else match parseUnsignedDecimal u with
                | Some (m, e) => Some (MVDecimal neg m e)
                | None => None
                end).
Proof.
  intros Hu. case_bool_decide as Hinf; [by eexists|].
  destruct (parseUnsignedDecimal_complete u Hu) as [?|[[m e] ->]]; [done|].
  by eexists.
Qed.

Lemma parseStrDecimalLiteral_complete (s : JsString) :
  StrDecimalLiteral s → is_Some (parseStrDecimalLiteral s).
Proof.
  intros [u Hu|u Hu|u Hu]; unfold parseStrDecimalLiteral.
  - rewrite StrUnsignedDecimalLiteral_takeSign by done.
    by apply parseStrDecimalLiteral_unsigned_literal.
  - cbn [takeSign N.eqb Pos.eqb].
    by apply parseStrDecimalLiteral_unsigned_literal.
  - cbn [takeSign N.eqb Pos.eqb].
    by apply parseStrDecimalLiteral_unsigned_literal.
Qed.

Lemma parseExponentPart_sound (r : JsString) (e : Z) :
  parseExponentPart r = Some e → ExponentPartOpt r.
Proof.
  destruct r as [|c s1]; [constructor|]. cbn [parseExponentPart].
  destruct ((c =? 101) || (c =? 69))%N eqn:Hc; [|done].
  destruct (takeSign s1) as [neg s2] eqn:Hsign.
  destruct (spanDigits s2) as [ds rest] eqn:Hspan.
  destruct ds as [|d ds]; [done|]. destruct rest; [|done]. intros _.
  destruct (spanDigits_spec _ _ _ Hspan) as [-> Hds].
  rewrite app_nil_r in Hsign.
  assert (DecimalDigits (d :: ds)) as Hdigits by done.
  assert (SignedInteger s1) as Hs1.
  { destruct (takeSign_spec _ _ _ Hsign) as [->|(sg & [-> | ->] & ->)];
      by constructor. }
  apply orb_true_iff in Hc as [->%N.eqb_eq| ->%N.eqb_eq]; by constructor.
Qed.

Lemma parseUnsignedDecimal_sound (u : JsString) (v : Z * Z) :
  parseUnsignedDecimal u = Some v → StrUnsignedDecimalLiteral u.
Proof.
  unfold parseUnsignedDecimal.
  destruct (spanDigits u) as [ip r1] eqn:Hip.
  destruct (spanDigits_spec _ _ _ Hip) as [-> Hipd].
  destruct r1 as [|c r].
  - rewrite app_nil_r. destruct ip as [|d ip']; [done|]. intros _.
    rewrite <- (app_nil_r (d :: ip')).
    apply Unsigned_integer; [done|constructor].
  - destruct (N.eqb_spec c 46) as [->|Hc].
    + destruct (spanDigits r) as [fp r2] eqn:Hfp.
      destruct (spanDigits_spec _ _ _ Hfp) as [-> Hfpd].
      destruct (ip ++ fp) as [|d ds] eqn:Hne; [done|].
      destruct (parseExponentPart r2) as [e|] eqn:He; [|done]. intros _.
      apply parseExponentPart_sound in He.
      destruct ip as [|d' ip'].
      * apply Unsigned_fraction; [|done]. split; [|done].
        simpl in Hne. by rewrite Hne.
      * by apply Unsigned_point.
    + rewrite app_nil_r. destruct ip as [|d ip']; [done|].
      destruct (parseExponentPart (c :: r)) as [e|] eqn:He; [|done].
      intros _. apply parseExponentPart_sound in He.
      by apply Unsigned_integer.
Qed.

Lemma parseStrDecimalLiteral_sound (s : JsString) (v : MathValue) :
  parseStrDecimalLiteral s = Some v → StrDecimalLiteral s.
Proof.
  unfold parseStrDecimalLiteral.
  destruct (takeSign s) as [neg u] eqn:Hsign. intros Hv.
  assert (StrUnsignedDecimalLiteral u) as Hu.
  { case_bool_decide as Hinf; [rewrite Hinf; constructor|].
    destruct (parseUnsignedDecimal u) as [[m e]|] eqn:Hu; [|done].
    by eapply parseUnsignedDecimal_sound. }
  destruct (takeSign_spec _ _ _ Hsign) as [->|(sg & [-> | ->] & ->)];
    by constructor.
Qed.

(** The digits of each radix, through their values. *)
Lemma hexValue_hex (c : N) :
  isHexDigit c = true ↔ ∃ v, hexValue c = Some v ∧ (v < 16)%Z.
Proof.
  unfold isHexDigit, hexValue, isDigit.
  destruct (N.leb_spec 48 c), (N.leb_spec c 57), (N.leb_spec 97 c),
    (N.leb_spec c 102), (N.leb_spec 65 c), (N.leb_spec c 70);
    cbn [andb orb]; (split; [intros ?|intros (v & ? & ?)]);
    try done; try lia; eexists; (split; [done|lia]).
Qed.

Lemma hexValue_octal (c : N) :
  isOctalDigit c = true ↔ ∃ v, hexValue c = Some v ∧ (v < 8)%Z.
Proof.
  unfold isOctalDigit, hexValue, isDigit.
  destruct (N.leb_spec 48 c), (N.leb_spec c 57), (N.leb_spec 97 c),
    (N.leb_spec c 102), (N.leb_spec 65 c), (N.leb_spec c 70),
    (N.leb_spec c 55);
    cbn [andb orb]; (split; [intros ?|intros (v & ? & ?)]);
    try done; try lia; simplify_eq; try lia; eexists; (split; [done|lia]).
Qed.

Lemma hexValue_binary (c : N) :
  isBinaryDigit c = true ↔ ∃ v, hexValue c = Some v ∧ (v < 2)%Z.
Proof.
  unfold isBinaryDigit, hexValue, isDigit.
  destruct (N.eqb_spec c 48) as [->|?]; [split; [by eexists|done]|].
  destruct (N.eqb_spec c 49) as [->|?]; [split; [by eexists|done]|].
  destruct (N.leb_spec 48 c), (N.leb_spec c 57), (N.leb_spec 97 c),
    (N.leb_spec c 102), (N.leb_spec 65 c), (N.leb_spec c 70);
    cbn [andb orb]; (split; [done|intros (v & ? & ?)]);
    try done; simplify_eq; lia.
Qed.

Lemma digitsValue_radix (radix acc : Z) (ds : JsString) :
  is_Some (digitsValue radix acc ds)
  ↔ Forall (λ c, ∃ v, hexValue c = Some v ∧ (v < radix)%Z) ds.
Proof.
  revert acc. induction ds as [|c ds IH]; intros acc; cbn [digitsValue].
  { split; [constructor|by eexists]. }
  rewrite list.Forall_cons.
  destruct (hexValue c) as [v|] eqn:Hc.
  - destruct (Z.ltb_spec v radix) as [Hv|Hv].
    + rewrite IH. split; [intros Hds|by intros [_ Hds]].
      split; [by exists v|done].
    + split; [by intros [? ?]|]. intros [(v' & [= <-] & ?) _]. lia.
  - split; [by intros [? ?]|]. by intros [(v' & ? & ?) _].
Qed.

Lemma parseNonDecimalIntegerLiteral_grammar (s : JsString) :
  is_Some (parseNonDecimalIntegerLiteral s) ↔ NonDecimalIntegerLiteral s.
Proof.
  split.
  - destruct s as [|z [|x [|d ds]]]; try by intros [? ?].
    cbn [parseNonDecimalIntegerLiteral].
    destruct (N.eqb_spec z 48) as [->|_]; [|by intros [? ?]].
    set (text := d :: ds).
    assert (text ≠ []) as Hne by done. clearbody text.
    assert (∀ r,
              is_Some (match digitsValue r 0 text with
                       | Some v => Some (MVDecimal false v 0)
                       | None => None
                       end) →
              Forall (λ c, ∃ v, hexValue c = Some v ∧ (v < r)%Z) text)
      as Hdigits.
    { intros r Hr. apply (digitsValue_radix r 0).
      destruct (digitsValue r 0 text); [by eexists|by destruct Hr]. }
    destruct (N.eqb_spec x 120) as [->|_]; cbn [orb].
    { intros H%Hdigits. apply NonDecimal_hex; [by left|done|].
      eapply Forall_impl; [|exact H]. intros c. apply hexValue_hex. }
    destruct (N.eqb_spec x 88) as [->|_]; cbn [orb].
    { intros H%Hdigits. apply NonDecimal_hex; [by right|done|].
      eapply Forall_impl; [|exact H]. intros c. apply hexValue_hex. }
    destruct (N.eqb_spec x 111) as [->|_]; cbn [orb].
    { intros H%Hdigits. apply NonDecimal_octal; [by left|done|].
      eapply Forall_impl; [|exact H]. intros c. apply hexValue_octal. }
    destruct (N.eqb_spec x 79) as [->|_]; cbn [orb].
    { intros H%Hdigits. apply NonDecimal_octal; [by right|done|].
      eapply Forall_impl; [|exact H]. intros c. apply hexValue_octal. }
    destruct (N.eqb_spec x 98) as [->|_]; cbn [orb].
    { intros H%Hdigits. apply NonDecimal_binary; [by left|done|].
      eapply Forall_impl; [|exact H]. intros c. apply hexValue_binary. }
    destruct (N.eqb_spec x 66) as [->|_]; cbn [orb].
    { intros H%Hdigits. apply NonDecimal_binary; [by right|done|].
      eapply Forall_impl; [|exact H]. intros c. apply hexValue_binary. }
    by intros [? ?].
  - assert (∀ r text,
              Forall (λ c, ∃ v, hexValue c = Some v ∧ (v < r)%Z) text →
              is_Some (match digitsValue r 0 text with
                       | Some v => Some (MVDecimal false v 0)
                       | None => None
                       end)) as Hdigits.
    { intros r text [v Hv]%(digitsValue_radix r 0). rewrite Hv. by eexists. }
    intros [x ds Hx Hne Hds|x ds Hx Hne Hds|x ds Hx Hne Hds];
      (destruct ds as [|d ds]; [done|]);
      destruct Hx as [-> | ->];
      cbn [parseNonDecimalIntegerLiteral N.eqb Pos.eqb orb];
      apply Hdigits; (eapply Forall_impl; [|exact Hds]); intros c;
      first [apply hexValue_hex|apply hexValue_octal|apply hexValue_binary].
Qed.

(** The texts the parser accepts are those of the grammar. *)
Lemma parseStrNumericLiteral_grammar (s : JsString) :
  is_Some (parseStrNumericLiteral s) ↔ StrNumericLiteral s.
Proof.
  unfold parseStrNumericLiteral, StrNumericLiteral. split.
  - destruct (parseStrDecimalLiteral s) as [v|] eqn:Hdec.
    + intros _. left. by eapply parseStrDecimalLiteral_sound.
    + intros H. right. by apply parseNonDecimalIntegerLiteral_grammar.
  - intros [Hdec|Hnon].
    + destruct (parseStrDecimalLiteral_complete s Hdec) as [v ->].
      by eexists.
    + destruct (parseStrDecimalLiteral s); [by eexists|].
      by apply parseNonDecimalIntegerLiteral_grammar.
Qed.

(** [Number] reads a trimmed text that is not empty as a number exactly
    when the text is a StrNumericLiteral. *)
Lemma StringToNumber_grammar (value : JsString) :
  trim value ≠ [] →
  isNaN (StringToNumber (trim value)) = false
  ↔ StrNumericLiteral (trim value).
Proof.
  intros Hne. unfold StringToNumber. rewrite trim_idem.
  rewrite <- parseStrNumericLiteral_grammar.
  destruct (trim value) as [|c t]; [done|].
  destruct (parseStrNumericLiteral (c :: t)) as [v|].
  - split; [by eexists|]. intros _. apply toNumber_not_NaN.
  - split; [done|]. by intros [? ?].
Qed.

(** C6, as the specification states it, fails: the trimmed text [+5] has a
    leading plus sign, yet the parse succeeds and the cell is rewritten to
    [5] instead of going to the [onError] branch; the parse also accepts
    texts that are no decimal-float literals, such as the hexadecimal
    [0x10]. *)
Lemma leading_plus_is_parsed :
  startsWith (trim (lit "+5")) Ch.PLUS = true
  ∧ isNaN (StringToNumber (trim (lit "+5"))) = false
  ∧ coerceCell DropRow (lit "+5") = Rewrite (lit "5")
  ∧ coerceCell SetZero (lit "+5") = Rewrite (lit "5")
  ∧ coerceCell SetZero (lit "0x10") = Rewrite (lit "16").
Proof. by vm_compute. Qed.

(** C6, amended: the numeric parse of COERCE_NUMERIC is [Number] applied to
    the trimmed cell.  For a cell whose trimmed text is not empty the parse
    succeeds exactly when that text is a StrNumericLiteral of ECMAScript:
    a decimal literal with an optional sign [+] or [-] ([Infinity]
    included), or an unsigned [0x], [0o] or [0b] integer literal.  When it
    succeeds the [onError] branch is not applied: the cell is rewritten to
    the text of the number, or left alone when it is that text already;
    when it fails the [onError] branch is applied.  A leading plus sign is
    accepted: a cell whose trimmed text is [+] followed by decimal digits
    is parsed and rewritten to the text of the number.  Thousands
    separators and decimal commas are rejected: a cell that contains a
    comma, or any other character that no numeric literal contains, is not
    parsed and goes to the [onError] branch. *)
Theorem number_parse_rule (oe : CoerceOnError) :
  (∀ value,
     trim value ≠ [] →
     (isNaN (StringToNumber (trim value)) = false
      ↔ StrNumericLiteral (trim value))
     ∧ (StrNumericLiteral (trim value) →
        coerceCell oe value
        = if bool_decide (NumberToString (StringToNumber (trim value)) = value)
          then Skip
          else Rewrite (NumberToString (StringToNumber (trim value))))
     ∧ (¬ StrNumericLiteral (trim value) →
        coerceCell oe value = onErrorVerdict oe))
  ∧ (∀ value ds,
       trim value = Ch.PLUS :: ds → DecimalDigits ds →
       isNaN (StringToNumber (trim value)) = false
       ∧ coerceCell oe value
         = Rewrite (NumberToString (StringToNumber (trim value))))
  ∧ (∀ value c,
       c ∈ value → isWhiteSpace c = false → isLiteralChar c = false →
       isNaN (StringToNumber (trim value)) = true
       ∧ coerceCell oe value = onErrorVerdict oe)
  ∧ (∀ value,
       Ch.COMMA ∈ value →
       isNaN (StringToNumber (trim value)) = true
       ∧ coerceCell oe value = onErrorVerdict oe).
Proof.
  assert (∀ value,
            trim value ≠ [] →
            coerceCell oe value
            = if isNaN (StringToNumber (trim value)) then onErrorVerdict oe
              else if bool_decide
                        (NumberToString (StringToNumber (trim value)) = value)
                   then Skip
                   else Rewrite (NumberToString (StringToNumber (trim value))))
    as Hcell.
  { intros value Hne. unfold coerceCell. cbv zeta.
    destruct (trim value) as [|d t] eqn:Htrim; [done|].
    cbn [length Nat.eqb]. destruct (isNaN _); [done|].
    by repeat case_bool_decide. }
  assert (∀ value c,
            c ∈ value → isWhiteSpace c = false → isLiteralChar c = false →
            isNaN (StringToNumber (trim value)) = true
            ∧ coerceCell oe value = onErrorVerdict oe) as Hreject.
  { intros value c Hin Hws Hc.
    pose proof (trim_keeps value c Hws Hin) as Hin'.
    assert (isNaN (StringToNumber (trim value)) = true) as Hnan.
    { apply (StringToNumber_NaN _ c); [by rewrite trim_idem|done]. }
    split; [done|]. rewrite Hcell, Hnan; [done|].
    intros Hnil. rewrite Hnil in Hin'. by apply elem_of_nil in Hin'. }
  split_and!;
    [|
     |exact Hreject
     |intros value Hin; by apply (Hreject value Ch.COMMA)].
  - intros value Hne. pose proof (StringToNumber_grammar value Hne) as Hiff.
    split_and!; [done|..]; intros Hlit; rewrite Hcell by done.
    + apply Hiff in Hlit. by rewrite Hlit.
    + destruct (isNaN (StringToNumber (trim value))); [done|].
      destruct Hlit. by apply Hiff.
  - intros value ds Htrim Hds.
    assert (trim value ≠ []) as Hne by by rewrite Htrim.
    assert (StrNumericLiteral (trim value)) as Hlit.
    { left. rewrite Htrim. apply Decimal_plus.
      rewrite <- (app_nil_r ds). apply Unsigned_integer; [done|constructor]. }
    apply (StringToNumber_grammar value Hne) in Hlit.
    split; [done|]. rewrite Hcell, Hlit by done.
    rewrite bool_decide_eq_false_2; [done|]. intros Heq.
    pose proof (trim_NumberToString (StringToNumber (trim value))) as Hclean.
    rewrite Heq, Htrim in Hclean. rewrite <- Hclean in Heq.
    by apply NumberToString_no_plus in Heq.
Qed.


Lemma number_parse_rule_witness :
  coerceCell SetZero (lit " +5 ") = Rewrite (lit "5")
  ∧ coerceCell SetZero (lit "-Infinity") = Skip
  ∧ coerceCell SetZero (lit "1e3") = Rewrite (lit "1000")
  ∧ coerceCell SetZero (lit "1,000") = Rewrite (lit "0").
Proof.
  split_and!.
  - apply (proj1 (proj2 (number_parse_rule SetZero)) (lit " +5 ") (lit "5"));
      [reflexivity|]. split; [discriminate|by repeat constructor].
  - apply (proj1 (proj2 (proj1 (number_parse_rule SetZero) (lit "-Infinity")
                           ltac:(discriminate)))).
    left. apply Decimal_minus, Unsigned_Infinity.
  - apply (proj1 (proj2 (proj1 (number_parse_rule SetZero) (lit "1e3")
                           ltac:(discriminate)))).
    left. apply Decimal_plain.
    apply (Unsigned_integer (lit "1") (lit "e3"));
      [split; [discriminate|by repeat constructor]|].
    apply ExponentPart_lower, SignedInteger_plain.
    split; [discriminate|by repeat constructor].
  - apply (proj2 (proj2 (proj2 (number_parse_rule SetZero))) (lit "1,000")).
    apply list_elem_of_In. vm_compute. tauto.
Defined.


(** ** The pre-clean plan *)

Lemma mapCells_rows (f : JsString → JsString * bool) (t : Table) :
  (mapCells f t).1 = map (map (λ cell, (f cell).1)) t.
Proof. done. Qed.

Lemma filter_flagged_none (f : JsString → JsString * bool) (row : Row) :
  length (filter (λ cell, (f cell).2 = true) row) = 0
  ↔ Forall (λ cell, (f cell).2 = false) row.
Proof.
  induction row as [|cell row IH]; [split; [constructor|done]|].
  rewrite filter_cons, list.Forall_cons, <- IH.
  destruct (decide ((f cell).2 = true)) as [Hflag|Hflag].
  - rewrite Hflag. cbn. split; [lia|intros [[=] _]].
  - apply not_true_is_false in Hflag. rewrite Hflag.
    split; [done|by intros [_ ?]].
Qed.

(** The counter of a cell-wise action is zero exactly when no cell was
    flagged as changed. *)
Lemma mapCells_count_zero (f : JsString → JsString * bool) (t : Table) :
  (mapCells f t).2 = 0 ↔ Forall (Forall (λ cell, (f cell).2 = false)) t.
Proof.
  unfold mapCells. cbn [snd].
  induction t as [|row t IH]; [split; [constructor|done]|].
  rewrite list.Forall_cons, <- IH, <- filter_flagged_none.
  cbn [map sum_list_with]. unfold id. lia.
Qed.

Lemma map_map_id (g : JsString → JsString) (t : Table) :
  Forall (Forall (λ cell, g cell = cell)) t → map (map g) t = t.
Proof.
  induction 1 as [|row t Hrow _ IH]; [done|]. cbn. rewrite IH. f_equal.
  induction Hrow as [|cell row Hcell _ IHrow]; [done|]. cbn. by rewrite Hcell, IHrow.
Qed.

Lemma stripCell_unchanged (cell : JsString) :
  (stripCell cell).2 = false → (stripCell cell).1 = cell.
Proof. unfold stripCell. by destruct (_ && _). Qed.

Lemma trimCell_unchanged (cell : JsString) :
  trim cell = cell → trimCell cell = (cell, false).
Proof.
  intros Htrim. unfold trimCell. rewrite Htrim.
  by rewrite bool_decide_eq_false_2 by (by intros ?).
Qed.

(** What REMOVE_EMPTY_ROWS collects: no change is counted, the rows kept are
    rows of the table, and nothing is dropped exactly when the drop counter
    stays at zero, in which case the table is left as it is. *)
Lemma collect_keep_or_drop (g : nat → Row → RowOutcome) (t : Table) :
  (∀ i row, g i row = Kept row ∨ g i row = Dropped) →
  (collect (imap g t)).1.2 = 0
  ∧ (∀ P : Row → Prop, Forall P t → Forall P (collect (imap g t)).1.1)
  ∧ (forallb (λ o, match o with
                   | Dropped => false
                   | _ => true
                   end) (imap g t) = true
     ↔ (collect (imap g t)).2 = 0)
  ∧ ((collect (imap g t)).2 = 0 → (collect (imap g t)).1.1 = t).
Proof.
  revert g. induction t as [|row t IH]; intros g Hg.
  { cbn. by split_and!. }
  cbn [imap collect forallb].
  destruct (IH (g ∘ S)) as (Hch & Hsub & Hdrop & Hsame);
    [intros i row'; apply Hg|].
  destruct (collect (imap (g ∘ S) t)) as [[t' ch] dr]. cbn in Hch, Hsub, Hdrop, Hsame.
  destruct (Hg 0 row) as [-> | ->]; cbn.
  - split_and!; [done| |done|by intros ->%Hsame].
    intros P [Hrow Ht]%list.Forall_cons. constructor; [done|by apply Hsub].
  - split_and!; [done| |done|done].
    intros P [_ Ht]%list.Forall_cons. by apply Hsub.
Qed.

Lemma removeEmptyRow_keep_or_drop (hasHeader : bool) (i : nat) (row : Row) :
  removeEmptyRow hasHeader i row = Kept row
  ∨ removeEmptyRow hasHeader i row = Dropped.
Proof.
  unfold removeEmptyRow. destruct (_ && _); [by left|].
  destruct (allEmpty row); [by right|by left].
Qed.

(** ENSURE_EQUAL_COLUMNS has nothing to do on rows of the expected length. *)
Lemma collect_ensure_equal (mode : CleaningMode) (n : nat) (t : Table) :
  Forall (λ row, length row = n) t →
  collect (map (ensureRow mode n) t) = (t, 0, 0).
Proof.
  induction 1 as [|row t <- _ IH]; [done|].
  cbn [map collect]. by rewrite IH, ensureRow_same_length.
Qed.

Lemma ensureEqualColumns_counters (mode : CleaningMode) (n : nat)
  (st : ApplyActionsResult) :
  rowsChanged st ≤ rowsChanged (ensureEqualColumns mode n st)
  ∧ rowsDropped st ≤ rowsDropped (ensureEqualColumns mode n st).
Proof.
  unfold ensureEqualColumns. destruct (collect _) as [[t ch] dr]. cbn. lia.
Qed.

Lemma ensureEqualColumns_pad_rows (n : nat) (st : ApplyActionsResult) :
  rows (ensureEqualColumns PadWithEmpty n st) = map (fitRow n) (rows st).
Proof.
  unfold ensureEqualColumns.
  pose proof (collect_ensure_pad_rows n (rows st)) as Hrows.
  by destruct (collect _) as [[t ch] dr].
Qed.

(** The pre-clean pass, step by step; it always returns. *)
Lemma preClean_run (t : Table) (hasHeader : bool) :
  applyActions t preCleanActions hasHeader
  = let stripped := mapCells stripCell t in
    let trimmed := mapCells trimCell stripped.1 in
    let kept := collect (imap (removeEmptyRow hasHeader) trimmed.1) in
    Normal (ensureEqualColumns PadWithEmpty (expectedColumnsOf kept.1.1)
              (mkResult kept.1.1 (stripped.2 + trimmed.2) kept.2)).
Proof.
  unfold applyActions, preCleanActions. cbn [applyLoop applyAction].
  unfold mapCells.
  cbn [mbind Completion_bind rows rowsChanged rowsDropped fst snd].
  by destruct (collect _) as [[t3 c3] d3].
Qed.

Lemma fitRow_trimmed (n : nat) (row : Row) :
  Forall (λ cell, trim cell = cell) row →
  Forall (λ cell, trim cell = cell) (fitRow n row).
Proof.
  intros Hrow. unfold fitRow. destruct (length row <? n).
  - apply Forall_app. split; [done|]. by apply Forall_replicate.
  - by apply Forall_take.
Qed.

(** What a pre-clean pass returns: every cell is trimmed, and every row has
    the column count of the first row. *)
Lemma preClean_output (t : Table) (hasHeader : bool)
  (st1 : ApplyActionsResult) :
  applyActions t preCleanActions hasHeader = Normal st1 →
  Forall (Forall (λ cell, trim cell = cell)) (rows st1)
  ∧ Forall (λ row, length row = expectedColumnsOf (rows st1)) (rows st1).
Proof.
  rewrite preClean_run. cbv zeta.
  set (t2 := (mapCells trimCell (mapCells stripCell t).1).1).
  assert (Forall (Forall (λ cell, trim cell = cell)) t2) as Htrimmed.
  { subst t2. rewrite mapCells_rows. apply Forall_fmap, Forall_true.
    intros row. apply Forall_fmap, Forall_true. intros cell. cbn.
    apply trim_idem. }
  destruct (collect_keep_or_drop (removeEmptyRow hasHeader) t2)
    as (_ & Hsub & _); [apply removeEmptyRow_keep_or_drop|].
  apply Hsub in Htrimmed. clear Hsub.
  set (t3 := (collect (imap (removeEmptyRow hasHeader) t2)).1.1) in *.
  clearbody t3.
  generalize ((mapCells stripCell t).2
              + (mapCells trimCell (mapCells stripCell t).1).2).
  generalize ((collect (imap (removeEmptyRow hasHeader) t2)).2).
  intros dropped changed [= <-].
  rewrite ensureEqualColumns_pad_rows. cbn [rows]. split.
  - apply Forall_fmap. eapply list.Forall_impl; [exact Htrimmed|].
    intros row. apply fitRow_trimmed.
  - assert (expectedColumnsOf (map (fitRow (expectedColumnsOf t3)) t3)
            = expectedColumnsOf t3) as ->.
    { destruct t3 as [|row0 rest]; [done|]. cbn. apply fitRow_length. }
    apply Forall_fmap, Forall_true. intros row. apply fitRow_length.
Qed.

(** On a table of trimmed cells and equally long rows, a pre-clean pass
    changes nothing exactly when its first three steps find nothing to
    do. *)
Lemma preClean_settled (t : Table) (hasHeader : bool) :
  Forall (Forall (λ cell, trim cell = cell)) t →
  Forall (λ row, length row = expectedColumnsOf t) t →
  applyActions t preCleanActions hasHeader = Normal (mkResult t 0 0)
  ↔ findsNothing hasHeader t = true.
Proof.
  intros Htrimmed Hlen. rewrite preClean_run. cbv zeta.
  assert (mapCells trimCell t = (t, 0)) as Htrim.
  { apply injective_projections.
    - rewrite mapCells_rows. apply map_map_id.
      eapply list.Forall_impl; [exact Htrimmed|]. intros row Hrow.
      eapply list.Forall_impl; [exact Hrow|]. intros cell Hcell.
      by rewrite trimCell_unchanged.
    - apply mapCells_count_zero.
      eapply list.Forall_impl; [exact Htrimmed|]. intros row Hrow.
      eapply list.Forall_impl; [exact Hrow|]. intros cell Hcell.
      by rewrite trimCell_unchanged. }
  assert ((mapCells stripCell t).2 = 0 → (mapCells stripCell t).1 = t)
    as Hstrip.
  { intros Hc1. rewrite mapCells_rows. apply map_map_id.
    apply mapCells_count_zero in Hc1.
    eapply list.Forall_impl; [exact Hc1|]. intros row Hrow.
    eapply list.Forall_impl; [exact Hrow|]. intros cell.
    apply stripCell_unchanged. }
  destruct (collect_keep_or_drop (removeEmptyRow hasHeader) t)
    as (Hch & _ & Hdrop & Hsame); [apply removeEmptyRow_keep_or_drop|].
  unfold findsNothing. rewrite andb_true_iff, Hdrop.
  assert (forallb (forallb (λ cell, negb (stripCell cell).2)) t = true
          ↔ (mapCells stripCell t).2 = 0) as ->.
  { rewrite mapCells_count_zero, forallb_forall, list.Forall_forall.
    setoid_rewrite <- list_elem_of_In.
    apply forall_proper. intros row. apply forall_proper. intros _.
    rewrite forallb_forall, list.Forall_forall.
    setoid_rewrite <- list_elem_of_In.
    apply forall_proper. intros cell. apply forall_proper. intros _.
    by destruct (stripCell cell).2. }
  destruct (mapCells stripCell t) as [t1 c1]. cbn [fst snd] in *.
  split.
  - intros Hrun.
    destruct (mapCells trimCell t1) as [t2 c2] eqn:Htrim1. cbn [fst snd] in *.
    destruct (collect (imap (removeEmptyRow hasHeader) t2))
      as [[t3 c3] d3] eqn:Hkept.
    cbn [fst snd] in *.
    destruct (ensureEqualColumns_counters PadWithEmpty (expectedColumnsOf t3)
                (mkResult t3 (c1 + c2) d3)) as [Hc Hd].
    injection Hrun as Hrun. rewrite Hrun in Hc, Hd.
    cbn [rowsChanged rowsDropped] in Hc, Hd.
    assert (c1 = 0) as -> by lia. split; [done|].
    rewrite (Hstrip eq_refl), Htrim in Htrim1. injection Htrim1 as <- <-.
    rewrite Hkept. cbn. lia.
  - intros [-> Hd3]. rewrite (Hstrip eq_refl), Htrim. cbn [fst snd].
    rewrite Hd3, (Hsame Hd3).
    unfold ensureEqualColumns. cbn [rows rowsChanged rowsDropped].
    by rewrite collect_ensure_equal.
Qed.

Lemma removeEmptyRow_data (hasHeader : bool) (t : Table) :
  imap (removeEmptyRow hasHeader ∘ S) t
  = map (λ row, if negb (allEmpty row) then Kept row else Dropped) t.
Proof.
  rewrite <- imap_const. apply imap_ext. intros i row _.
  unfold removeEmptyRow, compose, const. simpl.
  rewrite andb_false_r. by destruct (allEmpty row).
Qed.

Lemma removeEmptyRow_no_header (t : Table) :
  imap (removeEmptyRow false) t
  = map (λ row, if negb (allEmpty row) then Kept row else Dropped) t.
Proof.
  rewrite <- imap_const. apply imap_ext. intros i row _.
  unfold removeEmptyRow, const. simpl. by destruct (allEmpty row).
Qed.

Lemma forallb_pointwise {A} (f g : A → bool) (l : list A) :
  (∀ x, f x = g x) → forallb f l = forallb g l.
Proof.
  intros Hfg. induction l as [|x l IH]; [done|]. simpl. by rewrite Hfg, IH.
Qed.

Lemma trimStart_nil (s : JsString) :
  trimStart s = [] ↔ isBlank s = true.
Proof.
  unfold isBlank. induction s as [|c s IH]; [done|]. simpl.
  destruct (isWhiteSpace c); [exact IH|]. split; done.
Qed.

Lemma isBlank_rev (s : JsString) : isBlank (rev s) = isBlank s.
Proof.
  unfold isBlank. destruct (forallb isWhiteSpace s) eqn:Hs.
  - rewrite forallb_forall in *. intros c Hc. apply Hs. by apply in_rev.
  - apply not_true_iff_false. intros Hr. apply not_true_iff_false in Hs.
    apply Hs. rewrite forallb_forall in *. intros c Hc. apply Hr.
    by apply in_rev in Hc.
Qed.

(** A cell is blank exactly when trimming leaves nothing of it. *)
Lemma trim_nil (s : JsString) : trim s = [] ↔ isBlank s = true.
Proof.
  unfold trim, trimEnd. split.
  - intros Htrim. apply (f_equal (@rev N)) in Htrim.
    rewrite rev_involutive in Htrim. cbn in Htrim.
    apply trimStart_nil in Htrim. rewrite isBlank_rev in Htrim.
    pose proof (trimStart_clean s) as Hclean.
    destruct (trimStart s) as [|c t] eqn:Hs; [by apply trimStart_nil|].
    unfold isBlank in Htrim. simpl in Htrim, Hclean. by rewrite Hclean in Htrim.
  - intros Hblank. apply trimStart_nil in Hblank. by rewrite Hblank.
Qed.

Lemma isBlank_length_trim (cell : JsString) :
  (length (trim cell) =? 0) = isBlank cell.
Proof.
  destruct (isBlank cell) eqn:Hblank.
  - apply trim_nil in Hblank. by rewrite Hblank.
  - destruct (trim cell) eqn:Htrim; [|done].
    apply trim_nil in Htrim. congruence.
Qed.

(** The test of REMOVE_EMPTY_ROWS, read off the cells. *)
Lemma allEmpty_emptyDataRow (row : Row) : allEmpty row = emptyDataRow row.
Proof.
  destruct row as [|cell [|cell' others]]; [done|..].
  - change (allEmpty [cell])
      with (forallb (λ c, length (trim c) =? 0) [cell]).
    cbn [forallb emptyDataRow]. by rewrite isBlank_length_trim, andb_true_r.
  - change (allEmpty (cell :: cell' :: others))
      with (forallb (λ c, length (trim c) =? 0) (cell' :: others)).
    cbn [emptyDataRow]. apply forallb_pointwise. intros c.
    apply isBlank_length_trim.
Qed.

(** The test of STRIP_WRAPPING_QUOTES, read off the trimmed text. *)
Lemma stripCell_wrappedInQuotes (cell : JsString) :
  (stripCell cell).2 = wrappedInQuotes cell.
Proof.
  unfold stripCell, wrappedInQuotes, endsWith.
  destruct (trim cell) as [|first rest]; [done|].
  destruct rest as [|c rest _] using rev_ind.
  { cbn. by rewrite andb_false_r || destruct (first =? Ch.DQUOTE)%N. }
  rewrite rev_app_distr. cbn [rev app length].
  change (first :: rest ++ [c]) with ((first :: rest) ++ [c]).
  rewrite rev_app_distr. cbn [rev app startsWith fst snd].
  rewrite length_app. cbn [length].
  replace (2 <=? S (length rest + 1)) with true
    by (symmetry; apply Nat.leb_le; lia).
  rewrite (N.eqb_sym first), (N.eqb_sym c). cbn [andb].
  by destruct (Ch.DQUOTE =? first)%N, (Ch.DQUOTE =? c)%N.
Qed.

Lemma removeEmptyRow_kept (hasHeader : bool) (t : Table) :
  forallb (λ o, match o with
                | Dropped => false
                | _ => true
                end) (imap (removeEmptyRow hasHeader) t)
  = forallb (λ row, negb (emptyDataRow row)) (dataRows hasHeader t).
Proof.
  assert (∀ l : Table,
            forallb (λ o, match o with
                          | Dropped => false
                          | _ => true
                          end)
              (map (λ row, if negb (allEmpty row) then Kept row else Dropped) l)
            = forallb (λ row, negb (emptyDataRow row)) l) as Hdata.
  { intros l. induction l as [|row l IH]; [done|]. cbn [map forallb].
    rewrite IH, allEmpty_emptyDataRow. by destruct (emptyDataRow row). }
  destruct hasHeader; cbn [dataRows].
  - destruct t as [|row0 t]; [done|].
    rewrite imap_cons, removeEmptyRow_data. cbn [skipn]. rewrite drop_0.
    cbn [forallb removeEmptyRow andb Nat.eqb]. apply Hdata.
  - rewrite removeEmptyRow_no_header. apply Hdata.
Qed.

(** The first three steps find nothing to do exactly on the settled
    tables. *)
Lemma findsNothing_settled (hasHeader : bool) (t : Table) :
  findsNothing hasHeader t = settled hasHeader t.
Proof.
  unfold findsNothing, settled. rewrite removeEmptyRow_kept. f_equal.
  apply forallb_pointwise. intros row. apply forallb_pointwise.
  intros cell. by rewrite stripCell_wrappedInQuotes.
Qed.


(** C1, as the specification states it, fails.  A cell wrapped twice in
    double quotes loses one pair of quotes per pass, so the second pass
    still counts a change; and a one-cell row that the first pass pads
    under a wider header is dropped by the second pass, which now sees
    blank cells after the first one. *)
Lemma preClean_second_pass_changes :
  let twice := [Ch.DQUOTE; Ch.DQUOTE] ++ lit "a" ++ [Ch.DQUOTE; Ch.DQUOTE] in
  let once := [Ch.DQUOTE] ++ lit "a" ++ [Ch.DQUOTE] in
  let header := [lit "h1"; lit "h2"; lit "h3"] in
  applyActions [[twice]] preCleanActions true = Normal (mkResult [[once]] 1 0)
  ∧ applyActions [[once]] preCleanActions true
    = Normal (mkResult [[lit "a"]] 1 0)
  ∧ applyActions [header; [lit "x"]] preCleanActions true
    = Normal (mkResult [header; [lit "x"; []; []]] 1 0)
  ∧ applyActions [header; [lit "x"; []; []]] preCleanActions true
    = Normal (mkResult [header] 0 1).
Proof. by vm_compute. Qed.

(** C1, amended: the pre-clean plan always returns, and a second run on
    the table it produced returns that table with [rowsChanged = 0] and
    [rowsDropped = 0] exactly when the produced table is settled: none of
    its cells is still wrapped in double quotes, and none of its data rows
    counts as empty. *)
Theorem preClean_idempotent_iff_settled (table : Table) (hasHeader : bool) :
  ∃ st1,
    applyActions table preCleanActions hasHeader = Normal st1
    ∧ (applyActions (rows st1) preCleanActions hasHeader
       = Normal (mkResult (rows st1) 0 0)
       ↔ settled hasHeader (rows st1) = true).
Proof.
  destruct (applyActions table preCleanActions hasHeader) as [st1|] eqn:Hrun.
  - exists st1. split; [done|].
    destruct (preClean_output _ _ _ Hrun) as [Htrimmed Hlen].
    rewrite <- findsNothing_settled. by apply preClean_settled.
  - by rewrite preClean_run in Hrun.
Qed.

Lemma preClean_idempotent_iff_settled_witness :
  let table := [[lit "ID"; lit "Name"; lit "Age"];
                [lit "1"; lit " John "; lit "25"];
                [lit "2"; [Ch.DQUOTE] ++ lit "Anna" ++ [Ch.DQUOTE]; []];
                [[]; []; lit " "]] in
  let cleaned := [[lit "ID"; lit "Name"; lit "Age"];
                  [lit "1"; lit "John"; lit "25"];
                  [lit "2"; lit "Anna"; []]] in
  applyActions table preCleanActions true = Normal (mkResult cleaned 3 1)
  ∧ applyActions cleaned preCleanActions true = Normal (mkResult cleaned 0 0).
Proof.
  intros table cleaned.
  destruct (preClean_idempotent_iff_settled table true) as (st1 & Hrun & Hiff).
  assert (st1 = mkResult cleaned 3 1) as ->.
  { assert (applyActions table preCleanActions true
            = Normal (mkResult cleaned 3 1)) as Hrun'
      by (vm_compute; reflexivity).
    congruence. }
  split; [exact Hrun|]. apply Hiff. vm_compute. reflexivity.
Defined.

(** ** The in-place loop and the loop on tables *)

Lemma coerceLoopInPlace_unfold_clause (c : JsNumber) (oe : CoerceOnError)
  (store : list Row) (newRows : list nat) (i changed dropped : nat)
  (r : {b : option nat | newRows !! i = b}) :
  coerceLoopInPlace_unfold_clause_1 c oe store newRows i r changed dropped
  = match proj1_sig r with
    | None => Normal (store, newRows, changed, dropped)
    | Some ref =>
        match store !! ref with
        | None => Throw TypeError
        | Some row =>
            match coerceRow c oe row with
            | Throw err => Throw err
            | Normal (Kept _) =>
                coerceLoopInPlace c oe store newRows (S i) changed dropped
            | Normal (Changed row') =>
                coerceLoopInPlace c oe (<[ref:=row']> store) newRows (S i)
                  (S changed) dropped
            | Normal Dropped =>
                coerceLoopInPlace c oe store (delete i newRows) i
                  changed (S dropped)
            end
        end
    end.
Proof. by destruct r as [[ref|] Hr]. Qed.

Lemma coerceLoopInPlace_step (c : JsNumber) (oe : CoerceOnError)
  (store : list Row) (newRows : list nat) (i changed dropped : nat) :
  coerceLoopInPlace c oe store newRows i changed dropped
  = match newRows !! i with
    | None => Normal (store, newRows, changed, dropped)
    | Some ref =>
        match store !! ref with
        | None => Throw TypeError
        | Some row =>
            match coerceRow c oe row with
            | Throw err => Throw err
            | Normal (Kept _) =>
                coerceLoopInPlace c oe store newRows (S i) changed dropped
            | Normal (Changed row') =>
                coerceLoopInPlace c oe (<[ref:=row']> store) newRows (S i)
                  (S changed) dropped
            | Normal Dropped =>
                coerceLoopInPlace c oe store (delete i newRows) i
                  changed (S dropped)
            end
        end
    end.
Proof.
  by rewrite coerceLoopInPlace_equation_1, coerceLoopInPlace_unfold_clause.
Qed.

Lemma denotes_write (store : list Row) (refs : list nat) (t : Table)
  (i ref : nat) (row' : Row) :
  NoDup refs → denotes store refs t → refs !! i = Some ref →
  denotes (<[ref:=row']> store) refs (<[i:=row']> t).
Proof.
  intros Hdistinct Hden Href.
  apply Forall2_same_length_lookup in Hden as [Hlen Hden].
  apply Forall2_same_length_lookup. split; [by rewrite length_insert|].
  intros j ref' row Hj Hrow.
  destruct (decide (j = i)) as [->|Hne].
  - rewrite Href in Hj. injection Hj as <-.
    assert (i < length t) as Hi
      by (rewrite <- Hlen; by eapply lookup_lt_Some).
    rewrite list_lookup_insert_eq in Hrow by done. injection Hrow as <-.
    destruct (t !! i) as [old|] eqn:Hold;
      [|by apply lookup_ge_None in Hold; lia].
    apply list_lookup_insert_eq. eapply lookup_lt_Some, Hden; done.
  - rewrite list_lookup_insert_ne in Hrow by done.
    rewrite list_lookup_insert_ne; [by eapply Hden|].
    intros <-. apply Hne. by eapply NoDup_lookup.
Qed.

(** X28.  On a table whose rows are pairwise distinct arrays, the loop that
    writes cells in place computes what the loop on tables computes. *)
Lemma coerceLoopInPlace_refines (c : JsNumber) (oe : CoerceOnError)
  (store : list Row) (refs : list nat) (t : Table)
  (i changed dropped : nat) :
  NoDup refs → denotes store refs t →
  match coerceLoopInPlace c oe store refs i changed dropped with
  | Normal (store', refs', changed', dropped') =>
      ∃ t', denotes store' refs' t'
            ∧ coerceLoop c oe t i changed dropped
              = Normal (t', changed', dropped')
  | Throw err => coerceLoop c oe t i changed dropped = Throw err
  end.
Proof.
  remember (length refs - i) as n eqn:Hn.
  revert store refs t i changed dropped Hn.
  induction n as [n IH] using lt_wf_ind.
  intros store refs t i changed dropped -> Hdistinct Hden.
  rewrite coerceLoopInPlace_step, coerceLoop_step.
  pose proof (proj1 (proj1 (Forall2_same_length_lookup _ _ _) Hden)) as Hlen.
  destruct (refs !! i) as [ref|] eqn:Href.
  - destruct (Forall2_lookup_l _ _ _ _ _ Hden Href) as (row & Hrow & Hstore).
    pose proof (lookup_lt_Some _ _ _ Href) as Hlt.
    rewrite Hrow, Hstore.
    destruct (coerceRow c oe row) as [[row'|row'|]|err]; [| | |done].
    + apply (IH (length refs - S i)); [lia|done|done|done].
    + apply (IH (length refs - S i)); [lia|done|done|].
      by apply denotes_write.
    + apply (IH (length (delete i refs) - i)).
      * rewrite length_delete by eauto. lia.
      * done.
      * eapply sublist_NoDup; [done|apply sublist_delete].
      * by apply Forall2_delete.
  - apply lookup_ge_None in Href.
    rewrite (proj2 (lookup_ge_None t i)) by lia. by exists t.
Qed.

(** Without that distinctness the two differ: when one array is both row 0
    and row 1 of the table, the write to row 1 shows in row 0 as well. *)
Example coerceLoopInPlace_shared_row :
  coerceLoopInPlace (Zero false) SetZero [[lit "x"]] [0; 0] 1 0 0
  = Normal ([[lit "0"]], [0; 0], 1, 0)
  ∧ coerceLoop (Zero false) SetZero [[lit "x"]; [lit "x"]] 1 0 0
    = Normal ([[lit "x"]; [lit "0"]], 1, 0).
Proof. by vm_compute. Qed.

Lemma elem_of_drop_S {A} (l : list A) (i : nat) (x : A) :
  x ∈ drop (S i) l → x ∈ drop i l.
Proof.
  intros [j Hj]%list_elem_of_lookup. rewrite lookup_drop in Hj.
  apply list_elem_of_lookup. exists (S j). rewrite lookup_drop.
  by replace (i + S j) with (S i + j) by lia.
Qed.

Lemma take_delete_same {A} (l : list A) (i : nat) :
  take i (delete i l) = take i l.
Proof.
  rewrite delete_take_drop.
  destruct (decide (i ≤ length l)) as [Hle|Hgt].
  - by rewrite take_app_length' by (rewrite length_take; lia).
  - rewrite (drop_ge l (S i)) by lia. rewrite app_nil_r.
    by rewrite take_take, Nat.min_id.
Qed.

Lemma drop_delete_same {A} (l : list A) (i : nat) :
  drop i (delete i l) = drop (S i) l.
Proof.
  rewrite delete_take_drop.
  destruct (decide (i ≤ length l)) as [Hle|Hgt].
  - by rewrite drop_app_length' by (rewrite length_take; lia).
  - rewrite !(drop_ge l) by lia. rewrite app_nil_r.
    apply drop_ge. rewrite length_take. lia.
Qed.

(** The loop on the heap, from index [i]: on pairwise distinct row arrays
    it computes the table the loop on tables computes; it leaves the
    references before [i] where they are, and it writes to no array but
    those referred to from [i] on. *)
Lemma coerceLoopInPlace_frame (c : JsNumber) (oe : CoerceOnError)
  (store : list Row) (refs : list nat) (t : Table)
  (i changed dropped : nat) :
  NoDup refs → denotes store refs t →
  match coerceLoopInPlace c oe store refs i changed dropped with
  | Normal (store', refs', changed', dropped') =>
      (∃ t', denotes store' refs' t'
             ∧ coerceLoop c oe t i changed dropped
               = Normal (t', changed', dropped'))
      ∧ take i refs' = take i refs
      ∧ ∀ ref, ref ∉ drop i refs → store' !! ref = store !! ref
  | Throw err => coerceLoop c oe t i changed dropped = Throw err
  end.
Proof.
  remember (length refs - i) as n eqn:Hn.
  revert store refs t i changed dropped Hn.
  induction n as [n IH] using lt_wf_ind.
  intros store refs t i changed dropped -> Hdistinct Hden.
  rewrite coerceLoopInPlace_step, coerceLoop_step.
  pose proof (proj1 (proj1 (Forall2_same_length_lookup _ _ _) Hden)) as Hlen.
  destruct (refs !! i) as [ref0|] eqn:Href.
  - destruct (Forall2_lookup_l _ _ _ _ _ Hden Href) as (row & Hrow & Hstore).
    pose proof (lookup_lt_Some _ _ _ Href) as Hlt.
    assert (ref0 ∈ drop i refs) as Hin.
    { apply list_elem_of_lookup. exists 0.
      by rewrite lookup_drop, Nat.add_0_r. }
    rewrite Hrow, Hstore.
    destruct (coerceRow c oe row) as [[row'|row'|]|err]; [| | |done].
    + specialize (IH (length refs - S i) ltac:(lia) store refs t (S i)
                    changed dropped eq_refl Hdistinct Hden).
      destruct (coerceLoopInPlace c oe store refs (S i) changed dropped)
        as [[[[store' refs'] changed'] dropped']|err]; [|done].
      destruct IH as (Hsim & Htake & Hstore'). split_and!; [done| |].
      * apply (f_equal (take i)) in Htake.
        by rewrite !take_take, !Nat.min_l in Htake by lia.
      * intros ref Hout. apply Hstore'. intros Hin'. apply Hout.
        by apply elem_of_drop_S.
    + specialize (IH (length refs - S i) ltac:(lia) (<[ref0:=row']> store)
                    refs (<[i:=row']> t) (S i) (S changed) dropped eq_refl
                    Hdistinct (denotes_write _ _ _ _ _ _ Hdistinct Hden Href)).
      destruct (coerceLoopInPlace c oe (<[ref0:=row']> store) refs (S i)
                  (S changed) dropped)
        as [[[[store' refs'] changed'] dropped']|err]; [|done].
      destruct IH as (Hsim & Htake & Hstore'). split_and!; [done| |].
      * apply (f_equal (take i)) in Htake.
        by rewrite !take_take, !Nat.min_l in Htake by lia.
      * intros ref Hout. rewrite Hstore'.
        -- apply list_lookup_insert_ne. by intros <-.
        -- intros Hin'. apply Hout. by apply elem_of_drop_S.
    + assert (NoDup (delete i refs)) as Hdistinct'
        by (eapply sublist_NoDup; [done|apply sublist_delete]).
      assert (denotes store (delete i refs) (delete i t)) as Hden'
        by by apply Forall2_delete.
      specialize (IH (length (delete i refs) - i)
                    ltac:(rewrite length_delete by eauto; lia)
                    store (delete i refs) (delete i t) i changed (S dropped)
                    eq_refl Hdistinct' Hden').
      destruct (coerceLoopInPlace c oe store (delete i refs) i changed
                  (S dropped))
        as [[[[store' refs'] changed'] dropped']|err]; [|done].
      destruct IH as (Hsim & Htake & Hstore'). split_and!; [done| |].
      * by rewrite Htake, take_delete_same.
      * intros ref Hout. apply Hstore'. rewrite drop_delete_same.
        intros Hin'. apply Hout. by apply elem_of_drop_S.
  - apply lookup_ge_None in Href.
    rewrite (proj2 (lookup_ge_None t i)) by lia.
    split_and!; [by exists t|done|done].
Qed.

(** C10, as stated, fails on a table in which one array is two rows: with a
    header, the header row and the first data row being the same array, the
    write to the data row is a write to the header row. *)
Lemma coerce_numeric_rewrites_shared_header :
  let store := [[lit "n/a"; lit "x"]] in
  let store' := [[lit "0"; lit "x"]] in
  denotes store [0; 0] [[lit "n/a"; lit "x"]; [lit "n/a"; lit "x"]]
  ∧ coerceNumericInPlace true store [0; 0] 0 0 (Zero false) SetZero
    = Normal (store', [0; 0], 1, 0)
  ∧ denotes store' [0; 0] [[lit "0"; lit "x"]; [lit "0"; lit "x"]]
  ∧ store' !! 0 ≠ store !! 0.
Proof.
  intros store store'. split_and!.
  - by repeat constructor.
  - by vm_compute.
  - by repeat constructor.
  - discriminate.
Qed.

(** C10, amended: on a table whose rows are pairwise distinct arrays,
    COERCE_NUMERIC returns whenever the column index is an array index, and
    when it has returned, the rows before the data-start index (row 0 when
    [hasHeader] is true) are the same arrays with the same cells, and the
    table read from the heap is the old one with the rows from the
    data-start index on gone one by one through an outcome: kept as they
    were, dropped, or changed; a changed row has its old length and its old
    cells everywhere outside the target column, and a row whose target cell
    is out of range, empty or blank after trimming is kept as it was (no
    rewrite, no count, no drop).  The counters are those collected from the
    outcomes. *)
Theorem coerce_numeric_frame (hasHeader : bool) (store : list Row)
  (refs : list nat) (t : Table) (changed dropped : nat)
  (c : JsNumber) (oe : CoerceOnError) :
  NoDup refs → denotes store refs t →
  (is_Some (arrayIndex c) →
   ∃ result,
     coerceNumericInPlace hasHeader store refs changed dropped c oe
     = Normal result)
  ∧ ∀ store' refs' changed' dropped',
      coerceNumericInPlace hasHeader store refs changed dropped c oe
      = Normal (store', refs', changed', dropped') →
      (∀ i ref,
         i < (if hasHeader then 1 else 0) → refs !! i = Some ref →
         refs' !! i = Some ref ∧ store' !! ref = store !! ref)
      ∧ ∃ t' outcomes,
          denotes store' refs' t'
          ∧ t' = take (if hasHeader then 1 else 0) t ++ (collect outcomes).1.1
          ∧ changed' = changed + (collect outcomes).1.2
          ∧ dropped' = dropped + (collect outcomes).2
          ∧ Forall2
              (λ row o,
                 match o with
                 | Kept row' => row' = row
                 | Changed row' =>
                     length row' = length row
                     ∧ ∀ j, arrayIndex c ≠ Some j → row' !! j = row !! j
                 | Dropped => True
                 end
                 ∧ (arrayGet row c = None
                    ∨ (∃ value, arrayGet row c = Some value ∧ trim value = [])
                    → o = Kept row))
              (drop (if hasHeader then 1 else 0) t) outcomes.
Proof.
  intros Hdistinct Hden. unfold coerceNumericInPlace. cbv zeta.
  pose proof (coerceLoopInPlace_frame c oe store refs t
                (startIndexOf hasHeader) changed dropped Hdistinct Hden)
    as Hframe.
  pose proof (applyAction_coerce_frame hasHeader (mkResult t changed dropped)
                c oe) as [Hreturns Hvalue].
  unfold applyAction in Hreturns, Hvalue.
  cbn [rows rowsChanged rowsDropped] in Hreturns, Hvalue.
  destruct (coerceLoopInPlace c oe store refs (startIndexOf hasHeader)
              changed dropped)
    as [[[[store1 refs1] changed1] dropped1]|err].
  - destruct Hframe as ((t1 & Hden1 & Hloop) & Htake & Hstore).
    rewrite Hloop in Hvalue. split; [by eexists|].
    intros store' refs' changed' dropped' [= <- <- <- <-]. split.
    + intros i ref Hi Href. change (i < startIndexOf hasHeader) in Hi. split.
      * apply (f_equal (λ l, l !! i)) in Htake.
        by rewrite !lookup_take_lt, Href in Htake by done.
      * apply Hstore. intros [j Hj]%list_elem_of_lookup.
        rewrite lookup_drop in Hj.
        pose proof (NoDup_lookup _ _ _ _ Hdistinct Href Hj). lia.
    + destruct (Hvalue (mkResult t1 changed1 dropped1) eq_refl)
        as (_ & outcomes & Hrows & Hchanged & Hdropped & Hout).
      exists t1, outcomes. split_and!; done.
  - split; [|done]. intros Hc. destruct (Hreturns Hc) as [st' Hst'].
    by rewrite Hframe in Hst'.
Qed.

Lemma coerce_numeric_frame_witness :
  let store := [[lit "id"; lit "age"]; [lit "1"; lit " 7 "];
                [lit "2"; lit "  "]; [lit "3"; lit "n/a"]] in
  let store' := [[lit "id"; lit "age"]; [lit "1"; lit "7"];
                 [lit "2"; lit "  "]; [lit "3"; []]] in
  coerceNumericInPlace true store [0; 1; 2; 3] 0 0 (Finite false 1 0) SetNull
  = Normal (store', [0; 1; 2; 3], 2, 0)
  ∧ ∀ i ref,
      i < 1 → [0; 1; 2; 3] !! i = Some ref →
      [0; 1; 2; 3] !! i = Some ref ∧ store' !! ref = store !! ref.
Proof.
  intros store store'.
  assert (coerceNumericInPlace true store [0; 1; 2; 3] 0 0 (Finite false 1 0)
            SetNull = Normal (store', [0; 1; 2; 3], 2, 0)) as Hrun
    by (vm_compute; reflexivity).
  split; [exact Hrun|].
  assert (NoDup [0; 1; 2; 3]) as Hdistinct
    by (apply (bool_decide_unpack _); vm_compute; exact I).
  assert (denotes store [0; 1; 2; 3] store) as Hden
    by (by repeat constructor).
  exact (proj1 (proj2 (coerce_numeric_frame true store [0; 1; 2; 3] store 0 0
                         (Finite false 1 0) SetNull Hdistinct Hden)
                  store' [0; 1; 2; 3] 2 0 Hrun)).
Defined.


(* ================================================================= *)
(** * Further properties: parsing, the passes, and the service *)

(** ** [parseCsv] and [serializeCsv] *)

Lemma isPrefix_spec (p s : JsString) :
  isPrefix p s = true ↔ ∃ r, s = p ++ r.
Proof.
  revert s. induction p as [|c p IH]; intros s; simpl.
  - split; [intros _; by exists s|done].
  - destruct s as [|d s]; [split; [done|by intros [r Hr]]|].
    rewrite andb_true_iff, N.eqb_eq, IH. split.
    + intros [-> [r ->]]. by exists r.
    + intros [r [= -> ->]]. eauto.
Qed.

(** Where [indexOf] finds the separator, the text is what precedes it, the
    separator, and what follows. *)
Lemma indexOf_Some (sep s : JsString) (j : nat) :
  indexOf sep s = Some j →
  s = take j s ++ sep ++ drop (j + length sep) s.
Proof.
  revert j. induction s as [|c s IH]; intros j; simpl.
  - destruct (isPrefix sep []) eqn:Hp; [|done]. intros [= <-].
    apply isPrefix_spec in Hp as [r Hr]. symmetry in Hr.
    apply app_eq_nil in Hr as [-> ->]. done.
  - destruct (isPrefix sep (c :: s)) eqn:Hp.
    + intros [= <-]. apply isPrefix_spec in Hp as [r Hr]. rewrite Hr at 1.
      simpl. by rewrite Hr, drop_app_length.
    + destruct (indexOf sep s) as [j'|] eqn:Hj; [|done]. intros [= <-].
      simpl. f_equal. by apply IH.
Qed.

Lemma splitNonEmpty_unfold_clause (c : N) (sep' s : JsString)
  (r : {b : option nat | indexOf (c :: sep') s = b}) :
  splitNonEmpty_unfold_clause_1 c sep' s r
  = match proj1_sig r with
    | None => [s]
    | Some j =>
        take j s :: splitNonEmpty c sep' (drop (j + S (length sep')) s)
    end.
Proof. by destruct r as [[j|] Hr]. Qed.

(** One turn of the search of [split]. *)
Lemma splitNonEmpty_step (c : N) (sep' s : JsString) :
  splitNonEmpty c sep' s
  = match indexOf (c :: sep') s with
    | None => [s]
    | Some j =>
        take j s :: splitNonEmpty c sep' (drop (j + S (length sep')) s)
    end.
Proof. by rewrite splitNonEmpty_equation_1, splitNonEmpty_unfold_clause. Qed.

Lemma indexOf_Some_nonempty (c : N) (sep' s : JsString) (j : nat) :
  indexOf (c :: sep') s = Some j → s ≠ [].
Proof. by destruct s. Qed.

Lemma join_cons2 (sep p q : JsString) (ps : list JsString) :
  join sep (p :: q :: ps) = p ++ sep ++ join sep (q :: ps).
Proof. done. Qed.

Lemma splitNonEmpty_nonempty (c : N) (sep' s : JsString) :
  splitNonEmpty c sep' s ≠ [].
Proof. rewrite splitNonEmpty_step. by destruct (indexOf _ _). Qed.

(** Joining the pieces of a split with the separator gives the text back. *)
Lemma join_splitNonEmpty (c : N) (sep' s : JsString) :
  join (c :: sep') (splitNonEmpty c sep' s) = s.
Proof.
  remember (length s) as n eqn:Hn. revert s Hn.
  induction (lt_wf n) as [n _ IH]; intros s ->.
  rewrite splitNonEmpty_step.
  destruct (indexOf (c :: sep') s) as [j|] eqn:Hj; [|done].
  pose proof (indexOf_Some _ _ _ Hj) as Hs.
  pose proof (indexOf_Some_nonempty _ _ _ _ Hj) as Hne.
  set (rest := drop (j + S (length sep')) s) in *.
  assert (Hrest : join (c :: sep') (splitNonEmpty c sep' rest) = rest).
  { eapply IH; [|done]. unfold rest. rewrite length_drop.
    destruct s; [done|simpl; lia]. }
  destruct (splitNonEmpty c sep' rest) as [|q qs] eqn:Hq.
  { by apply splitNonEmpty_nonempty in Hq. }
  rewrite join_cons2, Hrest. symmetry. exact Hs.
Qed.

Lemma join_singletons (s : JsString) : join [] ((λ c, [c]) <$> s) = s.
Proof.
  induction s as [|c s IH]; [done|].
  rewrite fmap_cons, join_cons_head. f_equal.
  rewrite <- IH at 2. by destruct (_ <$> s).
Qed.

Lemma join_splitBy (s sep : JsString) : join sep (splitBy s sep) = s.
Proof.
  destruct sep as [|c sep']; [apply join_singletons|apply join_splitNonEmpty].
Qed.

(** X1.  Serializing what [parseCsv] read gives the non-empty lines of the
    text joined by single line feeds, whatever the delimiter is (also one
    that is empty, or that occurs nowhere): within each line, the cells
    joined by the delimiter are the line again. *)
Theorem serializeCsv_parseCsv (csv delimiter : JsString) :
  serializeCsv (parseCsv csv delimiter) delimiter
  = join [Ch.LF] (filter (λ line, 0 < length line) (splitLines csv)).
Proof.
  unfold serializeCsv, parseCsv. f_equal.
  rewrite map_map. rewrite <- (map_id (filter _ _)) at 2.
  apply map_ext. intros line. apply join_splitBy.
Qed.

Lemma filter_all {A} (P : A → Prop) `{!∀ x, Decision (P x)} (l : list A) :
  Forall P l → filter P l = l.
Proof.
  induction 1 as [|x l Hx _ IH]; [done|].
  by rewrite filter_cons_True, IH.
Qed.

(** X2.  A text in which no line is empty and no line ends in CR LF is a
    fixed point of parsing and serializing, whatever the delimiter. *)
Theorem serializeCsv_parseCsv_fixed (csv delimiter : JsString) :
  hasCRLF csv = false →
  Forall (λ line, line ≠ []) (splitLines csv) →
  serializeCsv (parseCsv csv delimiter) delimiter = csv.
Proof.
  intros Hcrlf Hlines. unfold serializeCsv, parseCsv.
  rewrite map_map, filter_all.
  - rewrite <- (join_splitLines csv Hcrlf) at 2. f_equal.
    rewrite <- (map_id (splitLines csv)) at 2.
    apply map_ext. intros line. apply join_splitBy.
  - eapply list.Forall_impl; [exact Hlines|].
    intros [|c line] Hne; [done|simpl; lia].
Qed.

Lemma serializeCsv_parseCsv_fixed_witness :
  let csv := lit "a;b" ++ [Ch.LF] ++ lit "c" in
  serializeCsv (parseCsv csv [Ch.COMMA]) [Ch.COMMA] = csv.
Proof.
  intros csv. apply serializeCsv_parseCsv_fixed; [reflexivity|].
  vm_compute. by repeat constructor.
Defined.

Lemma isPrefix_single (c : N) (s : JsString) :
  isPrefix [c] s = startsWith s c.
Proof.
  destruct s as [|d s]; [done|]. simpl.
  by rewrite andb_true_r, N.eqb_sym.
Qed.

Lemma indexOf_single_absent (c : N) (s : JsString) :
  c ∉ s → indexOf [c] s = None.
Proof.
  induction s as [|d s IH]; [done|]. intros Hc.
  apply not_elem_of_cons in Hc as [Hd Hs]. cbn [indexOf].
  rewrite isPrefix_single. simpl.
  destruct (N.eqb_spec d c) as [->|_]; [done|]. by rewrite IH.
Qed.

Lemma indexOf_single_first (c : N) (p r : JsString) :
  c ∉ p → indexOf [c] (p ++ c :: r) = Some (length p).
Proof.
  induction p as [|d p IH]; intros Hc.
  - simpl. by rewrite N.eqb_refl.
  - apply not_elem_of_cons in Hc as [Hd Hp].
    change ((d :: p) ++ c :: r) with (d :: (p ++ c :: r)). cbn [indexOf].
    rewrite isPrefix_single. simpl.
    destruct (N.eqb_spec d c) as [->|_]; [done|]. by rewrite IH.
Qed.

(** Splitting at a character the joined texts do not contain gives them
    back. *)
Lemma splitNonEmpty_join (c : N) (cells : list JsString) :
  cells ≠ [] → Forall (λ cell, c ∉ cell) cells →
  splitNonEmpty c [] (join [c] cells) = cells.
Proof.
  induction cells as [|p [|q ps] IH]; intros Hne Hcells; [done|..].
  - apply Forall_inv in Hcells. simpl.
    by rewrite splitNonEmpty_step, indexOf_single_absent.
  - pose proof (Forall_inv Hcells) as Hp. apply Forall_inv_tail in Hcells.
    rewrite join_cons2, splitNonEmpty_step.
    change (p ++ [c] ++ join [c] (q :: ps))
      with (p ++ c :: join [c] (q :: ps)).
    rewrite indexOf_single_first by done.
    rewrite take_app_length. f_equal.
    replace (length p + S (length [])) with (length p + 1) by (simpl; lia).
    rewrite <- drop_drop, drop_app_length. simpl. by apply IH.
Qed.

Lemma endsWith_cons (c d x : N) (l : JsString) :
  endsWith (c :: d :: l) x = endsWith (d :: l) x.
Proof. unfold endsWith. simpl. by destruct (rev l). Qed.

Lemma splitLines_line (l t : JsString) :
  Ch.LF ∉ l → endsWith l Ch.CR = false →
  splitLines (l ++ Ch.LF :: t) = l :: splitLines t.
Proof.
  induction l as [|c l IH]; intros Hlf Hcr; [done|].
  apply not_elem_of_cons in Hlf as [Hc Hl].
  change ((c :: l) ++ Ch.LF :: t) with (c :: (l ++ Ch.LF :: t)).
  cbn [splitLines]. destruct (N.eqb_spec c Ch.LF) as [->|_]; [done|].
  destruct l as [|d l].
  - simpl app. destruct (N.eqb_spec c Ch.CR) as [->|_]; [done|]. simpl.
    by destruct (t).
  - assert (Hd : d ≠ Ch.LF) by (intros ->; apply Hl; left).
    change ((d :: l) ++ Ch.LF :: t) with (d :: (l ++ Ch.LF :: t)) in *.
    cbv iota beta.
    replace (d =? Ch.LF)%N with false
      by (symmetry; by apply N.eqb_neq).
    rewrite andb_false_r. rewrite endsWith_cons in Hcr.
    by rewrite IH.
Qed.

Lemma splitLines_single (l : JsString) : Ch.LF ∉ l → splitLines l = [l].
Proof.
  induction l as [|c l IH]; intros Hlf; [done|].
  apply not_elem_of_cons in Hlf as [Hc Hl]. cbn [splitLines].
  destruct (N.eqb_spec c Ch.LF) as [->|_]; [done|].
  destruct l as [|d l]; [done|].
  assert (Hd : d ≠ Ch.LF) by (intros ->; apply Hl; left).
  cbv iota beta.
  replace (d =? Ch.LF)%N with false by (symmetry; by apply N.eqb_neq).
  rewrite andb_false_r. by rewrite IH.
Qed.

(** Cutting the joined lines gives them back when no line holds a line feed
    or ends in a carriage return. *)
Lemma splitLines_join (lines : list JsString) :
  lines ≠ [] →
  Forall (λ l, (Ch.LF ∉ l) ∧ endsWith l Ch.CR = false) lines →
  splitLines (join [Ch.LF] lines) = lines.
Proof.
  induction lines as [|l [|m ls] IH]; intros Hne Hlines; [done|..].
  - apply Forall_inv in Hlines as [Hlf _]. by apply splitLines_single.
  - pose proof (Forall_inv Hlines) as [Hlf Hcr].
    apply Forall_inv_tail in Hlines.
    rewrite join_cons2.
    change (l ++ [Ch.LF] ++ join [Ch.LF] (m :: ls))
      with (l ++ Ch.LF :: join [Ch.LF] (m :: ls)).
    rewrite splitLines_line by done. f_equal. by apply IH.
Qed.

Lemma join_chars (P : N → Prop) (sep : JsString) (parts : list JsString) :
  Forall P sep → Forall (Forall P) parts → Forall P (join sep parts).
Proof.
  intros Hsep. induction parts as [|p [|q ps] IH]; intros Hparts.
  - constructor.
  - by apply Forall_inv in Hparts.
  - rewrite join_cons2. apply Forall_app. split; [by apply Forall_inv in Hparts|].
    apply Forall_app. split; [done|].
    apply IH. by apply Forall_inv_tail in Hparts.
Qed.

Lemma endsWith_absent (c : N) (l : JsString) :
  Forall (λ ch, ch ≠ c) l → endsWith l c = false.
Proof.
  intros Hl. unfold endsWith. apply Forall_rev in Hl.
  destruct (rev l) as [|d r]; [done|]. apply Forall_inv in Hl.
  by apply N.eqb_neq.
Qed.

(** X3.  With a one-character delimiter that is not part of a line break,
    [parseCsv] reads back the table [serializeCsv] wrote, provided no cell
    holds the delimiter, a line feed or a carriage return, and no row is
    written as an empty line (a row without cells, or with one empty
    cell). *)
Theorem parseCsv_serializeCsv (rows : Table) (c : N) :
  c ≠ Ch.LF → c ≠ Ch.CR →
  Forall (λ row, row ≠ [] ∧ row ≠ [[]]
                 ∧ Forall (Forall (λ ch, ch ≠ c ∧ ch ≠ Ch.LF ∧ ch ≠ Ch.CR)) row)
    rows →
  parseCsv (serializeCsv rows [c]) [c] = rows.
Proof.
  intros Hlf Hcr Hrows. unfold parseCsv, serializeCsv.
  destruct rows as [|row0 rows']; [done|].
  set (rows := row0 :: rows') in *.
  assert (Hlines : Forall (λ l, Forall (λ ch, ch ≠ Ch.LF ∧ ch ≠ Ch.CR) l
                                ∧ l ≠ [])
                     (map (λ row, join [c] row) rows)).
  { apply Forall_fmap. eapply list.Forall_impl; [exact Hrows|].
    intros row (Hne & Hne' & Hcells). simpl. split.
    - apply join_chars; [by repeat constructor|].
      eapply list.Forall_impl; [exact Hcells|]. intros cell Hcell.
      eapply list.Forall_impl; [exact Hcell|]. by intros ch (_ & ? & ?).
    - destruct row as [|p [|q ps]]; [done|simpl; congruence|].
      rewrite join_cons2. by destruct p. }
  rewrite splitLines_join.
  - rewrite filter_all.
    + rewrite map_map. rewrite <- (map_id rows) at 2.
      apply Forall_fmap_ext_1. eapply list.Forall_impl; [exact Hrows|].
      intros row (Hne & _ & Hcells). simpl.
      apply splitNonEmpty_join; [done|].
      eapply list.Forall_impl; [exact Hcells|]. intros cell Hcell Hin.
      rewrite list.Forall_forall in Hcell. by destruct (Hcell c Hin).
    + eapply list.Forall_impl; [exact Hlines|].
      intros [|ch l] [_ Hne]; [done|simpl; lia].
  - done.
  - eapply list.Forall_impl; [exact Hlines|]. intros l [Hl _]. split.
    + intros Hin. rewrite list.Forall_forall in Hl.
      by destruct (Hl _ Hin).
    + apply endsWith_absent. eapply list.Forall_impl; [exact Hl|].
      by intros ch [_ ?].
Qed.

Lemma parseCsv_serializeCsv_witness :
  let rows := [[lit "ID"; lit "Name"]; [lit "1"; []]; [lit "x"]] in
  parseCsv (serializeCsv rows [Ch.COMMA]) [Ch.COMMA] = rows.
Proof.
  intros rows. apply parseCsv_serializeCsv; [done|done|].
  repeat constructor; discriminate.
Defined.

Lemma splitLines_no_LF (s : JsString) :
  Forall (λ l, Ch.LF ∉ l) (splitLines s).
Proof.
  remember (length s) as n eqn:Hn. revert s Hn.
  induction (lt_wf n) as [n _ IH]; intros s ->.
  destruct s as [|c rest]; [repeat constructor; by intros ?%elem_of_nil|].
  cbn [splitLines]. destruct (N.eqb_spec c Ch.LF) as [->|Hc].
  { constructor; [by intros ?%elem_of_nil|]. eapply IH; [|done]. simpl; lia. }
  destruct rest as [|d rest'].
  { repeat constructor. by intros [?|?%elem_of_nil]%elem_of_cons. }
  destruct ((c =? Ch.CR) && (d =? Ch.LF))%N.
  { constructor; [by intros ?%elem_of_nil|]. eapply IH; [|done]. simpl; lia. }
  assert (Hrest : Forall (λ l, Ch.LF ∉ l) (splitLines (d :: rest'))).
  { eapply IH; [|done]. simpl; lia. }
  destruct (splitLines (d :: rest')) as [|l ls].
  { repeat constructor. by intros [?|?%elem_of_nil]%elem_of_cons. }
  constructor; [|by apply Forall_inv_tail in Hrest].
  apply Forall_inv in Hrest. by intros [?|?]%elem_of_cons.
Qed.

Lemma isPrefix_take (p s : JsString) (n : nat) :
  isPrefix p (take n s) = true → isPrefix p s = true.
Proof.
  rewrite !isPrefix_spec. intros [r Hr]. exists (r ++ drop n s).
  by rewrite app_assoc, <- Hr, take_drop.
Qed.

(** No occurrence of the separator lies before the first one. *)
Lemma indexOf_take (c : N) (sep' s : JsString) (j : nat) :
  indexOf (c :: sep') s = Some j → indexOf (c :: sep') (take j s) = None.
Proof.
  revert j. induction s as [|d s IH]; intros j; [by destruct j|].
  cbn [indexOf]. destruct (isPrefix (c :: sep') (d :: s)) eqn:Hp.
  { by intros [= <-]. }
  destruct (indexOf (c :: sep') s) as [j'|] eqn:Hj; [|done].
  intros [= <-]. cbn [take indexOf].
  destruct (isPrefix (c :: sep') (d :: take j' s)) eqn:Hp'.
  { apply (isPrefix_take _ (d :: s) (S j')) in Hp'. congruence. }
  by rewrite (IH j').
Qed.

(** The pieces of a split hold no occurrence of the separator, and only
    characters of the text. *)
Lemma splitNonEmpty_pieces (P : N → Prop) (c : N) (sep' s : JsString) :
  Forall P s →
  Forall (λ piece, indexOf (c :: sep') piece = None ∧ Forall P piece)
    (splitNonEmpty c sep' s).
Proof.
  remember (length s) as n eqn:Hn. revert s Hn.
  induction (lt_wf n) as [n _ IH]; intros s -> Hs.
  rewrite splitNonEmpty_step.
  destruct (indexOf (c :: sep') s) as [j|] eqn:Hj; [|by repeat constructor].
  constructor.
  - split; [by apply indexOf_take|by apply Forall_take].
  - eapply IH; [|done|by apply Forall_drop].
    apply indexOf_Some_nonempty in Hj. rewrite length_drop.
    destruct s; [done|simpl; lia].
Qed.

(** X4.  Every row [parseCsv] returns has at least one cell, and no cell
    holds a line feed or, when the delimiter is not empty, an occurrence of
    the delimiter. *)
Theorem parseCsv_cells (csv delimiter : JsString) :
  Forall (λ row,
            row ≠ []
            ∧ Forall (λ cell, (Ch.LF ∉ cell)
                              ∧ (delimiter = [] ∨ indexOf delimiter cell = None))
                row)
    (parseCsv csv delimiter).
Proof.
  unfold parseCsv. apply Forall_fmap, list.Forall_forall.
  intros line [Hlen Hline]%list_elem_of_filter. simpl.
  pose proof (splitLines_no_LF csv) as Hlf.
  rewrite list.Forall_forall in Hlf. specialize (Hlf line Hline).
  assert (Hchars : Forall (λ ch, ch ≠ Ch.LF) line).
  { apply list.Forall_forall. by intros ch Hch ->. }
  destruct delimiter as [|c sep']; simpl.
  - split; [by destruct line; [simpl in Hlen; lia|]|].
    apply Forall_fmap. eapply list.Forall_impl; [exact Hchars|].
    intros ch Hch. simpl. split; [|by left].
    intros [?|?%elem_of_nil]%elem_of_cons; [congruence|done].
  - split; [apply splitNonEmpty_nonempty|].
    eapply list.Forall_impl; [by apply (splitNonEmpty_pieces _ c sep' line Hchars)|].
    intros piece [Hnone Hpiece]. split; [|by right].
    rewrite list.Forall_forall in Hpiece. intros Hin. by apply (Hpiece _ Hin).
Qed.

Lemma splitLines_line_length (l t : JsString) :
  Ch.LF ∉ l →
  length (splitLines (l ++ Ch.LF :: t)) = S (length (splitLines t)).
Proof.
  induction l as [|c l IH]; intros Hlf; [done|].
  apply not_elem_of_cons in Hlf as [Hc Hl].
  change ((c :: l) ++ Ch.LF :: t) with (c :: (l ++ Ch.LF :: t)).
  cbn [splitLines]. destruct (N.eqb_spec c Ch.LF) as [->|_]; [done|].
  destruct l as [|d l].
  - simpl app. cbv iota beta. destruct (c =? Ch.CR)%N; simpl; [done|].
    by destruct t.
  - specialize (IH Hl).
    change ((d :: l) ++ Ch.LF :: t) with (d :: (l ++ Ch.LF :: t)) in *.
    cbv iota beta.
    assert (Hd : d ≠ Ch.LF) by (intros ->; apply Hl; left).
    replace (d =? Ch.LF)%N with false by (symmetry; by apply N.eqb_neq).
    rewrite andb_false_r.
    destruct (splitLines (d :: l ++ Ch.LF :: t)); [done|]. exact IH.
Qed.

(** Joined lines are cut into as many lines again. *)
Lemma splitLines_join_length (lines : list JsString) :
  lines ≠ [] → Forall (λ l, Ch.LF ∉ l) lines →
  length (splitLines (join [Ch.LF] lines)) = length lines.
Proof.
  induction lines as [|l [|m ls] IH]; intros Hne Hlines; [done|..].
  - apply Forall_inv in Hlines. simpl. by rewrite splitLines_single.
  - pose proof (Forall_inv Hlines) as Hlf. apply Forall_inv_tail in Hlines.
    rewrite join_cons2.
    change (l ++ [Ch.LF] ++ join [Ch.LF] (m :: ls))
      with (l ++ Ch.LF :: join [Ch.LF] (m :: ls)).
    rewrite splitLines_line_length by done. rewrite IH by done. done.
Qed.

Lemma splitLines_buildSample (csv : JsString) (maxLines : nat) :
  0 < maxLines →
  length (splitLines (buildSample csv (Z.of_nat maxLines)))
  = Nat.min maxLines (length (splitLines csv)).
Proof.
  intros Hpos. rewrite buildSample_take, splitLines_join_length.
  - apply length_take.
  - pose proof (splitLines_nonempty csv).
    destruct (splitLines csv); [done|]. by destruct maxLines; [lia|].
  - apply Forall_take, splitLines_no_LF.
Qed.

(** X5.  For a positive [maxLines], the sample has as many lines as the
    text, but never more than [maxLines]. *)
Theorem buildSample_line_count (csv : JsString) (maxLines : Z) :
  (0 < maxLines)%Z →
  length (splitLines (buildSample csv maxLines))
  = Nat.min (Z.to_nat maxLines) (length (splitLines csv)).
Proof.
  intros Hpos. rewrite <- (Z2Nat.id maxLines) at 1 by lia.
  apply splitLines_buildSample. lia.
Qed.

Lemma buildSample_line_count_witness :
  let text := lit "a" ++ [Ch.CR; Ch.LF; Ch.LF] ++ lit "b" in
  length (splitLines (buildSample text 2))
  = Nat.min (Z.to_nat 2) (length (splitLines text)).
Proof. intros text. apply (buildSample_line_count text 2). lia. Defined.

(** ** Counters and row balance of [applyActions] *)

Lemma collect_length (outcomes : list RowOutcome) :
  length (collect outcomes).1.1 + (collect outcomes).2 = length outcomes.
Proof.
  induction outcomes as [|o rest IH]; [done|]. simpl.
  destruct (collect rest) as [[t ch] dr]. destruct o; simpl in *; lia.
Qed.

(** The counters a state starts with are carried along unread. *)
Lemma applyAction_counters (hasHeader : bool) (st : ApplyActionsResult)
  (action : CleaningAction) :
  applyAction hasHeader st action
  = r ← applyAction hasHeader (mkResult (rows st) 0 0) action;
    Normal (addCounters (rowsChanged st) (rowsDropped st) r).
Proof.
  destruct action as [| |mode| |c oe].
  - unfold applyAction. cbn [rows rowsChanged rowsDropped].
    destruct (mapCells trimCell (rows st)). cbn. unfold addCounters. cbn.
    by rewrite Nat.add_0_r.
  - unfold applyAction. cbn [rows rowsChanged rowsDropped].
    destruct (mapCells stripCell (rows st)). cbn. unfold addCounters. cbn.
    by rewrite Nat.add_0_r.
  - unfold applyAction, ensureEqualColumns. cbn [rows rowsChanged rowsDropped].
    destruct (collect _) as [[t ch] dr]. by cbn.
  - unfold applyAction. cbn [rows rowsChanged rowsDropped].
    destruct (collect _) as [[t ch] dr]. unfold addCounters. cbn.
    by rewrite Nat.add_0_r.
  - rewrite !applyAction_coerce. cbn [rows rowsChanged rowsDropped].
    destruct (mapM _ _); [|done]. by cbn.
Qed.

Lemma addCounters_add (c1 d1 c2 d2 : nat) (st : ApplyActionsResult) :
  addCounters c1 d1 (addCounters c2 d2 st) = addCounters (c1 + c2) (d1 + d2) st.
Proof. unfold addCounters. simpl. f_equal; lia. Qed.

Lemma applyLoop_counters (hasHeader : bool) (actions : list CleaningAction)
  (st : ApplyActionsResult) :
  applyLoop hasHeader st actions
  = r ← applyLoop hasHeader (mkResult (rows st) 0 0) actions;
    Normal (addCounters (rowsChanged st) (rowsDropped st) r).
Proof.
  revert st. induction actions as [|a rest IH]; intros st.
  - destruct st as [t c d]. unfold addCounters. cbn.
    by rewrite !Nat.add_0_r.
  - cbn [applyLoop].
    rewrite (applyAction_counters hasHeader st a).
    destruct (applyAction hasHeader (mkResult (rows st) 0 0) a) as [r|err];
      [|done].
    cbn. rewrite (IH (addCounters _ _ r)), (IH r).
    change (rows (addCounters (rowsChanged st) (rowsDropped st) r))
      with (rows r).
    destruct (applyLoop hasHeader (mkResult (rows r) 0 0) rest) as [r'|err];
      [|done].
    cbn. by rewrite !addCounters_add.
Qed.

(** X6.  Running a plan that is the concatenation of two plans is running
    the first, then the second on the rows the first produced, and adding
    the counters: the two passes of [cleanCsv] report what a single pass
    over both plans would. *)
Theorem applyActions_app (rows0 : Table) (pre post : list CleaningAction)
  (hasHeader : bool) :
  applyActions rows0 (pre ++ post) hasHeader
  = st1 ← applyActions rows0 pre hasHeader;
    st2 ← applyActions (rows st1) post hasHeader;
    Normal (mkResult (rows st2) (rowsChanged st1 + rowsChanged st2)
              (rowsDropped st1 + rowsDropped st2)).
Proof.
  unfold applyActions. rewrite applyLoop_app.
  destruct (applyLoop hasHeader (mkResult rows0 0 0) pre) as [st1|err];
    [|done].
  cbn. by rewrite applyLoop_counters.
Qed.

Lemma applyAction_balance (hasHeader : bool) (st st' : ApplyActionsResult)
  (action : CleaningAction) :
  applyAction hasHeader st action = Normal st' →
  length (rows st') + rowsDropped st' = length (rows st) + rowsDropped st
  ∧ rowsChanged st ≤ rowsChanged st'.
Proof.
  destruct action as [| |mode| |c oe].
  - unfold applyAction.
    pose proof (mapCells_rows trimCell (rows st)) as Hrows.
    destruct (mapCells trimCell (rows st)) as [t n]. intros [= <-].
    simpl in *. subst t. rewrite length_map. lia.
  - unfold applyAction.
    pose proof (mapCells_rows stripCell (rows st)) as Hrows.
    destruct (mapCells stripCell (rows st)) as [t n]. intros [= <-].
    simpl in *. subst t. rewrite length_map. lia.
  - unfold applyAction, ensureEqualColumns.
    pose proof (collect_length
                  (map (ensureRow mode (expectedColumnsOf (rows st))) (rows st)))
      as Hlen.
    destruct (collect _) as [[t ch] dr]. intros [= <-].
    rewrite length_map in Hlen. simpl in *. lia.
  - unfold applyAction.
    pose proof (collect_length (imap (removeEmptyRow hasHeader) (rows st)))
      as Hlen.
    destruct (collect _) as [[t ch] dr]. intros [= <-].
    rewrite length_imap in Hlen. simpl in *. lia.
  - rewrite applyAction_coerce.
    destruct (mapM _ _) as [outcomes|err] eqn:Hout; [|done].
    intros [= <-]. apply mapM_Normal, Forall2_length in Hout.
    pose proof (collect_length outcomes) as Hlen.
    cbn [rows rowsChanged rowsDropped].
    rewrite length_app, length_take. rewrite length_drop in Hout. lia.
Qed.

Lemma applyLoop_balance (hasHeader : bool) (actions : list CleaningAction)
  (st0 st : ApplyActionsResult) :
  applyLoop hasHeader st0 actions = Normal st →
  length (rows st) + rowsDropped st = length (rows st0) + rowsDropped st0.
Proof.
  revert st0. induction actions as [|a rest IH]; intros st0;
    [by intros [= <-]|].
  cbn [applyLoop].
  destruct (applyAction hasHeader st0 a) as [st1|err] eqn:Ha; [|done].
  cbn. intros Hrest. apply IH in Hrest.
  apply applyAction_balance in Ha as [Ha _]. lia.
Qed.

(** X7.  Rows leave the table only by being dropped, and every dropped row
    is counted: when [applyActions] returns, the rows it returns and the
    rows it reports as dropped add up to the rows it was given. *)
Theorem applyActions_row_balance (rows0 : Table)
  (actions : list CleaningAction) (hasHeader : bool)
  (st : ApplyActionsResult) :
  applyActions rows0 actions hasHeader = Normal st →
  length (rows st) + rowsDropped st = length rows0.
Proof.
  unfold applyActions. intros Hrun. apply applyLoop_balance in Hrun.
  simpl in Hrun. lia.
Qed.

Lemma applyActions_row_balance_witness :
  let rows0 := [[lit "h"]; [lit "1"; []]; [[]]] in
  let plan := preCleanActions ++ [ENSURE_EQUAL_COLUMNS DropRowMode] in
  let st := mkResult [[lit "h"]] 0 2 in
  applyActions rows0 plan true = Normal st
  ∧ length (rows st) + rowsDropped st = length rows0.
Proof.
  intros rows0 plan st. split; [reflexivity|].
  apply (applyActions_row_balance rows0 plan true st). reflexivity.
Defined.

Lemma applyActions_total (rows0 : Table) (actions : list CleaningAction)
  (hasHeader : bool) :
  Forall (λ a, match a with
               | COERCE_NUMERIC c _ => is_Some (arrayIndex c)
               | _ => True
               end) actions →
  ∃ st, applyActions rows0 actions hasHeader = Normal st.
Proof. apply applyLoop_total. Qed.

(** ** The row-wise actions as filters *)

(** A loop that keeps or drops each row by a test is a filter that counts
    what it leaves out. *)
Lemma collect_filter (keep : Row → bool) (t : Table) :
  collect (map (λ row, if keep row then Kept row else Dropped) t)
  = (filter (λ row, keep row = true) t, 0,
     length t - length (filter (λ row, keep row = true) t)).
Proof.
  induction t as [|row t IH]; [done|].
  cbn [map collect]. rewrite IH.
  pose proof (length_filter (λ row, keep row = true) t) as Hle.
  rewrite filter_cons. destruct (keep row) eqn:Hkeep.
  - by rewrite decide_True by done.
  - rewrite decide_False by done. do 2 f_equal.
    cbn [length]. lia.
Qed.

Lemma filter_filter_same {A} (P : A → Prop) `{!∀ x, Decision (P x)}
  (l : list A) :
  filter P (filter P l) = filter P l.
Proof.
  apply filter_all, list.Forall_forall.
  by intros x [? _]%list_elem_of_filter.
Qed.

(** X8.  ENSURE_EQUAL_COLUMNS in mode drop-row is a filter on the length of
    the first row: on a table [first :: rest] it keeps, in order and
    unchanged, exactly the rows that have as many cells as [first], counts
    the others as dropped, and counts no change; on the table without rows
    it does nothing. *)
Theorem ensure_drop_row_filter (hasHeader : bool) (changed dropped : nat) :
  applyAction hasHeader (mkResult [] changed dropped)
    (ENSURE_EQUAL_COLUMNS DropRowMode)
  = Normal (mkResult [] changed dropped)
  ∧ ∀ first rest,
      let table := first :: rest in
      let kept := filter (λ row, length row = length first) table in
      applyAction hasHeader (mkResult table changed dropped)
        (ENSURE_EQUAL_COLUMNS DropRowMode)
      = Normal (mkResult kept changed
                  (dropped + (length table - length kept))).
Proof.
  split.
  - cbn. by rewrite !Nat.add_0_r.
  - intros first rest table kept. unfold applyAction, ensureEqualColumns.
    cbn [rows rowsChanged rowsDropped]. fold table.
    change (expectedColumnsOf table) with (length first).
    assert (Hmap : map (ensureRow DropRowMode (length first)) table
                   = map (λ row, if length row =? length first
                                 then Kept row else Dropped) table).
    { apply map_ext. intros row. unfold ensureRow.
      by destruct (length row =? length first). }
    rewrite Hmap, (collect_filter (λ row, length row =? length first)).
    assert (Hfilter : filter (λ row, (length row =? length first) = true) table
                      = kept).
    { unfold kept. apply list_filter_iff. intros row. apply Nat.eqb_eq. }
    rewrite Hfilter. by rewrite Nat.add_0_r.
Qed.


Lemma collect_removeEmptyRow (hasHeader : bool) (t : Table) :
  let kept :=
    take (startIndexOf hasHeader) t
    ++ filter (λ row, allEmpty row = false)
         (drop (startIndexOf hasHeader) t) in
  collect (imap (removeEmptyRow hasHeader) t)
  = (kept, 0, length t - length kept).
Proof.
  assert (Hfilter : ∀ l : Table,
            filter (λ row, negb (allEmpty row) = true) l
            = filter (λ row, allEmpty row = false) l).
  { intros l. apply list_filter_iff. intros row. by destruct (allEmpty row). }
  destruct hasHeader; cbn [startIndexOf].
  - destruct t as [|row0 t]; [done|].
    rewrite imap_cons, removeEmptyRow_data.
    cbn [removeEmptyRow andb Nat.eqb collect take drop app].
    rewrite (collect_filter (λ row, negb (allEmpty row))), Hfilter.
    cbn [length].
    pose proof (length_filter (λ row, allEmpty row = false) t). simpl.
    do 2 f_equal.
  - rewrite removeEmptyRow_no_header.
    rewrite (collect_filter (λ row, negb (allEmpty row))), Hfilter.
    by rewrite take_0, drop_0.
Qed.

Lemma remove_empty_rows_filter_aux (hasHeader : bool)
  (st : ApplyActionsResult) :
  applyAction hasHeader st REMOVE_EMPTY_ROWS
  = let kept :=
      take (startIndexOf hasHeader) (rows st)
      ++ filter (λ row, allEmpty row = false)
           (drop (startIndexOf hasHeader) (rows st)) in
    Normal (mkResult kept (rowsChanged st)
              (rowsDropped st + (length (rows st) - length kept))).
Proof. unfold applyAction. by rewrite collect_removeEmptyRow. Qed.

(** X9.  REMOVE_EMPTY_ROWS is a filter on the data rows: it keeps the row
    at index 0 when [hasHeader] is true, and of the other rows it keeps, in
    order and unchanged, those that do not count as empty: a row with a
    non-blank cell after its first cell, or a one-cell row whose cell is not
    blank.  It counts the rows left out as dropped, and counts no
    change. *)
Theorem remove_empty_rows_filter (hasHeader : bool) (st : ApplyActionsResult) :
  let header := if hasHeader then take 1 (rows st) else [] in
  let data := if hasHeader then drop 1 (rows st) else rows st in
  let kept := header ++ filter (λ row, emptyDataRow row = false) data in
  applyAction hasHeader st REMOVE_EMPTY_ROWS
  = Normal (mkResult kept (rowsChanged st)
              (rowsDropped st + (length (rows st) - length kept))).
Proof.
  intros header data kept. rewrite remove_empty_rows_filter_aux. cbv zeta.
  assert (take (startIndexOf hasHeader) (rows st)
          ++ filter (λ row, allEmpty row = false)
               (drop (startIndexOf hasHeader) (rows st)) = kept) as ->.
  { unfold kept, header, data. destruct hasHeader; cbn [startIndexOf].
    - f_equal. apply list_filter_iff. intros row.
      by rewrite allEmpty_emptyDataRow.
    - rewrite take_0, drop_0. f_equal. apply list_filter_iff. intros row.
      by rewrite allEmpty_emptyDataRow. }
  done.
Qed.


Lemma mapCells_trim_again (t : Table) :
  mapCells trimCell (mapCells trimCell t).1 = ((mapCells trimCell t).1, 0).
Proof.
  rewrite (surjective_pairing (mapCells trimCell (mapCells trimCell t).1)).
  rewrite !mapCells_rows. f_equal.
  - rewrite map_map. apply map_ext. intros row.
    rewrite map_map. apply map_ext. intros cell. simpl. apply trim_idem.
  - rewrite <- mapCells_rows. apply mapCells_count_zero.
    rewrite mapCells_rows. apply Forall_fmap, list.Forall_forall.
    intros row _. apply Forall_fmap, list.Forall_forall. intros cell _.
    simpl. rewrite trim_idem. by apply bool_decide_eq_false_2; intros [].
Qed.

Lemma ensureRow_length (mode : CleaningMode) (n : nat) (row : Row) :
  match ensureRow mode n row with
  | Kept row' | Changed row' => length row' = n
  | Dropped => True
  end.
Proof.
  unfold ensureRow. destruct (Nat.eqb_spec (length row) n) as [|Hne]; [done|].
  destruct mode; cbn [bool_decide decide_rel andb].
  - by rewrite bool_decide_eq_false_2, bool_decide_eq_true_2.
  - rewrite bool_decide_eq_true_2 by done. cbn [andb].
    destruct (Nat.ltb_spec (length row) n) as [Hlt|Hge].
    + rewrite length_app, length_replicate. lia.
    + rewrite bool_decide_eq_false_2 by done.
      rewrite slice_0_take, length_take. lia.
Qed.

(** After ENSURE_EQUAL_COLUMNS every row has the expected number of
    cells. *)
Lemma collect_ensure_lengths (mode : CleaningMode) (n : nat) (t : Table) :
  Forall (λ row, length row = n) (collect (map (ensureRow mode n) t)).1.1.
Proof.
  apply list.Forall_forall. intros row Hrow.
  apply collect_rows_elem in Hrow as [Hin|Hin];
    apply list_elem_of_fmap in Hin as (row0 & Heq & _);
    pose proof (ensureRow_length mode n row0) as Hlen;
    by rewrite <- Heq in Hlen.
Qed.

Lemma ensureEqualColumns_again (mode : CleaningMode) (t : Table) :
  let t1 := (collect (map (ensureRow mode (expectedColumnsOf t)) t)).1.1 in
  collect (map (ensureRow mode (expectedColumnsOf t1)) t1) = (t1, 0, 0).
Proof.
  intros t1. destruct t as [|row0 t']; [done|].
  assert (Hn : expectedColumnsOf t1 = expectedColumnsOf (row0 :: t')).
  { unfold t1. cbn [map expectedColumnsOf].
    by rewrite ensureRow_same_length, collect_Kept_head. }
  rewrite Hn. apply collect_ensure_equal, collect_ensure_lengths.
Qed.

Lemma bind_Normal {A B} (x : A) (k : A → Completion B) :
  (Normal x ≫= k) = k x.
Proof. done. Qed.

Lemma applyAction_trim (hasHeader : bool) (st : ApplyActionsResult) :
  applyAction hasHeader st TRIM_WHITESPACE
  = Normal (mkResult (mapCells trimCell (rows st)).1
              (rowsChanged st + (mapCells trimCell (rows st)).2)
              (rowsDropped st)).
Proof. unfold applyAction. by destruct (mapCells trimCell (rows st)). Qed.

Lemma applyAction_ensure (hasHeader : bool) (st : ApplyActionsResult)
  (mode : CleaningMode) :
  applyAction hasHeader st (ENSURE_EQUAL_COLUMNS mode)
  = let outcome :=
      collect (map (ensureRow mode (expectedColumnsOf (rows st))) (rows st)) in
    Normal (mkResult outcome.1.1 (rowsChanged st + outcome.1.2)
              (rowsDropped st + outcome.2)).
Proof.
  unfold applyAction, ensureEqualColumns. by destruct (collect _) as [[t ch] dr].
Qed.

Lemma removeEmptyRows_again (hasHeader : bool) (t : Table) :
  let kept :=
    take (startIndexOf hasHeader) t
    ++ filter (λ row, allEmpty row = false) (drop (startIndexOf hasHeader) t) in
  take (startIndexOf hasHeader) kept
  ++ filter (λ row, allEmpty row = false) (drop (startIndexOf hasHeader) kept)
  = kept.
Proof.
  cbv zeta. destruct hasHeader; cbn [startIndexOf].
  - destruct t as [|row0 t]; [done|].
    cbn [firstn skipn app]. rewrite !take_0, !drop_0. cbn [app].
    by rewrite filter_filter_same.
  - rewrite !take_0, !drop_0. cbn [app]. by rewrite filter_filter_same.
Qed.

(** X10.  TRIM_WHITESPACE, REMOVE_EMPTY_ROWS and ENSURE_EQUAL_COLUMNS (in
    either mode) are idempotent: run twice in a row, the action returns the
    rows and the counters of a single run. *)
Theorem repeated_action_idempotent (hasHeader : bool)
  (st : ApplyActionsResult) (action : CleaningAction) :
  action = TRIM_WHITESPACE ∨ action = REMOVE_EMPTY_ROWS
  ∨ (∃ mode, action = ENSURE_EQUAL_COLUMNS mode) →
  applyLoop hasHeader st [action; action] = applyLoop hasHeader st [action].
Proof.
  intros [->|[->|[mode ->]]]; cbn [applyLoop].
  - rewrite applyAction_trim, !bind_Normal, applyAction_trim, bind_Normal.
    cbn [rows rowsChanged rowsDropped].
    rewrite mapCells_trim_again. cbn [fst snd]. by rewrite Nat.add_0_r.
  - rewrite remove_empty_rows_filter_aux, !bind_Normal.
    rewrite remove_empty_rows_filter_aux, bind_Normal.
    cbv zeta. cbn [rows rowsChanged rowsDropped].
    rewrite removeEmptyRows_again. do 2 f_equal. lia.
  - rewrite applyAction_ensure, !bind_Normal.
    rewrite applyAction_ensure, bind_Normal.
    cbv zeta. cbn [rows rowsChanged rowsDropped].
    rewrite ensureEqualColumns_again. cbn [fst snd].
    by rewrite !Nat.add_0_r.
Qed.

Lemma repeated_action_idempotent_witness :
  let st := mkResult [[lit "a"; lit "b"]; [lit " c "]; [lit "d"; []; []]] 0 0 in
  applyLoop true st
    [ENSURE_EQUAL_COLUMNS PadWithEmpty; ENSURE_EQUAL_COLUMNS PadWithEmpty]
  = applyLoop true st [ENSURE_EQUAL_COLUMNS PadWithEmpty].
Proof.
  intros st. apply repeated_action_idempotent. right. right. by eexists.
Defined.

(** ** COERCE_NUMERIC at the edges of its column index *)

Lemma mapM_all_Normal {A B} (f : A → Completion B) (g : A → B) (l : list A) :
  Forall (λ x, f x = Normal (g x)) l → mapM f l = Normal (map g l).
Proof.
  intros Hl. apply mapM_Normal. induction Hl; constructor; done.
Qed.

Lemma mapM_Throw {A B} (f : A → Completion B) (l : list A) :
  Exists (λ x, f x = Throw TypeError) l → mapM f l = Throw TypeError.
Proof.
  induction 1 as [x l Hx|x l _ IH]; cbn [mapM].
  - by rewrite Hx.
  - destruct (f x) as [y|[]]; [|done]. rewrite bind_Normal.
    by rewrite IH.
Qed.

Lemma collect_Kept (t : Table) : collect (map Kept t) = (t, 0, 0).
Proof. induction t as [|row t IH]; [done|]. simpl. by rewrite IH. Qed.

(** X11.  COERCE_NUMERIC whose column index is negative, or not below the
    length of any data row, does nothing: the state comes back as it
    was. *)
Theorem coerce_out_of_range_noop (hasHeader : bool) (st : ApplyActionsResult)
  (columnIndex : JsNumber) (onError : CoerceOnError) :
  Forall (λ row, ltZero columnIndex || geLength columnIndex (length row) = true)
    (drop (startIndexOf hasHeader) (rows st)) →
  applyAction hasHeader st (COERCE_NUMERIC columnIndex onError) = Normal st.
Proof.
  intros Hrows. rewrite applyAction_coerce.
  rewrite (mapM_all_Normal _ Kept).
  - rewrite bind_Normal, collect_Kept. cbn [fst snd].
    rewrite take_drop, !Nat.add_0_r. by destruct st.
  - eapply list.Forall_impl; [exact Hrows|]. intros row Hrow.
    unfold coerceRow. by rewrite Hrow.
Qed.

Lemma coerce_out_of_range_noop_witness :
  let st := mkResult [[lit "id"; lit "age"]; [lit "1"; lit "x"]; [lit "2"]] 3 1 in
  applyAction true st (COERCE_NUMERIC (Finite false 1 1) SetZero) = Normal st.
Proof.
  intros st. apply coerce_out_of_range_noop. by repeat constructor.
Defined.

(** X12.  COERCE_NUMERIC whose column index is not negative and is no array
    index (a fraction, or NaN) throws a TypeError as soon as the index is
    below the length of some data row: the cell read is [undefined]. *)
Theorem coerce_non_index_throws (hasHeader : bool) (st : ApplyActionsResult)
  (columnIndex : JsNumber) (onError : CoerceOnError) :
  ltZero columnIndex = false → arrayIndex columnIndex = None →
  Exists (λ row, geLength columnIndex (length row) = false)
    (drop (startIndexOf hasHeader) (rows st)) →
  applyAction hasHeader st (COERCE_NUMERIC columnIndex onError)
  = Throw TypeError.
Proof.
  intros Hlt Hidx Hrows. rewrite applyAction_coerce.
  rewrite mapM_Throw; [done|].
  eapply Exists_impl; [|exact Hrows]. intros row Hrow. simpl in Hrow.
  unfold coerceRow. by rewrite Hlt, Hrow, Hidx.
Qed.

Lemma coerce_non_index_throws_witness :
  applyAction true (mkResult [[lit "id"; lit "age"]; [lit "1"; lit "30"]] 0 0)
    (COERCE_NUMERIC (Finite false 1 (-1)) DropRow)
  = Throw TypeError.
Proof.
  apply coerce_non_index_throws; [done|done|].
  apply Exists_cons_hd. reflexivity.
Defined.

(** ** The cell-wise actions *)

Lemma startsWith_endsWith_split (s : JsString) (c : N) :
  2 ≤ length s → startsWith s c = true → endsWith s c = true →
  ∃ inner, s = c :: inner ++ [c].
Proof.
  intros Hlen Hstart Hend. destruct s as [|d s]; [done|].
  simpl in Hstart. apply N.eqb_eq in Hstart as ->.
  destruct s as [|e s _] using rev_ind; [simpl in Hlen; lia|].
  exists s. unfold endsWith in Hend.
  change (c :: s ++ [e]) with ((c :: s) ++ [e]) in Hend.
  rewrite rev_app_distr in Hend. simpl in Hend.
  by apply N.eqb_eq in Hend as ->.
Qed.

Lemma slice_inner (c d : N) (inner : JsString) :
  slice (c :: inner ++ [d]) 1 (-1) = inner.
Proof.
  unfold slice, relIndex. cbn [Z.ltb Z.compare].
  rewrite length_cons, length_app. cbn [length].
  replace (Z.to_nat (Z.max (Z.of_nat (S (length inner + 1)) + -1) 0))
    with (S (length inner)) by lia.
  replace (Nat.min (Z.to_nat 1) (S (length inner + 1))) with 1 by lia.
  replace (S (length inner) - 1) with (length inner) by lia.
  cbn [skipn]. rewrite drop_0. by rewrite take_app_length.
Qed.

(** X13.  STRIP_WRAPPING_QUOTES takes exactly one pair of outer quotes off
    the trimmed text of a cell; a cell it does not count is left as it is,
    surrounding white space included. *)
Theorem stripCell_unwraps (cell : JsString) :
  stripCell cell = (cell, false)
  ∨ ∃ inner,
      stripCell cell = (inner, true)
      ∧ trim cell = Ch.DQUOTE :: inner ++ [Ch.DQUOTE].
Proof.
  unfold stripCell.
  destruct (Nat.leb_spec 2 (length (trim cell))) as [Hlen|_]; [|by left].
  destruct (startsWith (trim cell) Ch.DQUOTE) eqn:Hstart; [|by left].
  destruct (endsWith (trim cell) Ch.DQUOTE) eqn:Hend; [|by left].
  right. cbn [andb].
  destruct (startsWith_endsWith_split _ _ Hlen Hstart Hend) as [inner Hinner].
  exists inner. by rewrite Hinner, slice_inner.
Qed.

Lemma mapCells_shape (f : JsString → JsString * bool) (t : Table) :
  Forall2 (λ row row', length row' = length row) t (mapCells f t).1.
Proof.
  rewrite mapCells_rows. induction t as [|row t IH]; constructor; [|done].
  by rewrite length_map.
Qed.

(** X14.  TRIM_WHITESPACE and STRIP_WRAPPING_QUOTES never fail and keep the
    shape of the table: the same number of rows, each with the same number
    of cells, and no row counted as dropped. *)
Theorem cellwise_actions_keep_shape (hasHeader : bool)
  (st : ApplyActionsResult) (action : CleaningAction) :
  action = TRIM_WHITESPACE ∨ action = STRIP_WRAPPING_QUOTES →
  ∃ st',
    applyAction hasHeader st action = Normal st'
    ∧ Forall2 (λ row row', length row' = length row) (rows st) (rows st')
    ∧ rowsDropped st' = rowsDropped st
    ∧ rowsChanged st ≤ rowsChanged st'.
Proof.
  intros [-> | ->]; unfold applyAction.
  - pose proof (mapCells_shape trimCell (rows st)) as Hshape.
    destruct (mapCells trimCell (rows st)) as [t n]. eexists.
    split; [done|]. cbn [rows rowsChanged rowsDropped].
    split; [done|]. split; [done|lia].
  - pose proof (mapCells_shape stripCell (rows st)) as Hshape.
    destruct (mapCells stripCell (rows st)) as [t n]. eexists.
    split; [done|]. cbn [rows rowsChanged rowsDropped].
    split; [done|]. split; [done|lia].
Qed.

Lemma cellwise_actions_keep_shape_witness :
  let st := mkResult [[lit " a "; [Ch.DQUOTE; 98%N; Ch.DQUOTE]]; [lit "c"]] 0 0 in
  ∃ st',
    applyAction true st STRIP_WRAPPING_QUOTES = Normal st'
    ∧ Forall2 (λ row row', length row' = length row) (rows st) (rows st')
    ∧ rowsDropped st' = rowsDropped st
    ∧ rowsChanged st ≤ rowsChanged st'.
Proof.
  intros st. apply cellwise_actions_keep_shape. by right.
Defined.

(** ** The plan handed to the engine *)

(** X15.  [mapToCleaningActions] works candidate by candidate: the actions
    of a concatenated list are the actions of its parts, in the same
    order, and it throws when one part does. *)
Theorem mapToCleaningActions_app (raw1 raw2 : list JsValue) :
  mapToCleaningActions (raw1 ++ raw2)
  = actions1 ← mapToCleaningActions raw1;
    actions2 ← mapToCleaningActions raw2;
    Normal (actions1 ++ actions2).
Proof.
  induction raw1 as [|a raw1 IH].
  - cbn [app mapToCleaningActions]. rewrite bind_Normal.
    by destruct (mapToCleaningActions raw2).
  - cbn [app mapToCleaningActions]. rewrite IH.
    destruct (normalizeCandidate a) as [pushed|err]; [|done].
    rewrite !bind_Normal.
    destruct (mapToCleaningActions raw1) as [actions1|err]; [|done].
    rewrite !bind_Normal.
    destruct (mapToCleaningActions raw2) as [actions2|err]; [|done].
    rewrite !bind_Normal. by destruct pushed.
Qed.

Lemma normalizeCandidate_actionValue (a : AnalyzeCsvAction) :
  ∃ pushed,
    normalizeCandidate (actionValue a) = Normal pushed
    ∧ match pushed with
      | Some (ENSURE_EQUAL_COLUMNS mode) => mode = DropRowMode
      | Some (COERCE_NUMERIC columnIndex onError) =>
          onError = DropRow ∧ action_columnIndex a = Some columnIndex
      | _ => True
      end.
Proof.
  unfold normalizeCandidate.
  assert (getProp (actionValue a) "type" = Normal (JStr (action_type a)))
    as -> by done.
  assert (getProp (actionValue a) "mode" = Normal JUndefined) as -> by done.
  assert (getProp (actionValue a) "onError" = Normal JUndefined) as -> by done.
  assert (getProp (actionValue a) "columnIndex"
          = Normal match action_columnIndex a with
                   | Some x => JNum x
                   | None => JUndefined
                   end) as -> by (by destruct a as [ty [x|]]).
  rewrite !bind_Normal.
  repeat case_bool_decide; try (by eexists).
  destruct (action_columnIndex a); by eexists.
Qed.

(** What [mapToCleaningActions] makes of a plan of [analyzeCsv]. *)
Lemma mapToCleaningActions_plan (P : JsNumber → Prop)
  (plan : list AnalyzeCsvAction) :
  Forall (λ a, ∀ c, action_columnIndex a = Some c → P c) plan →
  ∃ actions,
    mapToCleaningActions (actionValue <$> plan) = Normal actions
    ∧ Forall (λ action,
                match action with
                | ENSURE_EQUAL_COLUMNS mode => mode = DropRowMode
                | COERCE_NUMERIC c onError => onError = DropRow ∧ P c
                | _ => True
                end) actions.
Proof.
  induction 1 as [|a plan Ha _ (actions & Hrest & Hmodes)].
  - by exists [].
  - destruct (normalizeCandidate_actionValue a) as (pushed & Hpush & Hpushed).
    rewrite fmap_cons. cbn [mapToCleaningActions].
    rewrite Hpush, Hrest, !bind_Normal.
    eexists. split; [done|]. destruct pushed as [action|]; [|done].
    constructor; [|done]. destruct action; try done.
    destruct Hpushed as [-> Hc]. split; [done|]. by apply Ha.
Qed.

(** X16.  The plan [analyzeCsv] returns carries a type and a column index
    only, so [mapToCleaningActions] never throws on it, and every
    ENSURE_EQUAL_COLUMNS and COERCE_NUMERIC action it yields runs in mode
    drop-row: the advisor cannot choose pad-with-empty, set-null or
    set-zero. *)
Theorem advisor_plan_default_modes (plan : list AnalyzeCsvAction) :
  ∃ actions,
    mapToCleaningActions (actionValue <$> plan) = Normal actions
    ∧ Forall (λ action,
                match action with
                | ENSURE_EQUAL_COLUMNS mode => mode = DropRowMode
                | COERCE_NUMERIC _ onError => onError = DropRow
                | _ => True
                end) actions.
Proof.
  destruct (mapToCleaningActions_plan (λ _, True) plan)
    as (actions & Hactions & Hmodes).
  { by apply list.Forall_forall. }
  exists actions. split; [done|].
  eapply list.Forall_impl; [exact Hmodes|]. intros action.
  destruct action; try done. by intros [-> _].
Qed.

Lemma analyzeAction_nullish (a : JsValue) :
  isNullish a = true → analyzeAction a = Throw TypeError.
Proof.
  intros Ha. unfold analyzeAction. by rewrite (getProp_nullish a "type").
Qed.

Lemma analyzeAction_total (a : JsValue) :
  isNullish a = false → ∃ a', analyzeAction a = Normal a'.
Proof.
  intros Ha. unfold analyzeAction.
  destruct (getProp_normal a "type" Ha) as [ty ->].
  destruct (getProp_normal a "column_index" Ha) as [snake ->].
  destruct (getProp_normal a "columnIndex" Ha) as [camel ->].
  rewrite !bind_Normal.
  destruct snake; try (by eexists); destruct camel; by eexists.
Qed.

Lemma mapM_analyzeAction (rawActions : list JsValue) :
  (Exists (λ a, isNullish a = true) rawActions
   ∧ mapM analyzeAction rawActions = Throw TypeError)
  ∨ (Forall (λ a, isNullish a = false) rawActions
     ∧ ∃ plan, mapM analyzeAction rawActions = Normal plan
               ∧ length plan = length rawActions).
Proof.
  induction rawActions as [|a rest IH].
  - right. split; [done|]. by exists [].
  - destruct (isNullish a) eqn:Ha.
    + left. split; [by left|]. apply mapM_Throw. left.
      by apply analyzeAction_nullish.
    + destruct IH as [[Hex Hthrow]|(Hall & plan & Hplan & Hlen)].
      * left. split; [by right|]. apply mapM_Throw. right.
        eapply Exists_impl; [|exact Hex].
        intros b Hb. by apply analyzeAction_nullish.
      * right. split; [by constructor|].
        destruct (analyzeAction_total a Ha) as [a' Ha'].
        exists (a' :: plan). cbn [mapM]. rewrite Ha', Hplan.
        split; [done|]. simpl. by rewrite Hlen.
Qed.

(** X17.  Steps 3 to 5 of [cleanCsv] throw a TypeError exactly when the
    advisor's [actions] array holds [null] or [undefined]; any other
    element, whatever its shape, is mapped or skipped. *)
Theorem planCleaningActions_throws_iff (rawActions : list JsValue) :
  planCleaningActions rawActions = Throw TypeError
  ↔ Exists (λ a, isNullish a = true) rawActions.
Proof.
  unfold planCleaningActions.
  destruct (mapM_analyzeAction rawActions)
    as [[Hex ->]|(Hall & plan & -> & _)].
  - done.
  - rewrite bind_Normal.
    destruct (mapToCleaningActions_plan (λ _, True) plan) as (actions & -> & _);
      [by apply list.Forall_forall|].
    split; [done|]. intros Hex. apply Exists_exists in Hex as (a & Hin & Ha).
    rewrite Forall_forall in Hall. specialize (Hall a Hin). congruence.
Qed.

(** ** [extractJsonBlock] *)

Lemma trimStart_split (s : JsString) : ∃ pre, s = pre ++ trimStart s.
Proof.
  induction s as [|c s [pre IH]]; [by exists []|]. simpl.
  destruct (isWhiteSpace c); [|by exists []].
  exists (c :: pre). simpl. by f_equal.
Qed.

(** The trimmed text is a contiguous part of the text. *)
Lemma trim_split (s : JsString) : ∃ pre post, s = pre ++ trim s ++ post.
Proof.
  destruct (trimStart_split s) as [pre Hpre].
  destruct (trimStart_split (rev (trimStart s))) as [post Hpost].
  exists pre, (rev post). unfold trim, trimEnd.
  rewrite <- rev_app_distr, <- Hpost, rev_involutive. exact Hpre.
Qed.

Lemma trim_clean_id (s : JsString) :
  startsClean s → startsClean (rev s) → trim s = s.
Proof.
  intros Hstart Hend. unfold trim, trimEnd.
  rewrite (trimStart_id s Hstart), (trimStart_id _ Hend).
  apply rev_involutive.
Qed.

Lemma lastIndexOf_Some (sep s : JsString) (j : nat) :
  lastIndexOf sep s = Some j →
  s = take j s ++ sep ++ drop (j + length sep) s.
Proof.
  revert j. induction s as [|c s IH]; intros j; cbn [lastIndexOf].
  - destruct (isPrefix sep []) eqn:Hp; [|done]. intros [= <-].
    apply isPrefix_spec in Hp as [r Hr]. symmetry in Hr.
    by apply app_eq_nil in Hr as [-> ->].
  - destruct (lastIndexOf sep s) as [j'|] eqn:Hj.
    + intros [= <-]. simpl. f_equal. by apply IH.
    + destruct (isPrefix sep (c :: s)) eqn:Hp; [|done]. intros [= <-].
      apply isPrefix_spec in Hp as [r Hr]. rewrite Hr at 1.
      simpl. by rewrite Hr, drop_app_length.
Qed.

Lemma decomposed_lookup (s : JsString) (c : N) (j : nat) :
  s = take j s ++ [c] ++ drop (j + 1) s → s !! j = Some c.
Proof.
  intros Hs. rewrite Hs.
  destruct (decide (j < length s)) as [Hlt|Hge].
  - rewrite lookup_app_r by (rewrite length_take; lia).
    rewrite length_take. by replace (j - j `min` length s) with 0 by lia.
  - apply (f_equal length) in Hs.
    rewrite !length_app, length_take, length_drop in Hs. simpl in Hs. lia.
Qed.

Lemma indexOf_single_lookup (c : N) (s : JsString) (j : nat) :
  indexOf [c] s = Some j → s !! j = Some c.
Proof.
  intros Hj. apply indexOf_Some in Hj.
  by apply decomposed_lookup.
Qed.

Lemma lastIndexOf_single_lookup (c : N) (s : JsString) (j : nat) :
  lastIndexOf [c] s = Some j → s !! j = Some c.
Proof.
  intros Hj. apply lastIndexOf_Some in Hj.
  by apply decomposed_lookup.
Qed.

(** [indexOf] finds the first occurrence, [lastIndexOf] the last. *)
Lemma indexOf_single_le (c : N) (s : JsString) (i : nat) :
  s !! i = Some c → ∃ j, indexOf [c] s = Some j ∧ j ≤ i.
Proof.
  revert i. induction s as [|d s IH]; intros i Hi; [done|].
  cbn [indexOf]. rewrite isPrefix_single. cbn [startsWith].
  destruct (N.eqb_spec d c) as [->|Hne].
  - exists 0. split; [done|lia].
  - destruct i as [|i]; [simpl in Hi; congruence|].
    destruct (IH i Hi) as (j & -> & Hle). exists (S j). split; [done|lia].
Qed.

Lemma lastIndexOf_single_ge (c : N) (s : JsString) (k : nat) :
  s !! k = Some c → ∃ j, lastIndexOf [c] s = Some j ∧ k ≤ j.
Proof.
  revert k. induction s as [|d s IH]; intros k Hk; [done|].
  cbn [lastIndexOf]. destruct k as [|k].
  - simpl in Hk. injection Hk as ->.
    destruct (lastIndexOf [c] s) as [j|].
    + exists (S j). split; [done|lia].
    + rewrite isPrefix_single. cbn [startsWith]. rewrite N.eqb_refl.
      exists 0. split; [done|lia].
  - destruct (IH k Hk) as (j & -> & Hle). exists (S j). split; [done|lia].
Qed.

Lemma endsWith_snoc (s : JsString) (c d : N) :
  endsWith (s ++ [c]) d = (c =? d)%N.
Proof. unfold endsWith. by rewrite rev_app_distr. Qed.

(** The candidate of [extractJsonBlock]: from the first opening brace to
    the last closing brace. *)
Lemma brace_block (raw : JsString) (first last : nat) :
  indexOf [openBrace] raw = Some first →
  lastIndexOf [closeBrace] raw = Some last →
  first < last →
  ∃ mid,
    slice raw (Z.of_nat first) (Z.of_nat last + 1)
    = openBrace :: mid ++ [closeBrace]
    ∧ raw = take first raw ++ (openBrace :: mid ++ [closeBrace])
            ++ drop (S last) raw.
Proof.
  intros Hfirst Hlast Hlt.
  apply indexOf_single_lookup in Hfirst.
  apply lastIndexOf_single_lookup in Hlast.
  pose proof (lookup_lt_Some _ _ _ Hfirst) as Hf.
  pose proof (lookup_lt_Some _ _ _ Hlast) as Hl.
  exists (take (last - first - 1) (drop (S first) raw)).
  assert (Hblock : take (S last - first) (drop first raw)
                   = openBrace :: take (last - first - 1) (drop (S first) raw)
                     ++ [closeBrace]).
  { rewrite (drop_S _ _ _ Hfirst).
    replace (S last - first) with (S (S (last - first - 1))) by lia.
    rewrite firstn_cons. f_equal. apply take_S_r.
    rewrite lookup_drop. by replace (S first + (last - first - 1)) with last by lia. }
  split.
  - unfold slice, relIndex.
    replace (Z.of_nat first <? 0)%Z with false by lia.
    replace (Z.of_nat last + 1 <? 0)%Z with false by lia.
    replace (Z.to_nat (Z.of_nat last + 1) `min` length raw) with (S last) by lia.
    replace (Z.to_nat (Z.of_nat first) `min` length raw) with first by lia.
    exact Hblock.
  - rewrite <- Hblock.
    rewrite <- (take_drop first raw) at 1. f_equal.
    rewrite <- (take_drop (S last - first) (drop first raw)) at 1. f_equal.
    rewrite drop_drop. f_equal. lia.
Qed.

Lemma openBrace_clean : isWhiteSpace openBrace = false.
Proof. done. Qed.

Lemma closeBrace_clean : isWhiteSpace closeBrace = false.
Proof. done. Qed.

(** X18.  Whatever [extractJsonBlock] returns is a contiguous part of the
    reply that begins with an opening brace, ends with a closing brace and
    has no white space around it. *)
Theorem extractJsonBlock_block (raw json : JsString) :
  extractJsonBlock raw = Returned json →
  (∃ mid, json = openBrace :: mid ++ [closeBrace])
  ∧ (∃ pre post, raw = pre ++ json ++ post)
  ∧ trim json = json.
Proof.
  unfold extractJsonBlock.
  destruct (startsWith (trim raw) openBrace && endsWith (trim raw) closeBrace)
    eqn:Hclean.
  - intros [= <-]. apply andb_prop in Hclean as [Hstart Hend].
    split_and!; [|apply trim_split|apply trim_idem].
    destruct (trim raw) as [|c s]; [done|]. simpl in Hstart.
    apply N.eqb_eq in Hstart as ->.
    destruct s as [|e s _] using rev_ind; [done|]. exists s.
    change (openBrace :: s ++ [e]) with ((openBrace :: s) ++ [e]) in Hend.
    rewrite endsWith_snoc in Hend. by apply N.eqb_eq in Hend as ->.
  - destruct (indexOf [openBrace] raw) as [first|] eqn:Hfirst; [|done].
    destruct (lastIndexOf [closeBrace] raw) as [last|] eqn:Hlast; [|done].
    destruct (Nat.leb_spec last first) as [|Hlt]; [done|].
    destruct (brace_block raw first last Hfirst Hlast Hlt)
      as (mid & Hslice & Hraw).
    rewrite Hslice.
    assert (Htrim : trim (openBrace :: mid ++ [closeBrace])
                    = openBrace :: mid ++ [closeBrace]).
    { apply trim_clean_id; [exact openBrace_clean|].
      change (openBrace :: mid ++ [closeBrace])
        with ((openBrace :: mid) ++ [closeBrace]).
      rewrite rev_app_distr. exact closeBrace_clean. }
    rewrite Htrim. intros [= <-]. split_and!; [by exists mid| |done].
    by eexists _, _.
Qed.

Lemma extractJsonBlock_block_witness :
  let raw := lit "Sure: {a} and {b}. " in
  let json := lit "{a} and {b}" in
  (∃ mid, json = openBrace :: mid ++ [closeBrace])
  ∧ (∃ pre post, raw = pre ++ json ++ post)
  ∧ trim json = json.
Proof.
  intros raw json. apply (extractJsonBlock_block raw json). reflexivity.
Defined.

(** X19.  [extractJsonBlock] returns exactly when the reply has an opening
    brace with a closing brace somewhere after it, and on every other reply
    it throws the BadRequestException with the message [AI response does
    not contain a JSON object.]. *)
Theorem extractJsonBlock_returns_iff (raw : JsString) :
  ((∃ json, extractJsonBlock raw = Returned json)
   ↔ ∃ pre mid post, raw = pre ++ openBrace :: mid ++ closeBrace :: post)
  ∧ (extractJsonBlock raw
     = Raised (BadRequestException
                 "AI response does not contain a JSON object.")
     ↔ ¬ ∃ pre mid post, raw = pre ++ openBrace :: mid ++ closeBrace :: post).
Proof.
  assert ((∃ json, extractJsonBlock raw = Returned json)
          ↔ ∃ pre mid post,
              raw = pre ++ openBrace :: mid ++ closeBrace :: post) as Hiff.
  {
    split.
    - intros [json Hjson].
      unfold extractJsonBlock in Hjson.
      destruct (startsWith (trim raw) openBrace && endsWith (trim raw) closeBrace)
        eqn:Hclean.
      + apply andb_prop in Hclean as [Hstart Hend].
        destruct (trim_split raw) as (pre & post & Hraw).
        destruct (trim raw) as [|c s]; [done|]. simpl in Hstart.
        apply N.eqb_eq in Hstart as ->.
        destruct s as [|e s _] using rev_ind; [done|].
        change (openBrace :: s ++ [e]) with ((openBrace :: s) ++ [e]) in Hend.
        rewrite endsWith_snoc in Hend. apply N.eqb_eq in Hend as ->.
        exists pre, s, post. rewrite Hraw. simpl. by rewrite <- !app_assoc.
      + destruct (indexOf [openBrace] raw) as [first|] eqn:Hfirst; [|done].
        destruct (lastIndexOf [closeBrace] raw) as [last|] eqn:Hlast; [|done].
        destruct (Nat.leb_spec last first) as [|Hlt]; [done|].
        destruct (brace_block raw first last Hfirst Hlast Hlt)
          as (mid & _ & Hraw).
        exists (take first raw), mid, (drop (S last) raw).
        rewrite Hraw at 1. simpl. by rewrite <- !app_assoc.
    - intros (pre & mid & post & Hraw). unfold extractJsonBlock.
      destruct (startsWith (trim raw) openBrace && endsWith (trim raw) closeBrace);
        [by eexists|].
      assert (raw !! length pre = Some openBrace) as Hopen.
      { rewrite Hraw, lookup_app_r by lia. by rewrite Nat.sub_diag. }
      assert (raw !! (length pre + S (length mid)) = Some closeBrace) as Hclose.
      { rewrite Hraw, lookup_app_r by lia.
        replace (length pre + S (length mid) - length pre) with (S (length mid))
          by lia.
        simpl. rewrite lookup_app_r by lia. by rewrite Nat.sub_diag. }
      destruct (indexOf_single_le _ _ _ Hopen) as (first & -> & Hle).
      destruct (lastIndexOf_single_ge _ _ _ Hclose) as (last & -> & Hge).
      destruct (Nat.leb_spec last first) as [|Hlt]; [lia|]. by eexists. }
  split; [exact Hiff|]. rewrite <- Hiff. split.
  - intros Hraised [json Hjson]. congruence.
  - intros Hnone. unfold extractJsonBlock in Hnone |- *.
    destruct (startsWith (trim raw) openBrace && endsWith (trim raw) closeBrace);
      [destruct Hnone; by eexists|].
    destruct (indexOf [openBrace] raw) as [first|]; [|done].
    destruct (lastIndexOf [closeBrace] raw) as [last|]; [|done].
    destruct (last <=? first); [done|]. destruct Hnone. by eexists.
Qed.

Lemma extractJsonBlock_returns_iff_witness :
  extractJsonBlock (lit "Sure: {} done") = Returned (lit "{}")
  ∧ extractJsonBlock (lit "} no object {")
    = Raised (BadRequestException
                "AI response does not contain a JSON object.").
Proof.
  split; [reflexivity|].
  apply (proj2 (extractJsonBlock_returns_iff (lit "} no object {"))).
  rewrite <- (proj1 (extractJsonBlock_returns_iff (lit "} no object {"))).
  intros [json Hjson]. vm_compute in Hjson. discriminate.
Defined.


(** ** [analyzeCsv] and [cleanCsv] *)

Section CsvServiceProperties.

Variable analyzeCsvPrompt : AnalyzeCsvDto → ServiceResult JsString.
Variable JSON_parse : JsString → option JsValue.

Lemma bind_Returned {A B} (x : A) (k : A → ServiceResult B) :
  (Returned x ≫= k) = k x.
Proof. done. Qed.

Lemma isValidAiResponse_fields (parsed : JsValue) :
  isValidAiResponse parsed = true →
  ∃ explanation rawIssues rawActions,
    field parsed "explanation" = JStr explanation
    ∧ field parsed "issues" = JArray rawIssues
    ∧ field parsed "actions" = JArray rawActions.
Proof.
  unfold isValidAiResponse.
  destruct (_ || _); [done|].
  destruct (field parsed "explanation") as [| | | |explanation| |]; try done.
  destruct (field parsed "issues") as [| | | | |rawIssues|]; try done.
  destruct (field parsed "actions") as [| | | | |rawActions|]; try done.
  by eexists _, _, _.
Qed.

(** X20.  When [analyzeCsv] returns, the advisor has replied, the reply
    holds a JSON block that [JSON.parse] reads once its escaped apostrophes
    are unescaped, and the response is built from the value read: the
    explanation is its [explanation], a string; there is one issue text
    per element of its [issues], the [String] of that element; and there is
    one action per element of its [actions], none of which is [null] or
    [undefined]. *)
Theorem analyzeCsv_returns (dto : AnalyzeCsvDto) (response : AnalyzeCsvResponse) :
  analyzeCsv analyzeCsvPrompt JSON_parse dto = Returned response →
  ∃ raw json parsed explanation rawIssues rawActions,
    analyzeCsvPrompt dto = Returned raw
    ∧ extractJsonBlock raw = Returned json
    ∧ JSON_parse (unescapeApostrophes json) = Some parsed
    ∧ field parsed "explanation" = JStr explanation
    ∧ field parsed "issues" = JArray rawIssues
    ∧ field parsed "actions" = JArray rawActions
    ∧ response_explanation response = JStr explanation
    ∧ Forall2 (λ i text, ToString i = Normal text)
        rawIssues (response_issues response)
    ∧ Forall2 (λ a action, analyzeAction a = Normal action)
        rawActions (response_actions response)
    ∧ Forall (λ a, isNullish a = false) rawActions.
Proof.
  unfold analyzeCsv.
  destruct (analyzeCsvPrompt dto) as [raw|e] eqn:Hraw; [|done].
  rewrite bind_Returned.
  destruct (extractJsonBlock raw) as [json|e] eqn:Hjson; [|done].
  rewrite bind_Returned.
  destruct (JSON_parse _) as [parsed|] eqn:Hparsed; [|done].
  destruct (isValidAiResponse parsed) eqn:Hvalid; [|done]. cbn [negb].
  destruct (isValidAiResponse_fields parsed Hvalid)
    as (explanation & rawIssues & rawActions & Hexp & Hissues & Hactions).
  rewrite Hexp, Hissues, Hactions. cbn [elementsOf uncaught].
  rewrite bind_Returned.
  destruct (mapM ToString rawIssues) as [issues|err] eqn:Hi; [|done].
  cbn [uncaught]. rewrite !bind_Returned.
  destruct (mapM analyzeAction rawActions) as [actions|err] eqn:Ha; [|done].
  cbn [uncaught]. rewrite bind_Returned. intros [= <-].
  exists raw, json, parsed, explanation, rawIssues, rawActions.
  apply mapM_Normal in Hi. apply mapM_Normal in Ha.
  split_and!; try done.
  destruct (mapM_analyzeAction rawActions) as [[_ Hthrow]|[Hall _]]; [|done].
  apply mapM_Normal in Ha. congruence.
Qed.


(** X21.  A reply that passes [isValidAiResponse] but holds [null] or
    [undefined] among its actions makes [analyzeCsv] fail with a TypeError,
    not with the BadRequestException of an invalid reply. *)
Theorem analyzeCsv_null_action (dto : AnalyzeCsvDto) (raw json : JsString)
  (parsed : JsValue) (rawActions : list JsValue) :
  analyzeCsvPrompt dto = Returned raw →
  extractJsonBlock raw = Returned json →
  JSON_parse (unescapeApostrophes json) = Some parsed →
  isValidAiResponse parsed = true →
  field parsed "actions" = JArray rawActions →
  Exists (λ a, isNullish a = true) rawActions →
  analyzeCsv analyzeCsvPrompt JSON_parse dto = Raised (Thrown TypeError).
Proof.
  intros Hraw Hjson Hparsed Hvalid Hactions Hnull. unfold analyzeCsv.
  rewrite Hraw, bind_Returned, Hjson, bind_Returned, Hparsed, Hvalid.
  cbn [negb].
  destruct (isValidAiResponse_fields parsed Hvalid)
    as (explanation & rawIssues & rawActions' & Hexp & Hissues & Hactions').
  rewrite Hissues, Hactions. cbn [elementsOf uncaught].
  rewrite bind_Returned.
  destruct (mapM ToString rawIssues) as [issues|[]]; [|done].
  cbn [uncaught]. rewrite !bind_Returned.
  destruct (mapM_analyzeAction rawActions)
    as [[_ ->]|(Hall & _)]; [done|].
  apply Exists_exists in Hnull as (a & Hin & Ha).
  rewrite Forall_forall in Hall. specialize (Hall a Hin). congruence.
Qed.

(** What a run of [cleanCsv] that returns has gone through. *)
Lemma cleanCsv_Returned (dto : CleanCsvDto) (response : CleanCsvResponse) :
  cleanCsv analyzeCsvPrompt JSON_parse dto = Returned response →
  let delimiter := default [Ch.COMMA] (clean_delimiter dto) in
  let hasHeader := default true (clean_hasHeader dto) in
  let originalRows := parseCsv (clean_csv dto) delimiter in
  ∃ pre plan aiCleaningActions ai,
    applyActions originalRows preCleanActions hasHeader = Normal pre
    ∧ analyzeCsv analyzeCsvPrompt JSON_parse
        (mkAnalyzeCsvDto
           (buildSample (serializeCsv (rows pre) delimiter) defaultMaxLines)
           (Some delimiter) (Some hasHeader)) = Returned plan
    ∧ mapToCleaningActions (actionValue <$> response_actions plan)
      = Normal aiCleaningActions
    ∧ applyActions (rows pre) aiCleaningActions hasHeader = Normal ai
    ∧ response
      = mkCleanCsvResponse
          (mkAiReview (response_explanation plan) (response_issues plan)
             (response_actions plan))
          (mkCleanStats (length originalRows) (length (rows ai))
             (expectedColumnsOf originalRows)
             (rowsChanged pre + rowsChanged ai)
             (rowsDropped pre + rowsDropped ai))
          (serializeCsv (rows ai) delimiter).
Proof.
  intros Hrun delimiter hasHeader originalRows. unfold cleanCsv in Hrun.
  fold delimiter hasHeader originalRows in Hrun.
  destruct (applyActions originalRows preCleanActions hasHeader)
    as [pre|err] eqn:Hpre; [|done].
  cbn [uncaught] in Hrun. rewrite bind_Returned in Hrun.
  destruct (analyzeCsv _ _ _) as [plan|e] eqn:Hplan; [|done].
  rewrite bind_Returned in Hrun.
  destruct (mapToCleaningActions _) as [aiCleaningActions|err] eqn:Hmap;
    [|done].
  cbn [uncaught] in Hrun. rewrite bind_Returned in Hrun.
  destruct (applyActions (rows pre) aiCleaningActions hasHeader)
    as [ai|err] eqn:Hai; [|done].
  cbn [uncaught] in Hrun. rewrite bind_Returned in Hrun.
  injection Hrun as <-. exists pre, plan, aiCleaningActions, ai.
  split_and!; done.
Qed.

(** X22.  The statistics of [cleanCsv] balance: the rows that are left and
    the rows reported as dropped add up to the rows that were parsed. *)
Theorem cleanCsv_stats_balance (dto : CleanCsvDto) (response : CleanCsvResponse) :
  cleanCsv analyzeCsvPrompt JSON_parse dto = Returned response →
  stats_rowsAfter (stats response) + stats_rowsDropped (stats response)
  = stats_rowsBefore (stats response).
Proof.
  intros Hrun.
  destruct (cleanCsv_Returned dto response Hrun)
    as (pre & plan & aiCleaningActions & ai & Hpre & _ & _ & Hai & ->).
  cbn [stats stats_rowsAfter stats_rowsDropped stats_rowsBefore].
  apply applyLoop_balance in Hpre, Hai. simpl in Hpre, Hai. lia.
Qed.

(** X23.  What [cleanCsv] returns is what a single pass over the pre-clean
    plan followed by the actions of its [aiReview] gives on the parsed
    rows: the cleaned text is that pass's rows, and the statistics are its
    counters. *)
Theorem cleanCsv_single_pass (dto : CleanCsvDto) (response : CleanCsvResponse) :
  cleanCsv analyzeCsvPrompt JSON_parse dto = Returned response →
  let delimiter := default [Ch.COMMA] (clean_delimiter dto) in
  let hasHeader := default true (clean_hasHeader dto) in
  ∃ aiCleaningActions st,
    mapToCleaningActions (actionValue <$> review_actions (aiReview response))
    = Normal aiCleaningActions
    ∧ applyActions (parseCsv (clean_csv dto) delimiter)
        (preCleanActions ++ aiCleaningActions) hasHeader = Normal st
    ∧ cleanedCsv response = serializeCsv (rows st) delimiter
    ∧ stats_rowsAfter (stats response) = length (rows st)
    ∧ stats_rowsChanged (stats response) = rowsChanged st
    ∧ stats_rowsDropped (stats response) = rowsDropped st.
Proof.
  intros Hrun delimiter hasHeader.
  destruct (cleanCsv_Returned dto response Hrun)
    as (pre & plan & aiCleaningActions & ai & Hpre & _ & Hmap & Hai & ->).
  fold delimiter hasHeader in Hpre, Hai |- *.
  exists aiCleaningActions,
    (addCounters (rowsChanged pre) (rowsDropped pre) ai).
  split; [exact Hmap|]. split; [|done].
  unfold applyActions in *. rewrite applyLoop_app, Hpre, bind_Normal.
  by rewrite applyLoop_counters, Hai, bind_Normal.
Qed.

(** X24.  [cleanCsv] returns whenever the call to [analyzeCsv] that it
    makes, on the sample of the pre-cleaned text with the delimiter and the
    header flag, returns a plan in which every column index is an array
    index: the pre-clean pass never throws, and neither does the pass over
    such a plan.  The actions of the review are those of the plan. *)
Theorem cleanCsv_returns (dto : CleanCsvDto) (plan : AnalyzeCsvResponse) :
  let delimiter := default [Ch.COMMA] (clean_delimiter dto) in
  let hasHeader := default true (clean_hasHeader dto) in
  (∀ pre,
     applyActions (parseCsv (clean_csv dto) delimiter) preCleanActions hasHeader
     = Normal pre →
     analyzeCsv analyzeCsvPrompt JSON_parse
       (mkAnalyzeCsvDto
          (buildSample (serializeCsv (rows pre) delimiter) defaultMaxLines)
          (Some delimiter) (Some hasHeader)) = Returned plan) →
  Forall (λ a, ∀ c, action_columnIndex a = Some c → is_Some (arrayIndex c))
    (response_actions plan) →
  ∃ response,
    cleanCsv analyzeCsvPrompt JSON_parse dto = Returned response
    ∧ review_actions (aiReview response) = response_actions plan.
Proof.
  intros delimiter hasHeader Hplan Hcols. unfold cleanCsv. cbv zeta.
  fold delimiter hasHeader.
  destruct (applyActions_total (parseCsv (clean_csv dto) delimiter)
              preCleanActions hasHeader) as [pre Hpre].
  { by repeat constructor. }
  rewrite Hpre. cbn [uncaught].
  rewrite bind_Returned, (Hplan pre Hpre), bind_Returned.
  destruct (mapToCleaningActions_plan _ _ Hcols)
    as (aiCleaningActions & -> & Hmodes).
  cbn [uncaught]. rewrite bind_Returned.
  destruct (applyActions_total (rows pre) aiCleaningActions hasHeader)
    as [ai ->].
  { eapply list.Forall_impl; [exact Hmodes|]. intros action.
    destruct action; try done. by intros [_ ?]. }
  cbn [uncaught]. rewrite bind_Returned. by eexists.
Qed.


End CsvServiceProperties.

(** X25.  The advisor is only ever asked about a sample of at most 50
    lines that comes with a delimiter and a header flag: two advisors that
    agree on such requests give the same [cleanCsv]. *)
Theorem cleanCsv_sample_bound
  (prompt1 prompt2 : AnalyzeCsvDto → ServiceResult JsString)
  (JSON_parse : JsString → option JsValue) (dto : CleanCsvDto) :
  (∀ analyzeDto,
     length (splitLines (analyze_csvSample analyzeDto)) ≤ 50 →
     is_Some (analyze_delimiter analyzeDto) →
     is_Some (analyze_hasHeader analyzeDto) →
     prompt1 analyzeDto = prompt2 analyzeDto) →
  cleanCsv prompt1 JSON_parse dto = cleanCsv prompt2 JSON_parse dto.
Proof.
  intros Hagree. unfold cleanCsv. cbv zeta.
  destruct (applyActions _ preCleanActions _) as [pre|err]; [|done].
  cbn [uncaught]. rewrite !bind_Returned.
  unfold analyzeCsv. rewrite Hagree; [done| |done|done].
  cbn [analyze_csvSample].
  change defaultMaxLines with (Z.of_nat 50).
  rewrite splitLines_buildSample by lia. lia.
Qed.

Lemma analyzeCsv_returns_witness :
  let dto := mkAnalyzeCsvDto (lit "id,age") None None in
  ∃ response,
    analyzeCsv (fixedReply (lit "{}")) (fixedParse sampleReply) dto
    = Returned response
    ∧ ∃ raw json parsed explanation rawIssues rawActions,
        fixedReply (lit "{}") dto = Returned raw
        ∧ extractJsonBlock raw = Returned json
        ∧ fixedParse sampleReply (unescapeApostrophes json) = Some parsed
        ∧ field parsed "explanation" = JStr explanation
        ∧ field parsed "issues" = JArray rawIssues
        ∧ field parsed "actions" = JArray rawActions
        ∧ response_explanation response = JStr explanation
        ∧ Forall2 (λ i text, ToString i = Normal text)
            rawIssues (response_issues response)
        ∧ Forall2 (λ a action, analyzeAction a = Normal action)
            rawActions (response_actions response)
        ∧ Forall (λ a, isNullish a = false) rawActions.
Proof.
  intros dto. eexists. split; [vm_compute; reflexivity|].
  apply (analyzeCsv_returns (fixedReply (lit "{}")) (fixedParse sampleReply)
           dto).
  vm_compute. reflexivity.
Defined.


Lemma analyzeCsv_null_action_witness :
  analyzeCsv (fixedReply (lit "{}")) (fixedParse sampleReplyNull)
    (mkAnalyzeCsvDto (lit "id,age") None None)
  = Raised (Thrown TypeError).
Proof.
  apply (analyzeCsv_null_action _ _ _ (lit "{}") (lit "{}") sampleReplyNull
           [JNull]); try reflexivity.
  by left.
Defined.

Lemma cleanCsv_stats_balance_witness :
  ∃ response,
    cleanCsv (fixedReply (lit "{}")) (fixedParse sampleReply) sampleDto
    = Returned response
    ∧ stats_rowsAfter (stats response) + stats_rowsDropped (stats response)
      = stats_rowsBefore (stats response).
Proof.
  eexists. split; [vm_compute; reflexivity|].
  apply (cleanCsv_stats_balance (fixedReply (lit "{}")) (fixedParse sampleReply)
           sampleDto).
  vm_compute. reflexivity.
Defined.

Lemma cleanCsv_single_pass_witness :
  ∃ response,
    cleanCsv (fixedReply (lit "{}")) (fixedParse sampleReply) sampleDto
    = Returned response
    ∧ ∃ aiCleaningActions st,
        mapToCleaningActions (actionValue <$> review_actions (aiReview response))
        = Normal aiCleaningActions
        ∧ applyActions (parseCsv (clean_csv sampleDto) [Ch.COMMA])
            (preCleanActions ++ aiCleaningActions) true = Normal st
        ∧ cleanedCsv response = serializeCsv (rows st) [Ch.COMMA]
        ∧ stats_rowsAfter (stats response) = length (rows st)
        ∧ stats_rowsChanged (stats response) = rowsChanged st
        ∧ stats_rowsDropped (stats response) = rowsDropped st.
Proof.
  eexists. split; [vm_compute; reflexivity|].
  apply (cleanCsv_single_pass (fixedReply (lit "{}")) (fixedParse sampleReply)
           sampleDto).
  vm_compute. reflexivity.
Defined.

Lemma cleanCsv_returns_witness :
  ∃ response,
    cleanCsv (fixedReply (lit "{}")) (fixedParse sampleReply) sampleDto
    = Returned response
    ∧ review_actions (aiReview response)
      = [mkAnalyzeCsvAction (lit "COERCE_NUMERIC") (Some (Finite false 1 0))].
Proof.
  apply (cleanCsv_returns (fixedReply (lit "{}")) (fixedParse sampleReply)
           sampleDto
           (mkAnalyzeCsvResponse (JStr (lit "ok")) [lit "age"]
              [mkAnalyzeCsvAction (lit "COERCE_NUMERIC")
                 (Some (Finite false 1 0))])).
  - intros pre _. reflexivity.
  - repeat constructor. intros c [= <-]. by eexists.
Defined.


Lemma cleanCsv_sample_bound_witness :
  cleanCsv (fixedReply (lit "{}")) (fixedParse sampleReply) sampleDto
  = cleanCsv
      (λ analyzeDto,
         if bool_decide (length (splitLines (analyze_csvSample analyzeDto)) ≤ 50)
         then Returned (lit "{}") else Raised AgentError)
      (fixedParse sampleReply) sampleDto.
Proof.
  apply cleanCsv_sample_bound. intros analyzeDto Hlines _ _.
  unfold fixedReply. by rewrite bool_decide_eq_true_2.
Defined.

(** ** More on the passes of [cleanCsv] *)

(** X26.  The pre-clean pass of [cleanCsv] always returns, and it leaves a
    rectangular table of trimmed cells: every row has as many cells as the
    first one, and no cell begins or ends with white space. *)
Theorem preClean_rectangular (t : Table) (hasHeader : bool) :
  ∃ st,
    applyActions t preCleanActions hasHeader = Normal st
    ∧ Forall (Forall (λ cell, trim cell = cell)) (rows st)
    ∧ Forall (λ row, length row = expectedColumnsOf (rows st)) (rows st).
Proof.
  destruct (applyActions_total t preCleanActions hasHeader) as [st Hst].
  { by repeat constructor. }
  exists st. split; [done|]. by apply (preClean_output t hasHeader).
Qed.

Lemma coerceLoopInPlace_refines_witness :
  let store := [[lit "id"]; [lit " 7 "]; [lit "n/a"]] in
  match coerceLoopInPlace (Zero false) DropRow store [0; 1; 2] 1 0 0 with
  | Normal (store', refs', changed', dropped') =>
      ∃ t', denotes store' refs' t'
            ∧ coerceLoop (Zero false) DropRow store 1 0 0
              = Normal (t', changed', dropped')
  | Throw err => coerceLoop (Zero false) DropRow store 1 0 0 = Throw err
  end.
Proof.
  intros store.
  apply (coerceLoopInPlace_refines (Zero false) DropRow store [0; 1; 2] store).
  - apply (bool_decide_unpack _). vm_compute. exact I.
  - by repeat constructor.
Defined.

Lemma coerceCell_clean (onError : CoerceOnError) (value : JsString) :
  match coerceCell onError value with
  | Skip => nonEmptyNonNumeric value = false
  | Rewrite text => nonEmptyNonNumeric text = false
  | Splice => True
  end.
Proof.
  unfold coerceCell, nonEmptyNonNumeric.
  destruct (length (trim value) =? 0) eqn:Hlen; [done|].
  destruct (isNaN (StringToNumber (trim value))) eqn:Hnan.
  - by destruct onError.
  - case_bool_decide; [|done]. by apply nonEmptyNonNumeric_NumberToString.
Qed.

Lemma coerceRow_clean (c : JsNumber) (onError : CoerceOnError)
  (row row' : Row) (o : RowOutcome) (value : JsString) :
  coerceRow c onError row = Normal o →
  o = Kept row' ∨ o = Changed row' →
  arrayGet row' c = Some value → nonEmptyNonNumeric value = false.
Proof.
  intros Ho Hrow' Hget.
  destruct (coerceRow_cases _ _ _ _ Ho)
    as [[-> Hskip]|[(-> & v & _ & Hcell)
                   |(k & v & text & Hk & Hv & Hcell & ->)]].
  - destruct Hrow' as [[= <-]|[=]].
    destruct Hskip as [Hnone|(v & Hv & Hcell)]; [congruence|].
    rewrite Hget in Hv. injection Hv as <-.
    pose proof (coerceCell_clean onError value) as Hclean.
    by rewrite Hcell in Hclean.
  - by destruct Hrow'.
  - destruct Hrow' as [[=]|[= <-]].
    unfold arrayGet in Hget. rewrite Hk in Hget. cbn in Hget.
    rewrite list_lookup_insert_eq in Hget by by eapply lookup_lt_Some.
    injection Hget as <-.
    pose proof (coerceCell_clean onError v) as Hclean.
    by rewrite Hcell in Hclean.
Qed.

(** X27.  In every mode, once COERCE_NUMERIC has returned, no row at or
    after the data-start index (index 1 when [hasHeader] is true, index 0
    otherwise) is left with a cell in the target column whose trimmed text
    is neither empty nor read as a number: such a row has been dropped, or
    the cell has been emptied or set to zero. *)
Theorem coerce_numeric_leaves_numeric (hasHeader : bool)
  (st st' : ApplyActionsResult) (columnIndex : JsNumber)
  (onError : CoerceOnError) (i : nat) (row : Row) (value : JsString) :
  applyAction hasHeader st (COERCE_NUMERIC columnIndex onError) = Normal st' →
  (if hasHeader then 1 else 0) ≤ i →
  rows st' !! i = Some row →
  arrayGet row columnIndex = Some value →
  nonEmptyNonNumeric value = false.
Proof.
  rewrite applyAction_coerce.
  destruct (mapM _ _) as [outcomes|] eqn:Hout; [|done].
  rewrite bind_Normal. intros [= <-]. cbn [rows].
  intros Hi Hrow Hget. change (startIndexOf hasHeader ≤ i) in Hi.
  rewrite lookup_app_r in Hrow by (rewrite length_take; lia).
  apply list_elem_of_lookup_2, collect_rows_elem in Hrow.
  apply mapM_Normal in Hout.
  assert (∃ o row0, coerceRow columnIndex onError row0 = Normal o
                    ∧ (o = Kept row ∨ o = Changed row))
    as (o & row0 & Ho & Hkind).
  { destruct Hrow as [Hin|Hin];
      apply list_elem_of_lookup in Hin as [j Hj];
      destruct (Forall2_lookup_r _ _ _ _ _ Hout Hj) as (row0 & _ & Ho);
      eauto. }
  by eapply coerceRow_clean.
Qed.

Lemma coerce_numeric_leaves_numeric_witness :
  let st := mkResult [[lit "id"; lit "age"]; [lit "1"; lit "n/a"];
                      [lit "2"; lit " 7 "]] 0 0 in
  let st' := mkResult [[lit "id"; lit "age"]; [lit "2"; lit "7"]] 1 1 in
  let bare := mkResult [[lit "n/a"]; [lit " 7 "]] 0 0 in
  let bare' := mkResult [[lit "7"]] 1 1 in
  (applyAction true st (COERCE_NUMERIC (Finite false 1 0) DropRow) = Normal st'
   ∧ nonEmptyNonNumeric (lit "7") = false)
  ∧ (applyAction false bare (COERCE_NUMERIC (Zero false) DropRow)
     = Normal bare'
     ∧ nonEmptyNonNumeric (lit "7") = false).
Proof.
  intros st st' bare bare'.
  assert (applyAction true st (COERCE_NUMERIC (Finite false 1 0) DropRow)
          = Normal st') as Hrun by (vm_compute; reflexivity).
  assert (applyAction false bare (COERCE_NUMERIC (Zero false) DropRow)
          = Normal bare') as Hbare by (vm_compute; reflexivity).
  split; (split; [done|]).
  - apply (coerce_numeric_leaves_numeric true st st' (Finite false 1 0) DropRow
             1 [lit "2"; lit "7"] (lit "7") Hrun);
      [cbn; lia|reflexivity|reflexivity].
  - apply (coerce_numeric_leaves_numeric false bare bare' (Zero false) DropRow
             0 [lit "7"] (lit "7") Hbare);
      [cbn; lia|reflexivity|reflexivity].
Defined.
